(** * Density_analyser: note canonicalisation, interval density and
      psychoacoustic corrections

    A shallow embedding of the pitch and density core of the Python sources
    ([microtonal.py], [utils/notes.py], [utils/serialize_utils.py],
    [densidade_intervalar.py], [calibration.py], [data_processor.py],
    [psychoacoustic_corrections.py], [spectral_analysis.py],
    [error_handler.py]).

    Conventions of the embedding:
    - a Python [str] is the list of its code points ([pystr]);
    - what Python takes from the interpreter's Unicode database ([\d] and
      [int] on decimal digits, [str.strip], [str.upper]/[str.lower],
      [unicodedata.normalize]) is a parameter, the class [Unicode]; the
      class [UnicodeOk] states the part of the database the proofs rely on
      (ASCII and the four musical symbols), and [ascii_unicode] is the
      database restricted to that alphabet, used to evaluate concrete notes;
    - a Python [float] holding a pitch is an exact rational ([Q]); every
      quarter-tone value is a multiple of 0.5 and is exact in binary
      floating point as well;
    - functions that call [exp], [arctan] or [**] compute over the real
      numbers ([R]), and a float power whose value leaves the double range
      raises OverflowError, as in Python ([midi_to_hz_float],
      [frequency_to_bark_float]);
    - the arrays of [spectral_analysis.py] hold [pyfloat]s: a finite value
      (a rational, its rounding left out), an infinity or NaN; a sum or a
      quotient that leaves the double range is an infinity, and [a.sum()]
      adds in numpy's pairwise order;
    - the decay and the perceptual weight are embedded a second time on
      binary64 floats ([DensidadeIntervalarFloat]), where the statements
      are about the rounded products;
    - exceptions and log records are explicit: a computation returns a
      [result] together with the records it logged; of the log records the
      embedding keeps warnings and errors, and the density functions, whose
      records no statement below is about, return the [result] alone. *)

From Stdlib Require Import ZArith QArith Qabs Qround Reals Psatz List String Ascii.
From Stdlib Require Import Qreals.
From Stdlib Require Floats.
From stdpp Require Import base option list gmap.
Import ListNotations.

(** ** Python strings *)

Abbreviation char := N.
Abbreviation pystr := (list N).

Module PyStr.

Definition bytes_of (s : string) : list N :=
  List.map (fun a => N_of_ascii a) (list_ascii_of_string s).

(** UTF-8 decoding of a string literal of this file into code points. *)
Fixpoint utf8 (bs : list N) : pystr :=
  match bs with
  | [] => []
  | b :: r =>
      if (b <? 128)%N then b :: utf8 r
      else match r with
           | [] => [b]
           | b2 :: r2 =>
               if (b <? 224)%N
               then ((b mod 32) * 64 + b2 mod 64)%N :: utf8 r2
               else match r2 with
                    | [] => [b]
                    | b3 :: r3 =>
                        if (b <? 240)%N
                        then ((b mod 16) * 4096 + (b2 mod 64) * 64 + b3 mod 64)%N
                               :: utf8 r3
                        else match r3 with
                             | [] => [b]
                             | b4 :: r4 =>
                                 ((b mod 8) * 262144 + (b2 mod 64) * 4096
                                  + (b3 mod 64) * 64 + b4 mod 64)%N :: utf8 r4
                             end
                    end
           end
  end.

Definition py (s : string) : pystr := utf8 (bytes_of s).
Arguments py : simpl never.

Definition eqb (s t : pystr) : bool := bool_decide (s = t).

(** [c in s] for a one-character [c]. *)
Definition contains (c : char) (s : pystr) : bool := bool_decide (c ∈ s).

(** [s.replace(old, new)] for a one-character [old]. *)
Definition replace (old : char) (new : pystr) (s : pystr) : pystr :=
  List.flat_map (fun c => if (c =? old)%N then new else [c]) s.

Fixpoint startswith (p s : pystr) : bool :=
  match p, s with
  | [], _ => true
  | a :: p', b :: s' => (a =? b)%N && startswith p' s'
  | _ :: _, [] => false
  end.

(** [s.replace(old, new, 1)] when [s] starts with [old]: the first
    occurrence is the prefix. *)
Definition replace_prefix (old new s : pystr) : pystr :=
  if startswith old s then new ++ drop (length old) s else s.

End PyStr.

Import PyStr.

(** Code points the sources name. *)
Definition QUARTO_TOM_ACIMA : char := 8593%N.   (* U+2191, up arrow *)
Definition QUARTO_TOM_ABAIXO : char := 8595%N.  (* U+2193, down arrow *)
Definition SUSTENIDO_MUSICAL : char := 9839%N.  (* U+266F, music sharp *)
Definition BEMOL_MUSICAL : char := 9837%N.      (* U+266D, music flat *)
Definition NEWLINE : char := 10%N.
Definition SPACE : char := 32%N.
Definition HASH : char := 35%N.                 (* # *)
Definition PLUS : char := 43%N.
Definition MINUS : char := 45%N.
Definition LOWER_B : char := 98%N.
Definition LOWER_C : char := 99%N.

(** ** The interpreter's Unicode database *)

Class Unicode := {
  (** value of a character of category Nd: what [\d] matches and [int] reads *)
  digit_value : char -> option Z;
  (** [str.isspace] on one character: what [str.strip] removes *)
  isspace : char -> bool;
  (** [unicodedata.normalize("NFKC", s)] *)
  NFKC : pystr -> pystr;
  (** [str.upper] and [str.lower] on one character (the result can be longer) *)
  upper : char -> pystr;
  lower : char -> pystr
}.

(** The alphabet of note strings: ASCII and the four musical symbols. *)
Definition note_char (c : char) : Prop :=
  (c < 128)%N \/ c = QUARTO_TOM_ACIMA \/ c = QUARTO_TOM_ABAIXO
  \/ c = SUSTENIDO_MUSICAL \/ c = BEMOL_MUSICAL.

Definition ascii_digit (c : char) : option Z :=
  if ((48 <=? c) && (c <=? 57))%N then Some (Z.of_N c - 48)%Z else None.

Definition ascii_space (c : char) : bool :=
  ((9 <=? c) && (c <=? 13) || (28 <=? c) && (c <=? 32))%N.

Definition ascii_upper (c : char) : pystr :=
  [if ((97 <=? c) && (c <=? 122))%N then (c - 32)%N else c].

Definition ascii_lower (c : char) : pystr :=
  [if ((65 <=? c) && (c <=? 90))%N then (c + 32)%N else c].

(** What the proofs use of the database: its values on the note alphabet,
    and that a decimal digit has a value from 0 to 9. *)
Class UnicodeOk (U : Unicode) : Prop := {
  digit_value_note : forall c, note_char c -> digit_value c = ascii_digit c;
  digit_value_range : forall c d, digit_value c = Some d -> (0 <= d <= 9)%Z;
  isspace_note : forall c, note_char c -> isspace c = ascii_space c;
  NFKC_note : forall s, Forall note_char s -> NFKC s = s;
  upper_note : forall c, note_char c -> upper c = ascii_upper c;
  lower_note : forall c, note_char c -> lower c = ascii_lower c
}.

(** The database restricted to the note alphabet. *)
Definition ascii_unicode : Unicode := {|
  digit_value := ascii_digit;
  isspace := ascii_space;
  NFKC := fun s => s;
  upper := ascii_upper;
  lower := ascii_lower
|}.

(** ** Exceptions and logging *)

Inductive exn :=
| ValueError (msg : pystr)
| KeyError (key : pystr)
| IndexError
| OverflowError (msg : pystr)         (* a float result outside the double range *)
| RecursionError                      (* the interpreter's recursion limit *)
| InputError (msg : pystr)
| CalculationError (msg : pystr).

(** [isinstance(e, DensidadeError)] *)
Definition is_DensidadeError (e : exn) : bool :=
  match e with InputError _ | CalculationError _ => true | _ => false end.

Inductive result (A : Type) :=
| Ok (a : A)
| Raise (e : exn).
Arguments Ok {A} a.
Arguments Raise {A} e.

Inductive record :=
| LogDebug (msg : pystr)
| LogInfo (msg : pystr)
| LogWarning (msg : pystr)
| LogError (msg : pystr)
| ShowError (title msg : pystr).      (* messagebox.showerror *)

(** A computation: its outcome and the records it emitted, oldest first. *)
Definition M (A : Type) : Type := result A * list record.

Definition ret {A} (a : A) : M A := (Ok a, []).
Definition raise {A} (e : exn) : M A := (Raise e, []).
Definition emit (r : record) : M unit := (Ok tt, [r]).
Definition bind {A B} (m : M A) (k : A -> M B) : M B :=
  match m with
  | (Ok a, w) => let '(r, w') := k a in (r, w ++ w')
  | (Raise e, w) => (Raise e, w)
  end.
(** [try: m  except Exception as e: h e] *)
Definition try_except {A} (m : M A) (h : exn -> M A) : M A :=
  match m with
  | (Ok a, w) => (Ok a, w)
  | (Raise e, w) => let '(r, w') := h e in (r, w ++ w')
  end.
(** an operation that can fail, lifted *)
Definition lift {A} (e : exn) (o : option A) : M A :=
  match o with Some a => ret a | None => raise e end.

#[export] Instance M_ret : MRet M := @ret.
#[export] Instance M_bind : MBind M := fun A B k m => bind m k.

#[export] Instance result_ret : MRet result := @Ok.
#[export] Instance result_bind : MBind result := fun A B k m =>
  match m with Ok a => k a | Raise e => Raise e end.
#[export] Instance result_fmap : FMap result := fun A B f m =>
  match m with Ok a => Ok (f a) | Raise e => Raise e end.

(** [l[i]] *)
Definition index {A} (l : list A) (i : nat) : result A :=
  match l !! i with Some a => Ok a | None => Raise IndexError end.

(** [for x in l: s = body x s], stopping at the first exception *)
Fixpoint for_each {A S} (l : list A) (s : S) (body : A -> S -> result S) : result S :=
  match l with
  | [] => Ok s
  | x :: l' => match body x s with
               | Ok s' => for_each l' s' body
               | Raise e => Raise e
               end
  end.

(** [[f(x) for x in l]] *)
Fixpoint comprehension {A B} (f : A -> result B) (l : list A) : result (list B) :=
  match l with
  | [] => Ok []
  | x :: l' => match f x with
               | Ok y => match comprehension f l' with
                         | Ok ys => Ok (y :: ys)
                         | Raise e => Raise e
                         end
               | Raise e => Raise e
               end
  end.

(** [range(a, b)] *)
Definition range (a b : nat) : list nat := seq a (b - a).

(** ** Regular expressions

    The patterns of the sources are sequences of character classes, each
    with a greedy repetition [{lo,hi}], some of them inside capturing
    groups.  [fullmatch] is [re.fullmatch]; [match_dollar] is [re.match] on
    a pattern written [^...$], where [$] also matches just before a final
    newline. *)

Module Re.

Record atom := Atom {
  cls : char -> bool;
  lo : nat;
  hi : option nat          (* [None]: unbounded *)
}.

Definition one (P : char -> bool) := Atom P 1 (Some 1).
Definition opt (P : char -> bool) := Atom P 0 (Some 1).
Definition rep (P : char -> bool) (a b : nat) := Atom P a (Some b).
Definition plus (P : char -> bool) := Atom P 1 None.
Definition lit (c : char) := one (fun x => (x =? c)%N).

Record group := Group { capture : bool; atoms : list atom }.
Definition cap (l : list atom) := Group true l.
Definition raw (l : list atom) := Group false l.
Definition re := list group.

(** number of leading characters of [s] in the class, at most [n] *)
Fixpoint prefix_len (P : char -> bool) (n : nat) (s : pystr) : nat :=
  match n, s with
  | S n', c :: s' => if P c then S (prefix_len P n' s') else 0
  | _, _ => 0
  end.

(** try [k], [k-1], ..., [lo] repetitions: greedy, with backtracking *)
Fixpoint backtrack {A} (k lo : nat) (f : nat -> option A) : option A :=
  if (k <? lo)%nat then None
  else match f k with
       | Some r => Some r
       | None => match k with
                 | O => None
                 | S k' => backtrack k' lo f
                 end
       end.

Definition bound (a : atom) (s : pystr) : nat :=
  match hi a with Some n => n | None => length s end.

(** the text each atom consumed, when the whole of [s] matches *)
Fixpoint match_atoms (p : list atom) (s : pystr) : option (list pystr) :=
  match p with
  | [] => match s with [] => Some [] | _ :: _ => None end
  | a :: p' =>
      backtrack (prefix_len (cls a) (bound a s) s) (lo a)
        (fun k => match match_atoms p' (drop k s) with
                  | Some parts => Some (take k s :: parts)
                  | None => None
                  end)
  end.

(** [m.groups()]: the text of each capturing group *)
Fixpoint groups (r : re) (parts : list pystr) : list pystr :=
  match r with
  | [] => []
  | g :: r' =>
      let n := length (atoms g) in
      let rest := groups r' (drop n parts) in
      if capture g then concat (take n parts) :: rest else rest
  end.

Definition fullmatch (r : re) (s : pystr) : option (list pystr) :=
  match match_atoms (List.flat_map atoms r) s with
  | Some parts => Some (groups r parts)
  | None => None
  end.

Definition match_dollar (r : re) (s : pystr) : option (list pystr) :=
  match fullmatch r s with
  | Some g => Some g
  | None =>
      match last s with
      | Some c => if (c =? NEWLINE)%N then fullmatch r (removelast s) else None
      | None => None
      end
  end.

Definition matches (o : option (list pystr)) : bool :=
  match o with Some _ => true | None => false end.

End Re.

(** ** Built-ins used on matched text *)

Section builtins.
Context {U : Unicode}.

Definition is_digit (c : char) : bool :=
  match digit_value c with Some _ => true | None => false end.

(** value of a non-empty run of decimal digits, most significant first *)
Fixpoint digits_value (acc : Z) (s : pystr) : option Z :=
  match s with
  | [] => Some acc
  | c :: s' =>
      match digit_value c with
      | Some d => digits_value (10 * acc + d) s'
      | None => None
      end
  end.

(** [int(s)] on an optional sign followed by decimal digits, which is what
    the patterns hand to it; [None] is ValueError. *)
Definition py_int (s : pystr) : option Z :=
  match s with
  | [] => None
  | c :: r =>
      if (c =? PLUS)%N then
        match r with [] => None | _ => digits_value 0 r end
      else if (c =? MINUS)%N then
        match r with [] => None | _ => Z.opp <$> digits_value 0 r end
      else digits_value 0 s
  end.

(** [s.capitalize()] *)
Definition capitalize (s : pystr) : pystr :=
  match s with
  | [] => []
  | c :: r => upper c ++ List.flat_map lower r
  end.

(** [s.strip()] *)
Fixpoint lstrip (s : pystr) : pystr :=
  match s with
  | [] => []
  | c :: r => if isspace c then lstrip r else s
  end.

Definition strip (s : pystr) : pystr :=
  reverse (lstrip (reverse (lstrip s))).

(** [a, b = m.groups()] *)
Definition unpack2 (g : list pystr) : M (pystr * pystr) :=
  match g with
  | [a; b] => mret (a, b)
  | _ => raise (ValueError (py "not enough values to unpack"))
  end.

Definition unpack3 (g : list pystr) : M (pystr * pystr * pystr) :=
  match g with
  | [a; b; c] => mret (a, b, c)
  | _ => raise (ValueError (py "not enough values to unpack"))
  end.

(** [int(s)] *)
Definition int (s : pystr) : M Z :=
  lift (ValueError (py "invalid literal for int() with base 10: " ++ s)) (py_int s).
End builtins.

Arguments int : simpl never.

(** Character classes of the patterns. *)
Definition in_range (a b : N) (c : char) : bool := ((a <=? c) && (c <=? b))%N.
Definition cls_letter (c : char) : bool := in_range 65 71 c || in_range 97 103 c.  (* [A-Ga-g] *)
Definition cls_acc (c : char) : bool := (c =? HASH)%N || (c =? LOWER_B)%N.          (* [#b] *)
Definition cls_acc3 (c : char) : bool := cls_acc c || (c =? SUSTENIDO_MUSICAL)%N.  (* [#♯b] *)
Definition cls_sign (c : char) : bool := (c =? PLUS)%N || (c =? MINUS)%N.           (* [+-] *)
Definition cls_arrow (c : char) : bool :=
  (c =? QUARTO_TOM_ACIMA)%N || (c =? QUARTO_TOM_ABAIXO)%N.
Definition cls_09 (c : char) : bool := in_range 48 57 c.                           (* [0-9] *)

Definition dict_in {V} (k : pystr) (d : gmap pystr V) : bool :=
  match d !! k with Some _ => true | None => false end.

(** first pattern of a [for pattern in patterns] loop that matches *)
Fixpoint first_match (ps : list Re.re) (s : pystr) : option (list pystr) :=
  match ps with
  | [] => None
  | p :: ps' =>
      match Re.match_dollar p s with
      | Some g => Some g
      | None => first_match ps' s
      end
  end.

(** ** microtonal.py *)

Module Microtonal.
Section with_unicode.
Context {U : Unicode}.
Import Re.

Definition ESCALA_CROMATICA : gmap pystr Z :=
  list_to_map
    [ (py "C", 0); (py "C#", 1); (py "Db", 1);
      (py "D", 2); (py "D#", 3); (py "Eb", 3);
      (py "E", 4);
      (py "F", 5); (py "F#", 6); (py "Gb", 6);
      (py "G", 7); (py "G#", 8); (py "Ab", 8);
      (py "A", 9); (py "A#", 10); (py "Bb", 10);
      (py "B", 11) ]%Z.

Definition _RE_STANDARD : re :=
  [cap [one cls_letter; opt cls_acc3]; cap [one is_digit]].
Definition _RE_QUARTER : re :=
  [cap [one cls_letter; opt cls_acc3]; cap [one cls_sign]; cap [one is_digit]].
Definition _RE_ARROW : re :=
  [cap [one cls_letter; opt cls_acc3]; cap [one cls_arrow]; cap [one is_digit]].
Definition _RE_CENTS : re :=
  [cap [one cls_letter; opt cls_acc3; one is_digit];
   cap [one cls_sign; rep is_digit 1 2]; raw [lit LOWER_C]].

(** the two extra patterns of [is_valid_note] *)
Definition valid_arrow_cents : re :=
  [raw [one cls_letter; opt cls_acc3; one cls_arrow; one cls_09;
        one cls_sign; rep cls_09 1 2; lit LOWER_C]].
Definition valid_quarter_cents : re :=
  [raw [one cls_letter; opt cls_acc3; one cls_sign; one cls_09;
        one cls_sign; rep cls_09 1 2; lit LOWER_C]].

Definition is_valid_note (nota : pystr) : bool :=
  if bool_decide (nota = []) then false else
  let nota_normalizada := replace HASH [SUSTENIDO_MUSICAL] nota in
  if matches (match_dollar _RE_STANDARD nota_normalizada)
     || matches (match_dollar _RE_QUARTER nota_normalizada)
     || matches (match_dollar _RE_ARROW nota_normalizada)
     || matches (match_dollar _RE_CENTS nota_normalizada)
  then true
  else
    existsb (fun pattern =>
               matches (match_dollar pattern nota)
               || matches (match_dollar pattern nota_normalizada))
            [valid_arrow_cents; valid_quarter_cents].

(** the three patterns tried by [extract_cents] after [_RE_CENTS] *)
Definition cents_plain : re :=
  [cap [one cls_letter; opt cls_acc; one cls_09];
   cap [one cls_sign; rep cls_09 1 2]; raw [lit LOWER_C]].
Definition cents_arrow : re :=
  [cap [one cls_letter; opt cls_acc; one cls_arrow; one cls_09];
   cap [one cls_sign; rep cls_09 1 2]; raw [lit LOWER_C]].
Definition cents_quarter : re :=
  [cap [one cls_letter; opt cls_acc; one cls_sign; one cls_09];
   cap [one cls_sign; rep cls_09 1 2]; raw [lit LOWER_C]].

Definition extract_cents (nota : pystr) : M (pystr * Z) :=
  if negb (contains LOWER_C nota) then mret (nota, 0%Z) else
  try_except
    (match match_dollar _RE_CENTS nota with
     | Some g =>
         '(base_note, cents_part) ← unpack2 g;
         cents_value ← int cents_part;
         mret (base_note, cents_value)
     | None =>
         let nota_processada := replace SUSTENIDO_MUSICAL (py "#") nota in
         match first_match [cents_plain; cents_arrow; cents_quarter] nota_processada with
         | Some g =>
             '(base_note, cents_part) ← unpack2 g;
             cents_value ← int cents_part;
             let base_note :=
               if contains SUSTENIDO_MUSICAL nota && contains HASH base_note
               then replace HASH [SUSTENIDO_MUSICAL] base_note
               else base_note in
             mret (base_note, cents_value)
         | None => mret (nota, 0%Z)
         end
     end)
    (fun e =>
       emit (LogError (py "Erro ao extrair cents da nota " ++ nota));;
       mret (nota, 0%Z)).

(** One [re.fullmatch] step of [note_to_midi]: [Some] when the step
    returns, [None] when control falls through to the next step (no
    match, or [base] not in [ESCALA_CROMATICA]). *)
Definition arrow_step (arrow : char) (delta : Q) (note : pystr) : option (M Q) :=
  match fullmatch [cap [one cls_letter; opt cls_acc]; raw [lit arrow]; cap [one is_digit]] note with
  | None => None
  | Some [base; octave] =>
      let base := capitalize base in
      if dict_in base ESCALA_CROMATICA then
        Some (o ← int octave;
              e ← lift (KeyError base) (ESCALA_CROMATICA !! base);
              mret (inject_Z ((o + 1) * 12 + e) + delta)%Q)
      else None
  | Some g => Some (_ ← unpack2 g; raise (ValueError (py "too many values to unpack")))
  end.

Definition quarter_step (note : pystr) : option (M Q) :=
  match fullmatch [cap [one cls_letter; opt cls_acc]; cap [one cls_sign]; cap [one is_digit]] note with
  | None => None
  | Some [base; sign; octave] =>
      let base := capitalize base in
      if dict_in base ESCALA_CROMATICA then
        let delta := if eqb sign (py "+") then (1 # 2)%Q else (- (1 # 2))%Q in
        Some (o ← int octave;
              e ← lift (KeyError base) (ESCALA_CROMATICA !! base);
              mret (inject_Z ((o + 1) * 12 + e) + delta)%Q)
      else None
  | Some g => Some (_ ← unpack3 g; raise (ValueError (py "too many values to unpack")))
  end.

Definition standard_step (note : pystr) : option (M Q) :=
  match fullmatch [cap [one cls_letter; opt cls_acc]; cap [one is_digit]] note with
  | None => None
  | Some [base; octave] =>
      let base := capitalize base in
      if dict_in base ESCALA_CROMATICA then
        Some (o ← int octave;
              e ← lift (KeyError base) (ESCALA_CROMATICA !! base);
              mret (inject_Z ((o + 1) * 12 + e)))
      else None
  | Some g => Some (_ ← unpack2 g; raise (ValueError (py "too many values to unpack")))
  end.

Definition or_else {A} (o : option A) (d : A) : A :=
  match o with Some a => a | None => d end.

(** The body of [note_to_midi]; [fuel] bounds the depth of the recursive
    call made for a cents suffix, and running out of it is Python's
    RecursionError. *)
Fixpoint note_to_midi_fuel (fuel : nat) (note : pystr) : M Q :=
  match fuel with
  | O => raise RecursionError
  | S fuel' =>
      if bool_decide (note = []) then mret 60%Q else
      let note := replace SUSTENIDO_MUSICAL (py "#") note in
      '(base_note, cents_value) ← extract_cents note;
      if negb (cents_value =? 0)%Z then
        v ← note_to_midi_fuel fuel' base_note;
        mret (v + inject_Z cents_value / 100)%Q
      else
        or_else (arrow_step QUARTO_TOM_ACIMA (- (1 # 2)) note) (
        or_else (arrow_step QUARTO_TOM_ABAIXO (1 # 2) note) (
        or_else (quarter_step note) (
        or_else (standard_step note) (
          emit (LogWarning (py "Formato de nota não reconhecido: " ++ note));;
          mret 60%Q))))
  end.

Definition recursion_limit : nat := 1000.

Definition note_to_midi (note : pystr) : M Q :=
  note_to_midi_fuel recursion_limit note.

End with_unicode.
End Microtonal.

(** * [utils/serialize_utils.py]: a third [note_to_midi] *)

Module SerializeUtils.
Section with_unicode.
Context {U : Unicode}.
Import Re.

Definition ESCALA_CROMATICA : gmap pystr Z :=
  list_to_map
    [ (py "C", 0); (py "C#", 1); (py "Db", 1);
      (py "D", 2); (py "D#", 3); (py "Eb", 3);
      (py "E", 4);
      (py "F", 5); (py "F#", 6); (py "Gb", 6);
      (py "G", 7); (py "G#", 8); (py "Ab", 8);
      (py "A", 9); (py "A#", 10); (py "Bb", 10);
      (py "B", 11) ]%Z.

(** [(int(octave) + 1) * 12 + ESCALA_CROMATICA[base] + delta], when the
    capitalised [base] is a key of the table *)
Definition chromatic (base octave : pystr) (delta : Q) : option (M Q) :=
  let base := capitalize base in
  if dict_in base ESCALA_CROMATICA then
    Some (o ← int octave;
          e ← lift (KeyError base) (ESCALA_CROMATICA !! base);
          mret (inject_Z ((o + 1) * 12 + e) + delta)%Q)
  else None.

Definition arrow_step (arrow : char) (delta : Q) (note : pystr) : option (M Q) :=
  match fullmatch [cap [one cls_letter; opt cls_acc]; raw [lit arrow]; cap [one is_digit]] note with
  | None => None
  | Some [base; octave] => chromatic base octave delta
  | Some g => Some (_ ← unpack2 g; raise (ValueError (py "too many values to unpack")))
  end.

Definition quarter_step (note : pystr) : option (M Q) :=
  match fullmatch [cap [one cls_letter; opt cls_acc]; cap [one cls_sign]; cap [one is_digit]] note with
  | None => None
  | Some [base; sign; octave] =>
      chromatic base octave (if eqb sign (py "+") then (1 # 2)%Q else (- (1 # 2))%Q)
  | Some g => Some (_ ← unpack3 g; raise (ValueError (py "too many values to unpack")))
  end.

Definition standard_step (note : pystr) : option (M Q) :=
  match fullmatch [cap [one cls_letter; opt cls_acc]; cap [one is_digit]] note with
  | None => None
  | Some [base; octave] => chromatic base octave 0
  | Some g => Some (_ ← unpack2 g; raise (ValueError (py "too many values to unpack")))
  end.

(** The body of [note_to_midi]: here the [↑] step adds 0.5 and the [↓] step
    subtracts it. *)
Fixpoint note_to_midi_fuel (fuel : nat) (note : pystr) : M Q :=
  match fuel with
  | O => raise RecursionError
  | S fuel' =>
      if bool_decide (note = []) then mret 60%Q else
      let note := strip note in
      match fullmatch [cap [one cls_letter; opt cls_acc; plus is_digit];
                       cap [one cls_sign; rep is_digit 1 2]; raw [lit LOWER_C]] note with
      | Some g =>
          '(base, cents) ← unpack2 g;
          v ← note_to_midi_fuel fuel' base;
          c ← int cents;
          mret (v + inject_Z c / 100)%Q
      | None =>
          Microtonal.or_else (arrow_step QUARTO_TOM_ACIMA (1 # 2) note) (
          Microtonal.or_else (arrow_step QUARTO_TOM_ABAIXO (- (1 # 2)) note) (
          Microtonal.or_else (quarter_step note) (
          Microtonal.or_else (standard_step note) (
            emit (LogWarning (py "Formato de nota não reconhecido: " ++ note));;
            mret 60%Q))))
      end
  end.

Definition note_to_midi (note : pystr) : M Q :=
  note_to_midi_fuel Microtonal.recursion_limit note.

End with_unicode.
End SerializeUtils.

(** ** utils/notes.py *)

Module Notes.
Section with_unicode.
Context {U : Unicode}.
Import Re.

(** Semitone index inside the octave; quarter-tone codes are at +-0.5. *)
Definition NOTE_BASE_MIDI : gmap pystr Q :=
  list_to_map
    [ (py "C", 0); (py "C#", 1); (py "Db", 1);
      (py "D", 2); (py "D#", 3); (py "Eb", 3);
      (py "E", 4); (py "E#", 5);
      (py "F", 5); (py "F#", 6); (py "Gb", 6);
      (py "G", 7); (py "G#", 8); (py "Ab", 8);
      (py "A", 9); (py "A#", 10); (py "Bb", 10);
      (py "B", 11); (py "B#", 0);
      (py "C-", 0.5); (py "C+", -0.5);
      (py "C#-", 1.5); (py "C#+", 0.5);
      (py "D-", 2.5); (py "D+", 1.5);
      (py "D#-", 3.5); (py "D#+", 2.5);
      (py "E-", 4.5); (py "E+", 3.5);
      (py "F-", 5.5); (py "F+", 4.5);
      (py "F#-", 6.5); (py "F#+", 5.5);
      (py "G-", 7.5); (py "G+", 6.5);
      (py "G#-", 8.5); (py "G#+", 7.5);
      (py "A-", 9.5); (py "A+", 8.5);
      (py "A#-", 10.5); (py "A#+", 9.5);
      (py "B-", 11.5); (py "B+", 10.5);
      (py "Cb", 11); (py "Cb-", 11.5); (py "Cb+", 10.5);
      (py "Fb", 4); (py "Fb-", 4.5); (py "Fb+", 3.5);
      (py "E#-", 5.5); (py "B#-", 0.5);
      (py "E#+", 4.5); (py "B#+", -0.5) ]%Q.

Definition _RE_STANDARD : re :=
  [cap [one cls_letter; opt cls_acc]; cap [one is_digit]].
Definition _RE_QUARTER : re :=
  [cap [one cls_letter; opt cls_acc]; cap [one cls_sign]; cap [one is_digit]].
Definition _RE_ARROW : re :=
  [cap [one cls_letter; opt cls_acc]; cap [one cls_arrow]; cap [one is_digit]].
Definition _RE_CENTS : re :=
  [cap [one cls_letter; opt cls_acc; one is_digit];
   cap [one cls_sign; rep is_digit 1 2]; raw [lit LOWER_C]].

(** the [flats] dictionary of [to_sharp], in insertion order *)
Definition flats : list (pystr * pystr) :=
  [ (py "Cb", py "B"); (py "Db", py "C#"); (py "Eb", py "D#");
    (py "Fb", py "E"); (py "Gb", py "F#"); (py "Ab", py "G#");
    (py "Bb", py "A#") ].

(** [for fl, sh in flats.items(): if note.startswith(fl): ...; break] *)
Fixpoint rewrite_flat (items : list (pystr * pystr)) (note : pystr) : pystr :=
  match items with
  | [] => note
  | (fl, sh) :: items' =>
      if startswith fl note then replace_prefix fl sh note
      else rewrite_flat items' note
  end.

Definition to_sharp (note : pystr) : M pystr :=
  match match_dollar _RE_ARROW note with
  | Some g =>
      '(name, arrow, octave) ← unpack3 g;
      let sign := if eqb arrow [QUARTO_TOM_ACIMA] then py "+" else py "-" in
      mret (name ++ sign ++ octave)
  | None => mret (rewrite_flat flats note)
  end.

Definition normalize_note_string (note : pystr) : M pystr :=
  let note := NFKC (strip (replace SPACE [] note)) in
  let note := replace SUSTENIDO_MUSICAL (py "#") (replace BEMOL_MUSICAL (py "b") note) in
  let note := replace QUARTO_TOM_ABAIXO (py "-") (replace QUARTO_TOM_ACIMA (py "+") note) in
  note ← to_sharp note;
  mret (match note with
        | c :: ((_ :: _) as rest) => upper c ++ rest
        | _ => note
        end).

Definition _note_base_to_semitone (base : pystr) : M Q :=
  match NOTE_BASE_MIDI !! base with
  | None => raise (ValueError (py "Nota base desconhecida: " ++ base))
  | Some v => mret v
  end.

Definition is_valid_note (note : pystr) : bool :=
  matches (match_dollar _RE_STANDARD note)
  || matches (match_dollar _RE_QUARTER note)
  || matches (match_dollar _RE_ARROW note)
  || matches (match_dollar _RE_CENTS note).

Definition extract_cents (note : pystr) : M (pystr * Z) :=
  match match_dollar _RE_CENTS note with
  | None => mret (note, 0%Z)
  | Some g =>
      '(base, cents) ← unpack2 g;
      c ← int cents;
      mret (base, c)
  end.

Definition note_to_midi (note : pystr) : M Q :=
  note ← normalize_note_string note;
  '(note, cents) ← extract_cents note;
  note ← to_sharp note;
  '(semitone, octave) ←
    match match_dollar _RE_STANDARD note, match_dollar _RE_QUARTER note with
    | Some m, _ =>
        '(base, octave) ← unpack2 m;
        semitone ← _note_base_to_semitone base;
        mret (semitone, octave)
    | None, Some mq =>
        '(base, sign, octave) ← unpack3 mq;
        semitone ← _note_base_to_semitone (base ++ sign);
        mret (semitone, octave)
    | None, None => raise (ValueError (py "Formato de nota inválido: " ++ note))
    end;
  o ← int octave;
  mret (semitone + inject_Z ((o + 1) * 12) + inject_Z cents / 100)%Q.
End with_unicode.
End Notes.

(** ** psychoacoustic_corrections.py *)

Module PsychoacousticCorrections.
Local Open Scope R_scope.

Definition BARK_SCALE_FACTOR : R := 13.
Definition BARK_SCALE_FREQ1 : R := 0.00076.
Definition BARK_SCALE_FREQ2 : R := 7500.

(** [microtonal.midi_to_hz]: the value of the formula, a real number *)
Definition midi_to_hz (midi_pitch : R) : R :=
  440 * Rpower 2 ((midi_pitch - 69) / 12).

(** the least pitch at which [2 ** ((midi_pitch - 69) / 12)] leaves the
    double range: the exponent is 1024 *)
Definition MIDI_OVERFLOW : R := 12357.

(** [str] of the OverflowError of a float power *)
Definition result_out_of_range : pystr := py "(34, 'Numerical result out of range')".

(** [microtonal.midi_to_hz] called on a Python float, as the list
    comprehensions below call it: the power raises OverflowError when its
    value leaves the double range *)
Definition midi_to_hz_float (midi_pitch : R) : result R :=
  if Rle_dec MIDI_OVERFLOW midi_pitch
  then Raise (OverflowError result_out_of_range)
  else Ok (midi_to_hz midi_pitch).

(** [frequency_to_bark] called on an element of a numpy array, as
    [critical_band_masking] calls it: a square that leaves the double range
    is an infinity there (a warning, no exception) and its arctangent
    [pi / 2], the value of the formula up to rounding *)
Definition frequency_to_bark (freq : R) : R :=
  if Rle_dec freq 0 then 0
  else BARK_SCALE_FACTOR * atan (BARK_SCALE_FREQ1 * freq)
       + 3.5 * atan ((freq / BARK_SCALE_FREQ2) ^ 2).

(** the least frequency whose quotient by 7500 has a square outside the
    double range *)
Definition BARK_OVERFLOW : R := 7500 * 2 ^ 512.

(** [frequency_to_bark] called on a Python float: there the square raises
    OverflowError *)
Definition frequency_to_bark_float (freq : R) : result R :=
  if Rle_dec freq 0 then Ok 0
  else if Rle_dec BARK_OVERFLOW freq
       then Raise (OverflowError result_out_of_range)
       else Ok (frequency_to_bark freq).

(** the body of the inner loop of [critical_band_masking] *)
Definition masking_step (barks amps : list R) (masking_slope : R)
    (i j : nat) (masked_amps : list R) : result (list R) :=
  if bool_decide (i <> j) then
    bi ← index barks i;
    bj ← index barks j;
    let bark_dist := Rabs (bi - bj) in
    if Rlt_dec bark_dist 1 then
      aj ← index amps j;
      ai ← index amps i;
      if Rgt_dec aj ai then
        let masking_factor := (1 - bark_dist) * masking_slope in
        mi ← index masked_amps i;
        Ok (<[i := mi * (1 - masking_factor)]> masked_amps)
      else Ok masked_amps
    else Ok masked_amps
  else Ok masked_amps.

Definition critical_band_masking (pitches amplitudes : list R)
    (masking_slope : R) : result (list R) :=
  if bool_decide (length pitches = 0%nat) || bool_decide (length amplitudes = 0%nat)
  then Ok []
  else
    freqs ← comprehension midi_to_hz_float pitches;
    let amps := amplitudes in
    let barks := frequency_to_bark <$> freqs in
    for_each (range 0 (length freqs)) amps (fun i masked_amps =>
      for_each (range 0 (length freqs)) masked_amps (fun j masked_amps =>
        masking_step barks amps masking_slope i j masked_amps)).

Definition default_masking_slope : R := 0.25.

(** the contribution of one pair to [calculate_roughness] *)
Definition roughness_step (freqs amps : list R) (i j : nat)
    (roughness_total : R) : result R :=
  fi ← index freqs i;
  fj ← index freqs j;
  let freq_diff := Rabs (fi - fj) in
  let freq_mean := (fi + fj) / 2 in
  if Req_dec_T freq_mean 0 then Ok roughness_total
  else
    let relative_diff := freq_diff / freq_mean * 100 in
    if Rlt_dec relative_diff 30 then
      let x := relative_diff / 6.5 in
      let roughness_contribution :=
        if Rlt_dec x 1 then x * exp (1 - x) else exp (- (x - 1) * 0.5) in
      ai ← index amps i;
      aj ← index amps j;
      let weight := Rmin ai aj in
      Ok (roughness_total + roughness_contribution * weight)
    else Ok roughness_total.

Definition calculate_roughness (pitches amplitudes : list R) : result R :=
  if bool_decide (length pitches < 2)%nat then Ok 0
  else
    freqs ← comprehension midi_to_hz_float pitches;
    let amps := amplitudes in
    for_each (range 0 (length freqs)) 0 (fun i roughness_total =>
      for_each (range (i + 1) (length freqs)) roughness_total (fun j roughness_total =>
        roughness_step freqs amps i j roughness_total)).

Definition equal_loudness_correction (frequency : R) : R :=
  if Rle_dec frequency 0 then 1
  else
    let correction :=
      if Rlt_dec frequency 200 then 1 + (200 - frequency) / 200 * 0.5
      else if Rlt_dec frequency 1000 then 1 + (1000 - frequency) / 800 * 0.2
      else if Rgt_dec frequency 4000 then
        let correction := 1 + (frequency - 4000) / 4000 * 0.3 in
        if Rgt_dec frequency 10000
        then correction * ((20000 - frequency) / 10000)
        else correction
      else 1 in
    Rmax 0.1 correction.

Definition apply_loudness_correction (pitches amplitudes : list R) :
    result (list R) :=
  if bool_decide (length pitches = 0%nat) then Ok []
  else
    freqs ← comprehension midi_to_hz_float pitches;
    let corrections := equal_loudness_correction <$> freqs in
    Ok ((fun '(a, c) => a * c) <$> zip amplitudes corrections).

End PsychoacousticCorrections.

(** ** densidade_intervalar.py *)

Module DensidadeIntervalar.
Section with_unicode.
Context {U : Unicode}.
Local Open Scope R_scope.

Definition DEFAULT_LAMBDA : R := 0.05.

(** [carregar_parametros_calibrados()]: the ['lambda'] entry of the
    parameter file, [None] when the file or the entry is missing. *)
Definition carregar_parametros_calibrados (stored : option R) : R :=
  match stored with Some l => l | None => DEFAULT_LAMBDA end.

Definition decaimento_exponencial_modificado (stored : option R)
    (delta : R) (lamb : option R) : R :=
  let lamb := match lamb with
              | None => carregar_parametros_calibrados stored
              | Some l => l
              end in
  if Req_dec_T delta 0 then 1
  else exp (- lamb * delta).

Definition calcular_peso_perceptual_microtonal (midi1 midi2 delta_semitons : R) : R :=
  let peso := 1 in
  let registro_medio := (midi1 + midi2) / 2 in
  let peso :=
    if Rgt_dec registro_medio 84 then peso * 1.3
    else if Rgt_dec registro_medio 72 then peso * 1.1
    else if Rlt_dec registro_medio 48 then peso * 0.8
    else peso in
  if Rle_dec delta_semitons 1 then peso * 1.5
  else if Rle_dec delta_semitons 2 then peso * 1.3
  else if Rle_dec delta_semitons 4 then peso * 1.1
  else if Rge_dec delta_semitons 12 then peso * 0.9
  else peso.

(** Python's [max(a, b)] *)
Definition py_max (a b : Q) : Q := if Qlt_le_dec a b then b else a.

(** [delta_semitons] as the pair loop of [calcular_densidade_intervalar]
    passes it on: the distance of the two pitches, after the
    minimum-interval rule. *)
Definition delta_semitons_used (notas : list pystr) (pitches : list Q)
    (i j : nat) : result Q :=
  pi ← index pitches i;
  pj ← index pitches j;
  let delta_semitons := Qabs (pi - pj) in
  ni ← index notas i;
  nj ← index notas j;
  if Qlt_le_dec delta_semitons 0.01 then
    if negb (eqb ni nj) then Ok (py_max delta_semitons 0.25)
    else Ok delta_semitons
  else Ok delta_semitons.

Definition calcular_densidade_intervalar (stored : option R)
    (notas : list pystr) (lamb : option R)
    (usar_ponderacao_perceptual : bool) : result R :=
  let lamb := match lamb with
              | None => carregar_parametros_calibrados stored
              | Some l => l
              end in
  pitches ← comprehension (fun nota => fst (Microtonal.note_to_midi nota))
              (List.filter (fun nota => negb (eqb nota [])) notas);
  let n := length pitches in
  for_each (range 0 n) 0 (fun i densidade_total =>
    for_each (range (i + 1) n) densidade_total (fun j densidade_total =>
      delta_semitons ← delta_semitons_used notas pitches i j;
      let delta := (delta_semitons * 2)%Q in
      let densidade_base :=
        decaimento_exponencial_modificado stored (Q2R delta) (Some lamb) in
      pi ← index pitches i;
      pj ← index pitches j;
      let densidade_intervalo :=
        if usar_ponderacao_perceptual
        then densidade_base
             * calcular_peso_perceptual_microtonal (Q2R pi) (Q2R pj) (Q2R delta_semitons)
        else densidade_base in
      Ok (densidade_total + densidade_intervalo))).
End with_unicode.
End DensidadeIntervalar.

(** ** densidade_intervalar.py on binary64 values

    The decay and the weight again, this time on the floats the interpreter
    computes with (IEEE 754 binary64, the kernel's primitive floats): every
    product is rounded as the program rounds it. *)

Module DensidadeIntervalarFloat.
Import Floats.
#[local] Set Warnings "-inexact-float".
Local Open Scope float_scope.

(** [math_exp] is [math.exp], the exponential of the C library, which
    returns a float or raises OverflowError; nothing else is assumed of
    it.  [lamb] is given. *)
Definition decaimento_exponencial_modificado
    (math_exp : float -> result float) (delta lamb : float) : result float :=
  if delta =? 0 then Ok 1 else math_exp (- lamb * delta).

Definition calcular_peso_perceptual_microtonal
    (midi1 midi2 delta_semitons : float) : float :=
  let peso := 1 in
  let registro_medio := (midi1 + midi2) / 2 in
  let peso :=
    if 84 <? registro_medio then peso * 1.3
    else if 72 <? registro_medio then peso * 1.1
    else if registro_medio <? 48 then peso * 0.8
    else peso in
  if delta_semitons <=? 1 then peso * 1.5
  else if delta_semitons <=? 2 then peso * 1.3
  else if delta_semitons <=? 4 then peso * 1.1
  else if 12 <=? delta_semitons then peso * 0.9
  else peso.

End DensidadeIntervalarFloat.

(** ** calibration.py *)

Module Calibration.
Local Open Scope R_scope.

(** the older copy of the decay function: a unison contributes nothing *)
Definition decaimento_exponencial_modificado (stored : option R)
    (delta : R) (lamb : option R) : R :=
  let lamb := match lamb with
              | None => DensidadeIntervalar.carregar_parametros_calibrados stored
              | Some l => l
              end in
  if Req_dec_T delta 0 then 0
  else exp (- lamb * delta).
End Calibration.

(** ** data_processor.py *)

Module DataProcessor.
Section with_unicode.
Context {U : Unicode}.
Import DensidadeIntervalar PsychoacousticCorrections.
Local Open Scope R_scope.

(** [try: midi_value = note_to_midi(nota) ... except Exception: log] of the
    two functions below: the pitch, or [None] when the call raised. *)
Definition try_note_to_midi (nota : pystr) : option Q :=
  match fst (Microtonal.note_to_midi nota) with
  | Ok v => Some v
  | Raise _ => None
  end.

(** the note filter of [calcular_densidade_intervalar_com_cents] *)
Fixpoint valid_com_cents (notas : list pystr) : list Q * list pystr :=
  match notas with
  | [] => ([], [])
  | nota :: rest =>
      let '(valid_pitches, valid_notas) := valid_com_cents rest in
      if eqb nota [] then (valid_pitches, valid_notas)
      else match try_note_to_midi nota with
           | Some midi_value =>
               if negb (Qeq_bool midi_value 60)
               then (midi_value :: valid_pitches, nota :: valid_notas)
               else if startswith (py "C4") (List.flat_map upper nota)
                    then (midi_value :: valid_pitches, nota :: valid_notas)
                    else (valid_pitches, valid_notas)
           | None => (valid_pitches, valid_notas)
           end
  end.

Definition calcular_densidade_intervalar_com_cents (stored : option R)
    (notas : list pystr) (lamb : R) : result R :=
  if bool_decide (length notas < 2)%nat then Ok 0
  else
    let '(valid_pitches, valid_notas) := valid_com_cents notas in
    if bool_decide (length valid_pitches < 2)%nat then Ok 0
    else
      let n := length valid_pitches in
      for_each (range 0 n) 0 (fun i densidade_total =>
        for_each (range (i + 1) n) densidade_total (fun j densidade_total =>
          pi ← index valid_pitches i;
          pj ← index valid_pitches j;
          let delta_semitons := Qabs (pi - pj) in
          delta_semitons ←
            (if Qlt_le_dec delta_semitons 0.01 then
               ni ← index valid_notas i;
               nj ← index valid_notas j;
               if negb (eqb ni nj) then Ok 0.25%Q else Ok delta_semitons
             else Ok delta_semitons);
          let delta := (delta_semitons * 2)%Q in
          let densidade_parcial :=
            decaimento_exponencial_modificado stored (Q2R delta) (Some lamb) in
          Ok (densidade_total + densidade_parcial))).

(** the note filter of [calcular_densidade_intervalar_psicoaustica] *)
Fixpoint valid_psicoaustica (notas : list pystr) : list Q * list pystr :=
  match notas with
  | [] => ([], [])
  | nota :: rest =>
      let '(valid_pitches, valid_notas) := valid_psicoaustica rest in
      if eqb nota [] then (valid_pitches, valid_notas)
      else match try_note_to_midi nota with
           | Some midi_value => (midi_value :: valid_pitches, nota :: valid_notas)
           | None => (valid_pitches, valid_notas)
           end
  end.

(** [delta_semitons] as the pair loop of
    [calcular_densidade_intervalar_psicoaustica] passes it on *)
Definition delta_semitons_psicoaustica (valid_pitches : list Q) (i j : nat) : result Q :=
  pi ← index valid_pitches i;
  pj ← index valid_pitches j;
  Ok (Qabs (pi - pj)).

Definition calcular_densidade_intervalar_psicoaustica (stored : option R)
    (notas : list pystr) (lamb : R)
    (use_psychoacoustic use_perceptual_weighting : bool) : result R :=
  if bool_decide (length notas < 2)%nat then Ok 0
  else
    let '(valid_pitches, valid_notas) := valid_psicoaustica notas in
    if bool_decide (length valid_pitches < 2)%nat then Ok 0
    else
      let pitches := Q2R <$> valid_pitches in
      let base_amplitudes := (fun _ => 1) <$> valid_pitches in
      '(corrected_amplitudes, roughness) ←
        (if use_psychoacoustic then
           masked_amplitudes ← critical_band_masking pitches base_amplitudes
                                 default_masking_slope;
           corrected_amplitudes ←
             apply_loudness_correction pitches masked_amplitudes;
           roughness ← calculate_roughness pitches corrected_amplitudes;
           Ok (corrected_amplitudes, roughness)
         else Ok (base_amplitudes, 0));
      let n := length valid_pitches in
      densidade_total ←
        for_each (range 0 n) 0 (fun i densidade_total =>
          for_each (range (i + 1) n) densidade_total (fun j densidade_total =>
            delta_semitons ← delta_semitons_psicoaustica valid_pitches i j;
            let delta := (delta_semitons * 2)%Q in
            let densidade_parcial :=
              decaimento_exponencial_modificado stored (Q2R delta) (Some lamb) in
            pi ← index pitches i;
            pj ← index pitches j;
            let densidade_parcial :=
              if use_perceptual_weighting
              then densidade_parcial
                   * calcular_peso_perceptual_microtonal pi pj (Q2R delta_semitons)
              else densidade_parcial in
            densidade_parcial ←
              (if use_psychoacoustic then
                 ci ← index corrected_amplitudes i;
                 cj ← index corrected_amplitudes j;
                 let weight := (ci + cj) / 2 in
                 Ok (densidade_parcial * weight)
               else Ok densidade_parcial);
            Ok (densidade_total + densidade_parcial)));
      if use_psychoacoustic then
        if Rgt_dec roughness 0 then Ok (densidade_total + roughness * 0.8)
        else Ok densidade_total
      else Ok densidade_total.
End with_unicode.
End DataProcessor.

(** ** spectral_analysis.py *)

Module SpectralAnalysis.
Local Open Scope Q_scope.

(** a Python float: finite, infinite or NaN.  A finite float stands for
    its value, a rational; the rounding of a finite result is left out,
    while a result outside the double range is an infinity, as in
    binary64. *)
Inductive pyfloat :=
| Fin (q : Q)
| PosInf
| NegInf
| NaN.

Definition isnan (x : pyfloat) : bool :=
  match x with NaN => true | _ => false end.
Definition isinf (x : pyfloat) : bool :=
  match x with PosInf | NegInf => true | _ => false end.

(** largest finite double, [(2 - 2^-52) * 2^1023] *)
Definition DBL_MAX : Q := inject_Z (2 ^ 1024 - 2 ^ 971).

(** the least magnitude that binary64 rounds to an infinity,
    [2^1024 - 2^970] *)
Definition OVERFLOW : Q := inject_Z (2 ^ 1024 - 2 ^ 970).

(** the float of a result whose exact value is [q] *)
Definition to_float (q : Q) : pyfloat :=
  if Qle_bool OVERFLOW q then PosInf
  else if Qle_bool q (- OVERFLOW) then NegInf
  else Fin q.

(** [x + y] of numpy scalars: an overflow gives an infinity (and a
    warning), never an exception *)
Definition fadd (x y : pyfloat) : pyfloat :=
  match x, y with
  | NaN, _ | _, NaN => NaN
  | PosInf, NegInf | NegInf, PosInf => NaN
  | PosInf, _ | _, PosInf => PosInf
  | NegInf, _ | _, NegInf => NegInf
  | Fin a, Fin b => to_float (a + b)
  end.

Definition fopp (x : pyfloat) : pyfloat :=
  match x with
  | Fin a => Fin (- a)
  | PosInf => NegInf
  | NegInf => PosInf
  | NaN => NaN
  end.

(** [x - y] *)
Definition fsub (x y : pyfloat) : pyfloat := fadd x (fopp y).

(** [x / y] of numpy scalars: a division by zero gives an infinity or NaN
    (and a warning).  The sign of a zero is not kept. *)
Definition fdiv (x y : pyfloat) : pyfloat :=
  match x, y with
  | NaN, _ | _, NaN => NaN
  | (PosInf | NegInf), (PosInf | NegInf) => NaN
  | PosInf, Fin b => if Qlt_le_dec b 0 then NegInf else PosInf
  | NegInf, Fin b => if Qlt_le_dec b 0 then PosInf else NegInf
  | Fin _, (PosInf | NegInf) => Fin 0
  | Fin a, Fin b =>
      if Qeq_bool b 0 then
        if Qeq_bool a 0 then NaN
        else if Qlt_le_dec 0 a then PosInf else NegInf
      else to_float (a / b)
  end.

(** [x > 0] *)
Definition positive (x : pyfloat) : bool :=
  match x with
  | Fin a => if Qlt_le_dec 0 a then true else false
  | PosInf => true
  | NegInf | NaN => false
  end.

(** [np.nan_to_num]: NaN becomes 0, the infinities the largest finite
    values; the result is a finite float *)
Definition nan_to_num (x : pyfloat) : Q :=
  match x with
  | Fin q => q
  | PosInf => DBL_MAX
  | NegInf => - DBL_MAX
  | NaN => 0
  end.

Definition _safe_array (a : list pyfloat) : list Q := nan_to_num <$> a.

(** [round(x)] of a finite float: to the nearest integer, ties to even *)
Definition round (q : Q) : Z :=
  let f := Qfloor q in
  let r := q - inject_Z f in
  match Qcompare r (1 # 2) with
  | Lt => f
  | Gt => (f + 1)%Z
  | Eq => if Z.even f then f else (f + 1)%Z
  end.

(** the exact sum of rationals *)
Definition sum (l : list Q) : Q := foldl Qplus 0 l.

(** *** [a.sum()] of a float array

    numpy adds the entries in a fixed order: fewer than 8 one after the
    other; up to 128 in eight running sums (entry [i] goes to sum
    [i mod 8], for the whole groups of eight), which are then combined in
    pairs, and the entries left over are added one after the other; a
    longer array is cut in two at a multiple of 8 near the middle. *)

Fixpoint running_sums (groups : nat) (r a : list pyfloat) : list pyfloat :=
  match groups with
  | O => r
  | S groups' =>
      running_sums groups' (zip_with fadd r (take 8 a)) (drop 8 a)
  end.

Definition combine8 (r : list pyfloat) : pyfloat :=
  match r with
  | [r0; r1; r2; r3; r4; r5; r6; r7] =>
      fadd (fadd (fadd r0 r1) (fadd r2 r3)) (fadd (fadd r4 r5) (fadd r6 r7))
  | _ => NaN
  end.

(** an array of 8 to 128 entries *)
Definition block_sum (a : list pyfloat) : pyfloat :=
  let n := length a in
  let r := running_sums (n / 8 - 1) (take 8 a) (drop 8 a) in
  foldl fadd (combine8 r) (drop (8 * (n / 8)) a).

(** [fuel] bounds the depth of the cuts; the length of the array is
    enough *)
Fixpoint pairwise_sum (fuel : nat) (a : list pyfloat) : pyfloat :=
  let n := length a in
  if (n <? 8)%nat then foldl fadd (Fin 0) a
  else if (n <=? 128)%nat then block_sum a
  else
    match fuel with
    | O => NaN
    | S fuel' =>
        let n2 := (n / 2 - (n / 2) mod 8)%nat in
        fadd (pairwise_sum fuel' (take n2 a)) (pairwise_sum fuel' (drop n2 a))
    end.

Definition np_sum (a : list pyfloat) : pyfloat := pairwise_sum (length a) a.

(** the body of the loop: [if not np.isnan(p) and not np.isinf(p):
    chroma[int(round(p)) % 12] += a] *)
Definition accumulate (chroma : list pyfloat) (p a : Q) : list pyfloat :=
  if negb (isnan (Fin p)) && negb (isinf (Fin p))
  then alter (fun c => fadd c (Fin a)) (Z.to_nat (round p mod 12)) chroma
  else chroma.

Definition calculate_chroma_vector (pitches : list pyfloat)
    (amplitudes : option (list pyfloat)) : list pyfloat :=
  let pitches := _safe_array pitches in
  let amps := match amplitudes with
              | Some a => _safe_array a
              | None => (fun _ => 1) <$> pitches
              end in
  let chroma := replicate 12 (Fin 0) in
  let chroma := foldl (fun chroma '(p, a) => accumulate chroma p a)
                      chroma (zip pitches amps) in
  let total := np_sum chroma in
  if positive total then (fun c => fdiv c total) <$> chroma else chroma.

(** the pitches and the amplitudes the loop reads: [zip] pairs them and
    drops what is left of the longer list *)
Definition paired (pitches : list pyfloat)
    (amplitudes : option (list pyfloat)) : list (Q * Q) :=
  zip (_safe_array pitches)
      (match amplitudes with
       | Some a => _safe_array a
       | None => (fun _ => 1) <$> _safe_array pitches
       end).

(** the energy the loop adds up: the amplitudes that are paired with a
    pitch by [zip] *)
Definition paired_amplitudes (pitches : list pyfloat)
    (amplitudes : option (list pyfloat)) : list Q :=
  snd <$> paired pitches amplitudes.
End SpectralAnalysis.

(** ** error_handler.py *)

Module ErrorHandler.

Definition code (e : exn) : pystr :=
  match e with
  | InputError _ => py "ERR_INPUT"
  | CalculationError _ => py "ERR_CALCULATION"
  | _ => []
  end.

(** [str(e)] *)
Definition message (e : exn) : pystr :=
  match e with
  | ValueError m | KeyError m | OverflowError m | InputError m
  | CalculationError m => m
  | IndexError => py "list index out of range"
  | RecursionError => py "maximum recursion depth exceeded"
  end.

(** the wrapper built by the decorator [handle_exceptions(show_dialog,
    fallback_value, rethrow)] around a call; the stack trace the second
    handler appends to its log record is left out *)
Definition handle_exceptions {A} (show_dialog : bool) (fallback_value : A)
    (rethrow : bool) (call : M A) : M A :=
  try_except call (fun e =>
    if is_DensidadeError e then
      emit (LogError (code e ++ py ": " ++ message e));;
      (if show_dialog then emit (ShowError (py "Erro") (message e)) else mret tt);;
      if rethrow then raise e else mret fallback_value
    else
      emit (LogError (py "Unexpected error: " ++ message e));;
      (if show_dialog then emit (ShowError (py "Erro inesperado") (message e)) else mret tt);;
      if rethrow then raise e else mret fallback_value).

End ErrorHandler.

(** ** data_processor.py: the entry point *)

Module Metricas.
Section pipeline.

(** [input_data]: a missing key is [None] *)
Record input_data := {
  notes : option (list pystr);
  dynamics : option (list pystr);
  instruments : option (list pystr);
  num_instruments : option (list Z);
  weight_factor : option Q;
  use_psychoacoustic : option bool;
  use_perceptual_weighting : option bool;
  use_stevens : option bool;
  alpha : option Q;
  beta : option Q
}.

(** [d.get(key, [])] *)
Definition get {A} (v : option (list A)) : list A :=
  match v with Some l => l | None => [] end.

(** truth value of a list *)
Definition truthy {A} (l : list A) : bool :=
  match l with [] => false | _ :: _ => true end.

(** Steps 2 to 12 of [calcular_metricas] (conversion to sharps, the
    densities, the instrument modules, the spectral and texture metrics,
    the aggregation), everything that follows the validation of the
    input: any computation over the validated lists. *)
Context {Resultados : Type}.
Variable stages :
  list pystr -> list pystr -> list pystr -> list Z -> input_data -> M Resultados.

Definition calcular_metricas_body (d : input_data) : M Resultados :=
  try_except
    (let notas := get (notes d) in
     let dinamicas := get (dynamics d) in
     let instrumentos := get (instruments d) in
     let numeros_instr := get (num_instruments d) in
     if negb (truthy notas && truthy dinamicas && truthy instrumentos
              && truthy numeros_instr)
     then raise (InputError
                   (py "Notas, dinâmicas, instrumentos e quantidades são obrigatórios."))
     else if negb (bool_decide (length notas = length dinamicas)
                   && bool_decide (length dinamicas = length instrumentos)
                   && bool_decide (length instrumentos = length numeros_instr))
     then raise (InputError (py "Listas de entrada devem ter o mesmo comprimento."))
     else stages notas dinamicas instrumentos numeros_instr d)
    (fun e =>
       emit (LogError (py "Erro ao calcular métricas: " ++ ErrorHandler.message e));;
       raise e).

(** [@handle_exceptions(show_dialog=False, rethrow=True)]; the fallback
    value is Python's [None] *)
Definition calcular_metricas (d : input_data) : M (option Resultados) :=
  ErrorHandler.handle_exceptions false None true
    (r ← calcular_metricas_body d; mret (Some r)).

End pipeline.
End Metricas.

(** ** microtonal.py: frequencies *)

Module MicrotonalFrequency.
Local Open Scope R_scope.

Definition A4_FREQ : R := 440.
Definition A4_MIDI : R := 69.

(** [math.log2] *)
Definition log2 (x : R) : R := ln x / ln 2.

Definition hz_to_midi (frequency : R) : R :=
  if Rle_dec frequency 0 then 0
  else A4_MIDI + 12 * log2 (frequency / A4_FREQ).

End MicrotonalFrequency.


(** ** densidade_intervalar.py: the normalised density *)

Module DensidadeIntervalarPsicoacustica.
Section with_unicode.
Context {U : Unicode}.
Import DensidadeIntervalar PsychoacousticCorrections.
Local Open Scope R_scope.

(** [config.USE_LOG_COMPRESSION] *)
Definition USE_LOG_COMPRESSION : bool := true.

(** [np.log10] *)
Definition log10 (x : R) : R := ln x / ln 10.

(** [np.sum] of a list *)
Definition np_sum (l : list R) : R := foldr Rplus 0 l.

(** [np.mean]: NaN (here [None]) for an empty array *)
Definition np_mean (l : list R) : option R :=
  match l with
  | [] => None
  | _ :: _ => Some (np_sum l / INR (length l))
  end.

(** The result is a float; [None] stands for NaN. *)
Definition calcular_densidade_intervalar_psicoaustica (stored : option R)
    (notas : list pystr) (use_psychoacoustic use_perceptual_weighting : bool)
    (lamb : option R) : result (option R) :=
  pesos ← calcular_densidade_intervalar stored notas lamb use_perceptual_weighting;
  let n := length notas in
  let dens_scalar :=
    if bool_decide (1 < n)%nat then 2 * pesos / (INR n * (INR n - 1)) else 0 in
  let dens_scalar :=
    if USE_LOG_COMPRESSION then log10 (1 + dens_scalar) else dens_scalar in
  if negb use_psychoacoustic then Ok (Some dens_scalar)
  else
    pitches ← comprehension (fun n => fst (Microtonal.note_to_midi n)) notas;
    let pitches := Q2R <$> pitches in
    let amps := (fun _ => 1) <$> pitches in
    amps_masked ← critical_band_masking pitches amps default_masking_slope;
    let masking_gain := np_mean amps_masked in
    rough_vec ← calculate_roughness pitches amps_masked;
    (* [np.sqrt(0)] is 0.0 and the quotient NaN; then [masking_gain] is NaN too *)
    let rough_gain := 1 + rough_vec / sqrt (INR n) in
    corrected ← apply_loudness_correction pitches amps_masked;
    let loud_gain := np_mean corrected in
    Ok (masking_gain ← masking_gain;
        loud_gain ← loud_gain;
        let dens_final := dens_scalar * masking_gain * rough_gain * loud_gain in
        Some (if USE_LOG_COMPRESSION then log10 (1 + dens_final) else dens_final)).

End with_unicode.
End DensidadeIntervalarPsicoacustica.

(** ** data_processor.py: weighted density and sound mass *)

Module DataProcessorMetrics.
Local Open Scope R_scope.

(** The [try] block returns the density; on any exception (a method that
    is neither of the two, a division by zero) the handler logs it and the
    function returns Python's [None].  The arguments are Python floats and
    the arithmetic is that of the real numbers: the model is that of the
    calls whose quotients and powers stay inside the double range, as they
    do when both densities lie between 0 and their maxima and the exponents
    are not negative. *)
Definition calcular_densidade_ponderada_normalizada (DI DV : R) (metodo : pystr)
    (w DI_max DV_max alpha beta : R) (use_stevens : bool) : option R :=
  '(DI_norm, DV_norm) ←
    (if eqb metodo (py "min-max") then
       if Req_dec_T DI_max 0 then None
       else if Req_dec_T DV_max 0 then None
       else Some (DI / DI_max, DV / DV_max)
     else if eqb metodo (py "z-score") then
       let DI_mean := 50 in let DI_std := 25 in
       let DV_mean := 5 in let DV_std := 2.5 in
       Some (if Rgt_dec DI_std 0 then (DI - DI_mean) / DI_std else 0,
             if Rgt_dec DV_std 0 then (DV - DV_mean) / DV_std else 0)
     else None);
  let DI_norm :=
    if use_stevens then
      if Rgt_dec DI_norm 0 then Rpower DI_norm alpha else DI_norm
    else DI_norm in
  let DV_norm :=
    if use_stevens then
      if Rgt_dec DV_norm 0 then Rpower DV_norm beta else DV_norm
    else DV_norm in
  Some (10 * (w * DI_norm + (1 - w) * DV_norm)).

Definition fatores_dinamica : gmap pystr Q :=
  list_to_map
    [ (py "pppp", 0.2); (py "ppp", 0.3); (py "pp", 0.4); (py "p", 0.6);
      (py "mf", 1.0);
      (py "f", 1.5); (py "ff", 2.0); (py "fff", 2.5); (py "ffff", 3.0) ]%Q.

(** [d.get(k, default)] *)
Definition dict_get {V} (d : gmap pystr V) (k : pystr) (default : V) : V :=
  match d !! k with Some v => v | None => default end.

Definition calcular_massa_sonora {A} (notas : list A) (dinamicas : list pystr)
    (numeros_instrumentos : list Z) (densidades_instrumento : list Q) : result Q :=
  for_each (range 0 (length notas)) 0%Q (fun i massa_total =>
    dinamica ← index dinamicas i;
    let fator := dict_get fatores_dinamica dinamica 1.0%Q in
    densidade ← index densidades_instrumento i;
    numero ← index numeros_instrumentos i;
    let massa_nota := (densidade * fator * inject_Z numero)%Q in
    Ok (massa_total + massa_nota)%Q).

End DataProcessorMetrics.

(** ** More built-ins *)

Module Builtins.

(** decimal digits of a natural number, most significant first *)
Fixpoint digits_fuel (fuel : nat) (n : N) (acc : pystr) : pystr :=
  let acc' := (48 + n mod 10)%N :: acc in
  match fuel with
  | O => acc'
  | S fuel' => if (n <? 10)%N then acc' else digits_fuel fuel' (n / 10) acc'
  end.

(** [str(z)] of an [int] *)
Definition str (z : Z) : pystr :=
  let n := Z.to_N (Z.abs z) in
  let ds := digits_fuel (N.to_nat (N.log2 n)) n [] in
  if (z <? 0)%Z then MINUS :: ds else ds.

(** [int(x)] of a float: truncation towards zero *)
Definition trunc (q : Q) : Z :=
  if Qlt_le_dec q 0 then Qceiling q else Qfloor q.

(** [re.match] of a pattern that is not closed by [$]: the atoms match a
    prefix of the text, greedily and with backtracking *)
Fixpoint match_atoms_prefix (p : list Re.atom) (s : pystr) : option (list pystr) :=
  match p with
  | [] => Some []
  | a :: p' =>
      Re.backtrack (Re.prefix_len (Re.cls a) (Re.bound a s) s) (Re.lo a)
        (fun k => match match_atoms_prefix p' (drop k s) with
                  | Some parts => Some (take k s :: parts)
                  | None => None
                  end)
  end.

Definition match_prefix (r : Re.re) (s : pystr) : option (list pystr) :=
  match match_atoms_prefix (List.flat_map Re.atoms r) s with
  | Some parts => Some (Re.groups r parts)
  | None => None
  end.

End Builtins.

(** ** microtonal.py: notations, positions and names *)

Module MicrotonalNotation.
Section with_unicode.
Context {U : Unicode}.
Import Re Builtins.

Definition normalizar_simbolos_nota (nota : pystr) : pystr :=
  if eqb nota [] then nota
  else
    let nota := replace SUSTENIDO_MUSICAL (py "#") nota in
    let nota := if contains QUARTO_TOM_ACIMA nota
                then replace QUARTO_TOM_ACIMA (py "-") nota else nota in
    let nota := if contains QUARTO_TOM_ABAIXO nota
                then replace QUARTO_TOM_ABAIXO (py "+") nota else nota in
    nota.

Definition NOTAS_CROMATICAS : list pystr :=
  [py "C"; py "C#"; py "D"; py "D#"; py "E"; py "F";
   py "F#"; py "G"; py "G#"; py "A"; py "A#"; py "B"].

(** the dictionary display of [ESCALA_MICROTONAL], in source order *)
Definition ESCALA_MICROTONAL_display : list (pystr * Z) :=
  [ (py "C", 1); (py "C#-", 2); (py "C#", 3); (py "C#+", 4);
    (py "D", 5); (py "D#-", 6); (py "D#", 7); (py "D#+", 8);
    (py "E", 9); (py "E#-", 10);
    (py "F", 11); (py "F#-", 12); (py "F#", 13); (py "F#+", 14);
    (py "G", 15); (py "G#-", 16); (py "G#", 17); (py "G#+", 18);
    (py "A", 19); (py "A#-", 20); (py "A#", 21); (py "A#+", 22);
    (py "B", 23); (py "B#-", 24);
    (py "Cb+", 24); (py "Db+", 2); (py "Db", 3); (py "Db-", 4);
    (py "Eb+", 6); (py "Eb", 7); (py "Eb-", 8);
    (py "Fb+", 10);
    (py "Gb+", 12); (py "Gb", 13); (py "Gb-", 14);
    (py "Ab+", 16); (py "Ab", 17); (py "Ab-", 18);
    (py "Bb+", 20); (py "Bb", 21); (py "Bb-", 22);
    (py "C+", 2); (py "D+", 6); (py "E+", 10); (py "F+", 12);
    (py "G+", 16); (py "A+", 20); (py "B+", 24);
    (py "C-", 24); (py "D-", 4); (py "E-", 8); (py "F-", 10);
    (py "G-", 14); (py "A-", 18); (py "B-", 22) ]%Z.

(** the loop that adds the keys written with an arrow:
    [for nota in list(ESCALA_MICROTONAL.keys()): ...] *)
Definition add_arrow_key (d : gmap pystr Z) (nota : pystr) : gmap pystr Z :=
  match d !! nota with
  | None => d
  | Some v =>
      if contains PLUS nota && (length nota <=? 3)%nat
      then <[replace PLUS [] nota ++ [QUARTO_TOM_ABAIXO] := v]> d
      else if contains MINUS nota && (length nota <=? 3)%nat
      then <[replace MINUS [] nota ++ [QUARTO_TOM_ACIMA] := v]> d
      else d
  end.

Definition ESCALA_MICROTONAL : gmap pystr Z :=
  foldl add_arrow_key (list_to_map ESCALA_MICROTONAL_display)
        (fst <$> ESCALA_MICROTONAL_display).

Definition TAMANHO_OITAVA_MICROTONAL : Z := 24.
Definition CENTS_POR_SEMITOM : Z := 100.

Definition NOTACAO_QUARTOS_TOM : gmap pystr pystr :=
  list_to_map
    [ (py "C↑", py "C-"); (py "C↓", py "C+");
      (py "D↑", py "D-"); (py "D↓", py "D+");
      (py "E↑", py "E-"); (py "E↓", py "E+");
      (py "F↑", py "F-"); (py "F↓", py "F+");
      (py "G↑", py "G-"); (py "G↓", py "G+");
      (py "A↑", py "A-"); (py "A↓", py "A+");
      (py "B↑", py "B-"); (py "B↓", py "B+");
      (py "C-", py "C↑"); (py "C+", py "C↓");
      (py "D-", py "D↑"); (py "D+", py "D↓");
      (py "E-", py "E↑"); (py "E+", py "E↓");
      (py "F-", py "F↑"); (py "F+", py "F↓");
      (py "G-", py "G↑"); (py "G+", py "G↓");
      (py "A-", py "A↑"); (py "A+", py "A↓");
      (py "B-", py "B↑"); (py "B+", py "B↓") ].

(** [isdigit] is [str.isdigit] on one character, which holds of more
    characters than [\d] matches. *)
Definition converter_notacao_microtonal (isdigit : char -> bool)
    (nota : pystr) : pystr :=
  if (length nota <? 2)%nat then nota
  else
    let '(nota_base, oitava) :=
      match last nota with
      | Some c => if isdigit c then (removelast nota, [c]) else (nota, [])
      | None => (nota, [])
      end in
    let nova_nota_base :=
      match NOTACAO_QUARTOS_TOM !! nota_base with
      | Some v => v
      | None => nota_base
      end in
    nova_nota_base ++ oitava.

(** [f"+{cents}" if cents > 0 else f"{cents}"] *)
Definition cents_str (cents : Z) : pystr :=
  if (0 <? cents)%Z then PLUS :: str cents else str cents.

Definition preprocess_nota (nota : pystr) : M pystr :=
  if eqb nota [] then mret nota
  else
    '(base_note, cents) ← Microtonal.extract_cents nota;
    let processed_note := base_note in
    let processed_note :=
      if contains QUARTO_TOM_ACIMA processed_note
      then replace QUARTO_TOM_ACIMA (py "-") processed_note else processed_note in
    let processed_note :=
      if contains QUARTO_TOM_ABAIXO processed_note
      then replace QUARTO_TOM_ABAIXO (py "+") processed_note else processed_note in
    if negb (cents =? 0)%Z
    then mret (processed_note ++ cents_str cents ++ py "c")
    else mret processed_note.

(** [r'([A-Ga-g][#♯b]?[-+]?)(\d+)'] *)
Definition padrao : re :=
  [cap [one cls_letter; opt cls_acc3; opt cls_sign]; cap [plus is_digit]].

Definition nota_para_posicao (nota : pystr) : M Q :=
  let nota := replace SUSTENIDO_MUSICAL (py "#") nota in
  '(base_note, cents) ← Microtonal.extract_cents nota;
  let cents_fraction := (inject_Z cents / inject_Z CENTS_POR_SEMITOM)%Q in
  base_note ← preprocess_nota base_note;
  match match_prefix padrao base_note with
  | None =>
      raise (ValueError (py "Nota '" ++ base_note
                         ++ py "' não corresponde ao padrão esperado."))
  | Some g =>
      '(nota_base, oitava_str) ← unpack2 g;
      let nota_base := List.flat_map upper nota_base in
      let nota_base := replace SUSTENIDO_MUSICAL (py "#") nota_base in
      oitava ← int oitava_str;
      nota_base ←
        (if dict_in nota_base ESCALA_MICROTONAL then mret nota_base
         else
           let nota_base_alt := replace SUSTENIDO_MUSICAL (py "#") nota_base in
           if dict_in nota_base_alt ESCALA_MICROTONAL then mret nota_base_alt
           else raise (ValueError (py "Nota '" ++ nota_base
                                   ++ py "' não está definida na escala microtonal.")));
      posicao_na_oitava ← lift (KeyError nota_base) (ESCALA_MICROTONAL !! nota_base);
      let posicao := (posicao_na_oitava + TAMANHO_OITAVA_MICROTONAL * oitava)%Z in
      mret (inject_Z posicao + cents_fraction * 2)%Q
  end.

(** [midi_to_note_name] on a finite number *)
Definition midi_to_note_name (midi_number : Q) (include_cents use_symbols : bool)
    : result pystr :=
  if Qlt_le_dec midi_number 0 then Ok (py "N/A")
  else if Qlt_le_dec 127 midi_number then Ok (py "N/A")
  else
    let midi_int := trunc midi_number in
    let midi_frac := (midi_number - inject_Z midi_int)%Q in
    let octave := (midi_int / 12 - 1)%Z in
    let note_index := (midi_int mod 12)%Z in
    note_base ← index NOTAS_CROMATICAS (Z.to_nat note_index);
    let basic_note := note_base ++ str octave in
    let cents := SpectralAnalysis.round (midi_frac * inject_Z CENTS_POR_SEMITOM) in
    let fractional := if Qlt_le_dec 0.001 (Qabs midi_frac) then true else false in
    if use_symbols && fractional && (15 <=? cents)%Z && (cents <=? 35)%Z
    then Ok (note_base ++ [QUARTO_TOM_ABAIXO] ++ str octave)
    else if use_symbols && fractional && (-35 <=? cents)%Z && (cents <=? -15)%Z
    then Ok (note_base ++ [QUARTO_TOM_ACIMA] ++ str octave)
    else if include_cents && fractional
    then if (0 <? cents)%Z
         then Ok (basic_note ++ py "+" ++ str cents ++ py "c")
         else Ok (basic_note ++ str cents ++ py "c")
    else Ok basic_note.

(** [midi_to_note_name] on a float: both comparisons of the first test are
    false of NaN, and [int] raises on it; an infinity is outside the range *)
Definition midi_to_note_name_float (midi_number : SpectralAnalysis.pyfloat)
    (include_cents use_symbols : bool) : result pystr :=
  match midi_number with
  | SpectralAnalysis.Fin q => midi_to_note_name q include_cents use_symbols
  | SpectralAnalysis.PosInf | SpectralAnalysis.NegInf => Ok (py "N/A")
  | SpectralAnalysis.NaN =>
      Raise (ValueError (py "cannot convert float NaN to integer"))
  end.

End with_unicode.
End MicrotonalNotation.

(** ** error_handler.py: validation of a dictionary *)

Module InputValidation.

(** the values [validate_input_data] tells apart; [A] is the type of the
    list elements and of every other value *)
Inductive pyvalue (A : Type) :=
| PyNone
| PyList (l : list A)
| PyStr (s : pystr)
| PyOther (a : A).
Arguments PyNone {A}.
Arguments PyList {A} l.
Arguments PyStr {A} s.
Arguments PyOther {A} a.

Section with_unicode.
Context {U : Unicode}.

(** [InputError(message, field)]: the message the exception carries *)
Definition InputError_init (message field : pystr) : exn :=
  InputError (if eqb field [] then message
              else message ++ py " (campo: " ++ field ++ py ")").

Fixpoint validate_input_data {A} (data : gmap pystr (pyvalue A))
    (required_fields : list pystr) : M unit :=
  match required_fields with
  | [] => mret tt
  | field :: rest =>
      match data !! field with
      | None =>
          raise (InputError_init (py "Campo obrigatório ausente: " ++ field) field)
      | Some value =>
          match value with
          | PyNone => raise (InputError_init (py "Valor não pode ser nulo") field)
          | PyList [] => raise (InputError_init (py "Lista não pode estar vazia") field)
          | PyStr s =>
              if eqb (strip s) []
              then raise (InputError_init (py "String não pode estar vazia") field)
              else validate_input_data data rest
          | _ => validate_input_data data rest
          end
      end
  end.

End with_unicode.
End InputValidation.

(** ** utils/notes.py: note names *)

Module NotesNames.
Import Builtins.

(** the items of [NOTE_BASE_MIDI], in insertion order *)
Definition NOTE_BASE_MIDI_items : list (pystr * Q) :=
  [ (py "C", 0); (py "C#", 1); (py "Db", 1);
    (py "D", 2); (py "D#", 3); (py "Eb", 3);
    (py "E", 4); (py "E#", 5);
    (py "F", 5); (py "F#", 6); (py "Gb", 6);
    (py "G", 7); (py "G#", 8); (py "Ab", 8);
    (py "A", 9); (py "A#", 10); (py "Bb", 10);
    (py "B", 11); (py "B#", 0);
    (py "C-", 0.5); (py "C+", -0.5);
    (py "C#-", 1.5); (py "C#+", 0.5);
    (py "D-", 2.5); (py "D+", 1.5);
    (py "D#-", 3.5); (py "D#+", 2.5);
    (py "E-", 4.5); (py "E+", 3.5);
    (py "F-", 5.5); (py "F+", 4.5);
    (py "F#-", 6.5); (py "F#+", 5.5);
    (py "G-", 7.5); (py "G+", 6.5);
    (py "G#-", 8.5); (py "G#+", 7.5);
    (py "A-", 9.5); (py "A+", 8.5);
    (py "A#-", 10.5); (py "A#+", 9.5);
    (py "B-", 11.5); (py "B+", 10.5);
    (py "Cb", 11); (py "Cb-", 11.5); (py "Cb+", 10.5);
    (py "Fb", 4); (py "Fb-", 4.5); (py "Fb+", 3.5);
    (py "E#-", 5.5); (py "B#-", 0.5);
    (py "E#+", 4.5); (py "B#+", -0.5) ]%Q.

(** [{v: k for k, v in NOTE_BASE_MIDI.items() if v == int(v)}]: a later
    item replaces an earlier one with the same value *)
Definition rev : gmap Z pystr :=
  foldl (fun d '(k, v) =>
           if Qeq_bool v (inject_Z (trunc v)) then <[trunc v := k]> d else d)
        ∅ NOTE_BASE_MIDI_items.

Definition midi_to_note_name (m : Q) : pystr :=
  let m_round := SpectralAnalysis.round m in
  let octave := (m_round / 12 - 1)%Z in
  let semitone := (m_round mod 12)%Z in
  let base := match rev !! semitone with Some k => k | None => py "?" end in
  let cents := SpectralAnalysis.round ((m - inject_Z m_round) * 100)%Q in
  if negb (cents =? 0)%Z then
    let sign := if (0 <? cents)%Z then py "+" else [] in
    base ++ str octave ++ sign ++ str cents ++ py "c"
  else base ++ str octave.

End NotesNames.

(** ** spectral_analysis.py: the harmonic ratio *)

Module SpectralAnalysisRatio.
Import SpectralAnalysis.
Local Open Scope Q_scope.

(** [a[mask]] of numpy with a boolean mask: the entries whose mask is true;
    [IndexError] when the mask has another length than [a] *)
Definition mask_index {A} (a : list A) (mask : list bool) : result (list A) :=
  if Nat.eqb (length a) (length mask)
  then Ok (fst <$> List.filter snd (zip a mask))
  else Raise IndexError.

(** [x % 12] of numpy floats: the remainder has the sign of the divisor;
    NaN for an infinity *)
Definition mod12 (x : pyfloat) : pyfloat :=
  match x with
  | Fin q => Fin (q - 12 * inject_Z (Qfloor (q / 12)))
  | _ => NaN
  end.

(** [np.isclose(x, 0, atol=0.25)]: [|x - 0| <= atol + rtol * |0|] for a
    finite [x], and [x == 0] for an infinity or NaN *)
Definition isclose0 (x : pyfloat) : bool :=
  match x with
  | Fin q => Qle_bool (Qabs q) (1 # 4)
  | _ => false
  end.

(** [a.min()] of a non-empty array *)
Definition array_min (l : list Q) : Q :=
  match l with
  | [] => 0
  | x :: l' => foldl (fun m y => if Qlt_le_dec y m then y else m) x l'
  end.

Definition calculate_harmonic_ratio (pitches : list pyfloat)
    (amplitudes : option (list pyfloat)) (fundamental : option pyfloat) :
    result pyfloat :=
  match pitches with
  | [] => Ok (Fin 0)
  | _ :: _ =>
      let pitches := _safe_array pitches in
      let amps := match amplitudes with
                  | None => (fun _ => 1) <$> pitches
                  | Some a => _safe_array a
                  end in
      let valid_mask :=
        (fun p => negb (isnan (Fin p) || isinf (Fin p))) <$> pitches in
      pitches ← mask_index pitches valid_mask;
      amps ← mask_index amps valid_mask;
      if Nat.eqb (length pitches) 0 then Ok (Fin 0) else
      let fundamental := match fundamental with
                         | None => Fin (array_min pitches)
                         | Some f => f
                         end in
      let intervals := (fun p => fsub (Fin p) fundamental) <$> pitches in
      let harmonic_mask := (fun i => isclose0 (mod12 i)) <$> intervals in
      harm ← mask_index amps harmonic_mask;
      let harm_energy := np_sum (Fin <$> harm) in
      let total_energy := np_sum (Fin <$> amps) in
      Ok (if positive total_energy then fdiv harm_energy total_energy
          else Fin 0)
  end.

End SpectralAnalysisRatio.

(** * Vocabulary of the statements *)

Section masking_vocabulary.
Import PsychoacousticCorrections.
Local Open Scope R_scope.

(** what the masking loops keep true of [masked_amps] *)
Definition attenuated (amps masked : list R) : Prop :=
  length masked = length amps
  /\ forall i m a, masked !! i = Some m -> amps !! i = Some a -> 0 <= m <= a.

End masking_vocabulary.

Section chroma_vocabulary.
Import SpectralAnalysis.
Local Open Scope Q_scope.

(** the pitch class of a pitch as the loop computes it:
    [int(round(p)) % 12] *)
Definition pitch_class (p : Q) : nat := Z.to_nat (round p mod 12).

(** the amplitude accumulated in the pitch class [k] *)
Definition class_energy (k : nat) (pairs : list (Q * Q)) : Q :=
  sum (snd <$> List.filter (fun '(p, a) => Nat.eqb (pitch_class p) k) pairs).

(** half the double range: nothing overflows in a sum of floats that are
    not negative and whose exact sum stays below it *)
Definition HALF_RANGE : Q := inject_Z (2 ^ 1023).

End chroma_vocabulary.

Section validation_vocabulary.
Import Metricas.

Definition same_length (d : input_data) : Prop :=
  length (get (notes d)) = length (get (dynamics d))
  /\ length (get (dynamics d)) = length (get (instruments d))
  /\ length (get (instruments d)) = length (get (num_instruments d)).

Definition some_list_empty (d : input_data) : Prop :=
  get (notes d) = [] \/ get (dynamics d) = []
  \/ get (instruments d) = [] \/ get (num_instruments d) = [].

Definition empty_input : input_data :=
  {| notes := Some []; dynamics := Some [py "mf"]; instruments := None;
     num_instruments := Some [1%Z]; weight_factor := None;
     use_psychoacoustic := None; use_perceptual_weighting := None;
     use_stevens := None; alpha := None; beta := None |}.

End validation_vocabulary.

Section minimum_interval_vocabulary.
Import DensidadeIntervalar.
Local Open Scope R_scope.

(** two spellings of the same pitch *)
Definition enharmonic_pair : list pystr := [py "C#4"; py "Db4"].

End minimum_interval_vocabulary.

Section matcher_vocabulary.
Import Re.

(** [part] is a text the atom [a] can consume *)
Definition fits (a : atom) (part : pystr) : Prop :=
  (lo a <= length part)%nat
  /\ (forall h, hi a = Some h -> (length part <= h)%nat)
  /\ Forall (fun c => cls a c = true) part.

(** [parts] cuts [s] into one text per atom of [p] *)
Definition splits (p : list atom) (s : pystr) (parts : list pystr) : Prop :=
  concat parts = s /\ Forall2 fits p parts.

(** a match of [p] on [f <$> s] gives a match of [p'] on [g <$> s] when
    each class of [p], taken after [f], is inside the class of [p'] taken
    after [g] *)
Definition atom_le (f g : char -> char) (a a' : atom) : Prop :=
  lo a = lo a' /\ hi a = hi a'
  /\ forall c, cls a (f c) = true -> cls a' (g c) = true.

End matcher_vocabulary.

Section microtonal_note_to_midi_vocabulary.
Context {U : Unicode} {HU : UnicodeOk U}.
Import Re Microtonal.
Local Open Scope Q_scope.

(** [m] returns, without a log record, a value between [lo] and [hi] *)
Definition returns_within (lo hi : Q) (m : M Q) : Prop :=
  exists v : Q, m = mret v /\ lo <= v <= hi.

(** a text ends with a decimal digit: the base note a cents pattern
    captures *)
Definition ends_with_digit (b : pystr) : Prop :=
  exists d, last b = Some d /\ is_digit d = true.

Definition cents_patterns : list re :=
  [_RE_CENTS; cents_plain; cents_arrow; cents_quarter].

(** [replace("♯", "#")] and [replace("#", "♯")], character by character *)
Definition to_hash (c : char) : char :=
  if (c =? SUSTENIDO_MUSICAL)%N then HASH else c.

Definition to_music_sharp (c : char) : char :=
  if (c =? HASH)%N then SUSTENIDO_MUSICAL else c.

End microtonal_note_to_midi_vocabulary.

Section arrows_vocabulary.
Local Open Scope Q_scope.

(** the two conversion paths, on the database of the note alphabet *)
Definition via_microtonal (note : pystr) : result Q :=
  fst (@Microtonal.note_to_midi ascii_unicode note).

Definition via_notes (note : pystr) : result Q :=
  fst (@Notes.normalize_note_string ascii_unicode note
       ≫= @Notes.note_to_midi ascii_unicode).

Definition via_serialize_utils (note : pystr) : result Q :=
  fst (@SerializeUtils.note_to_midi ascii_unicode note).

Definition returns (r : result Q) (q : Q) : Prop :=
  match r with Ok x => x == q | Raise _ => False end.

Definition returnsb (r : result Q) (q : Q) : bool :=
  match r with Ok x => Qeq_bool x q | Raise _ => false end.

(** both paths give the note [base ++ d] a value [v], its [↑] form
    [v - 0.5] and its [↓] form [v + 0.5] *)
Definition arrow_convention (base : pystr) (d : char) : Prop :=
  exists v,
    via_microtonal (base ++ [d]) = Ok v
    /\ returns (via_notes (base ++ [d])) v
    /\ returns (via_microtonal (base ++ [QUARTO_TOM_ACIMA; d])) (v - (1 # 2))
    /\ returns (via_notes (base ++ [QUARTO_TOM_ACIMA; d])) (v - (1 # 2))
    /\ returns (via_microtonal (base ++ [QUARTO_TOM_ABAIXO; d])) (v + (1 # 2))
    /\ returns (via_notes (base ++ [QUARTO_TOM_ABAIXO; d])) (v + (1 # 2)).

Definition arrow_conventionb (base : pystr) (d : char) : bool :=
  match via_microtonal (base ++ [d]) with
  | Ok v =>
      returnsb (via_notes (base ++ [d])) v
      && returnsb (via_microtonal (base ++ [QUARTO_TOM_ACIMA; d])) (v - (1 # 2))
      && returnsb (via_notes (base ++ [QUARTO_TOM_ACIMA; d])) (v - (1 # 2))
      && returnsb (via_microtonal (base ++ [QUARTO_TOM_ABAIXO; d])) (v + (1 # 2))
      && returnsb (via_notes (base ++ [QUARTO_TOM_ABAIXO; d])) (v + (1 # 2))
  | Raise _ => false
  end.

(** the pitch letters [A-Ga-g] and the accidentals the two paths read *)
Definition pitch_letters : list char :=
  [65; 66; 67; 68; 69; 70; 71; 97; 98; 99; 100; 101; 102; 103]%N.

Definition accidentals : list pystr :=
  [[]; [HASH]; [LOWER_B]; [SUSTENIDO_MUSICAL]].

(** the base spellings that [ESCALA_CROMATICA] knows, whatever the case of
    the letter and the glyph of the sharp: all but E#, B#, Cb and Fb *)
Definition chromatic_bases : list pystr :=
  List.filter
    (fun base => dict_in (@capitalize ascii_unicode
                            (replace SUSTENIDO_MUSICAL [HASH] base))
                         Microtonal.ESCALA_CROMATICA)
    (l ← pitch_letters; a ← accidentals; [l :: a]).

Definition octave_digits : list char :=
  [48; 49; 50; 51; 52; 53; 54; 55; 56; 57]%N.

(** the spellings that the patterns of [microtonal.note_to_midi] match and
    [ESCALA_CROMATICA] does not know: E#, B#, Cb and Fb, whatever the case
    of the letter and the glyph of the sharp *)
Definition unknown_bases : list pystr :=
  List.filter
    (fun base => negb (dict_in (@capitalize ascii_unicode
                                  (replace SUSTENIDO_MUSICAL [HASH] base))
                               Microtonal.ESCALA_CROMATICA))
    (l ← pitch_letters; a ← accidentals; [l :: a]).

(** [microtonal.note_to_midi] answers [note] with the fallback 60.0 and the
    warning of an unrecognized format *)
Definition falls_back (note : pystr) : Prop :=
  @Microtonal.note_to_midi ascii_unicode note
  = (Ok 60,
     [LogWarning (py "Formato de nota não reconhecido: "
                  ++ replace SUSTENIDO_MUSICAL [HASH] note)]).

Definition falls_backb (note : pystr) : bool :=
  match @Microtonal.note_to_midi ascii_unicode note with
  | (Ok v, [LogWarning msg]) =>
      Qeq_bool v 60 && (Qden v =? 1)%positive
      && eqb msg (py "Formato de nota não reconhecido: "
                  ++ replace SUSTENIDO_MUSICAL [HASH] note)
  | _ => false
  end.

(** where the two paths part: [microtonal.note_to_midi] falls back on the
    note [base ++ d] and on its two arrow forms alike, while the
    [utils.notes] path gives the note a value [v], its [↑] form [v - 0.5]
    and its [↓] form [v + 0.5], none of them 60 *)
Definition arrow_lost (base : pystr) (d : char) : Prop :=
  falls_back (base ++ [d])
  /\ falls_back (base ++ [QUARTO_TOM_ACIMA; d])
  /\ falls_back (base ++ [QUARTO_TOM_ABAIXO; d])
  /\ exists v,
       returns (via_notes (base ++ [d])) v
       /\ returns (via_notes (base ++ [QUARTO_TOM_ACIMA; d])) (v - (1 # 2))
       /\ returns (via_notes (base ++ [QUARTO_TOM_ABAIXO; d])) (v + (1 # 2))
       /\ ~ v - (1 # 2) == 60 /\ ~ v + (1 # 2) == 60.

Definition arrow_lostb (base : pystr) (d : char) : bool :=
  falls_backb (base ++ [d])
  && falls_backb (base ++ [QUARTO_TOM_ACIMA; d])
  && falls_backb (base ++ [QUARTO_TOM_ABAIXO; d])
  && match via_notes (base ++ [d]) with
     | Ok v =>
         returnsb (via_notes (base ++ [QUARTO_TOM_ACIMA; d])) (v - (1 # 2))
         && returnsb (via_notes (base ++ [QUARTO_TOM_ABAIXO; d])) (v + (1 # 2))
         && negb (Qeq_bool (v - (1 # 2)) 60)
         && negb (Qeq_bool (v + (1 # 2)) 60)
     | Raise _ => false
     end.

End arrows_vocabulary.

Section normalisation_vocabulary.

Definition normalized (note : pystr) : result pystr :=
  fst (@Notes.normalize_note_string ascii_unicode note).

(** notes written with an upper-case pitch letter: letter, accidental,
    quarter-tone marker, octave digit *)
Definition upper_case_letters : list char := [65; 66; 67; 68; 69; 70; 71]%N.

Definition all_accidentals : list pystr :=
  [[]; [HASH]; [LOWER_B]; [SUSTENIDO_MUSICAL]; [BEMOL_MUSICAL]].

Definition markers : list pystr :=
  [[]; [PLUS]; [MINUS]; [QUARTO_TOM_ACIMA]; [QUARTO_TOM_ABAIXO]].

Definition digits09 : list char := [48; 49; 50; 51; 52; 53; 54; 55; 56; 57]%N.

Definition cents_suffixes : list pystr :=
  [] :: (s ← [PLUS; MINUS]; d1 ← digits09;
         [s; d1; LOWER_C] :: (d2 ← digits09; [[s; d1; d2; LOWER_C]])).

Definition upper_case_notes : list pystr :=
  l ← upper_case_letters; a ← all_accidentals; d ← digits09;
  ((m ← markers; [l :: a ++ m ++ [d]])
   ++ (c ← cents_suffixes; [l :: a ++ [d] ++ c])).

Definition idempotent_at (note : pystr) : bool :=
  match normalized note with
  | Ok n => match normalized n with
            | Ok n' => eqb n' n
            | Raise _ => false
            end
  | Raise _ => false
  end.

End normalisation_vocabulary.

Section notations_vocabulary.
Import Builtins MicrotonalNotation.

(** what [normalizar_simbolos_nota] does to one character *)
Definition ascii_symbol (c : char) : char :=
  if (c =? SUSTENIDO_MUSICAL)%N then HASH
  else if (c =? QUARTO_TOM_ACIMA)%N then MINUS
  else if (c =? QUARTO_TOM_ABAIXO)%N then PLUS
  else c.

Definition quarter_marks : list char :=
  [PLUS; MINUS; QUARTO_TOM_ACIMA; QUARTO_TOM_ABAIXO].

Definition notation_pairs : list (pystr * pystr) :=
  map_to_list NOTACAO_QUARTOS_TOM.

End notations_vocabulary.

Section positions_vocabulary.
Import Builtins MicrotonalNotation.
Local Open Scope Q_scope.

Definition posicao (note : pystr) : result Q :=
  fst (@nota_para_posicao ascii_unicode note).

Definition raises_ValueError {A} (r : result A) : bool :=
  match r with Raise (ValueError _) => true | _ => false end.

(** spellings with a flat: a pitch letter followed by [b] *)
Definition flat_bases : list pystr := l ← pitch_letters; [[l; LOWER_B]].

(** the spellings of the twelve chromatic names, with [#] or [♯] and in
    either case *)
Definition sharp_bases : list pystr :=
  List.filter
    (fun base => dict_in (@capitalize ascii_unicode
                            (replace SUSTENIDO_MUSICAL [HASH] base))
                         Microtonal.ESCALA_CROMATICA)
    (l ← pitch_letters; a ← [[]; [HASH]; [SUSTENIDO_MUSICAL]]; [l :: a]).

(** C lowered by a quarter tone *)
Definition c_quarter_flat (base mark : pystr) : bool :=
  (eqb base (py "C") || eqb base (py "c"))
  && (eqb mark [MINUS] || eqb mark [QUARTO_TOM_ACIMA]).

(** the position is twice the MIDI value, less 23 *)
Definition position_agrees (note : pystr) : bool :=
  match via_microtonal note with
  | Ok v => returnsb (posicao note) (2 * v - 23)
  | Raise _ => false
  end.

End positions_vocabulary.

Section names_vocabulary.
Import Builtins MicrotonalNotation.
Local Open Scope Q_scope.

(** the name of the pitch [n + c/100], with cents, read back by
    [note_to_midi] *)
Definition name_round_trips (n c : Z) : bool :=
  let m := inject_Z n + inject_Z c / 100 in
  match midi_to_note_name m true false with
  | Ok name => returnsb (via_microtonal name) m
  | Raise _ => false
  end.

Definition pitch_numbers : list Z := Z.of_nat <$> seq 12 116.

Definition cents_numbers : list Z := Z.of_nat <$> seq 0 100.

End names_vocabulary.

Section chroma_more_vocabulary.
Import SpectralAnalysis.
Local Open Scope Q_scope.

(** a pitch moved by [k] octaves; NaN and the infinities stay *)
Definition transpose (k : Z) (x : pyfloat) : pyfloat :=
  match x with
  | Fin q => Fin (q + inject_Z (12 * k))
  | _ => x
  end.

End chroma_more_vocabulary.

Section input_validation_vocabulary.
Context {U : Unicode}.
Import InputValidation.

(** a field that is present with a value that is not [None], not an empty
    list and not a blank string *)
Definition field_ok {A} (data : gmap pystr (pyvalue A)) (field : pystr) : Prop :=
  exists value, data !! field = Some value
    /\ value <> PyNone /\ value <> PyList []
    /\ forall s, value = PyStr s -> strip s <> [].

End input_validation_vocabulary.

Section quarter_codes_vocabulary.
Local Open Scope Q_scope.

(** [microtonal.note_to_midi] reads [+] as a quarter tone up and [-] as a
    quarter tone down; the [utils.notes] path reads them the other way *)
Definition quarter_codes_differb (base : pystr) (d : char) : bool :=
  match via_microtonal (base ++ [d]) with
  | Ok v =>
      returnsb (via_microtonal (base ++ [PLUS; d])) (v + (1 # 2))
      && returnsb (via_notes (base ++ [PLUS; d])) (v - (1 # 2))
      && returnsb (via_microtonal (base ++ [MINUS; d])) (v - (1 # 2))
      && returnsb (via_notes (base ++ [MINUS; d])) (v + (1 # 2))
  | Raise _ => false
  end.

End quarter_codes_vocabulary.

Section enumeration_vocabulary.
Import Re.

(** ASCII and the four musical symbols, as a list *)
Definition note_alphabet : list char :=
  (N.of_nat <$> seq 0 128)
  ++ [QUARTO_TOM_ACIMA; QUARTO_TOM_ABAIXO; SUSTENIDO_MUSICAL; BEMOL_MUSICAL].

(** the strings of length [n] over [chars] *)
Fixpoint words (chars : list char) (n : nat) : list pystr :=
  match n with
  | O => [[]]
  | S n' => c ← chars; w ← words chars n'; [c :: w]
  end.

(** the texts an atom with a bounded repetition can consume *)
Definition enum_atom (a : atom) : list pystr :=
  match hi a with
  | Some h => k ← seq (lo a) (S h - lo a); words (List.filter (cls a) note_alphabet) k
  | None => []
  end.

Fixpoint enum_atoms (p : list atom) : list pystr :=
  match p with
  | [] => [[]]
  | a :: p' => x ← enum_atom a; y ← enum_atoms p'; [x ++ y]
  end.

(** the repetition is bounded and the class is inside the alphabet *)
Definition bounded_class (a : atom) : Prop :=
  hi a <> None /\ forall c, cls a c = true -> c ∈ note_alphabet.

End enumeration_vocabulary.

Section notes_valid_vocabulary.
Import Re.
Local Open Scope Q_scope.

Definition notes_patterns : list re :=
  [@Notes._RE_STANDARD ascii_unicode; @Notes._RE_QUARTER ascii_unicode;
   @Notes._RE_ARROW ascii_unicode; @Notes._RE_CENTS ascii_unicode].

(** every string the four patterns match in full, on the database of the
    note alphabet *)
Definition notes_valid_strings : list pystr :=
  r ← notes_patterns; enum_atoms (List.flat_map atoms r).

Definition within (lo hi : Q) (r : result Q) : bool :=
  match r with
  | Ok v => Qle_bool lo v && Qle_bool v hi
  | Raise _ => false
  end.

End notes_valid_vocabulary.

Section notes_names_vocabulary.
Import NotesNames.
Local Open Scope Q_scope.

(** the name of the pitch [n + c/100] read back through
    [normalize_note_string] and [note_to_midi] *)
Definition notes_name_round_trips (n c : Z) : bool :=
  let m := inject_Z n + inject_Z c / 100 in
  returnsb (via_notes (midi_to_note_name m)) m.

Definition notes_pitch_numbers : list Z := Z.of_nat <$> seq 12 120.

Definition notes_cents_numbers : list Z := (fun k => Z.of_nat k - 49)%Z <$> seq 0 99.

End notes_names_vocabulary.

Section serialize_arrows_vocabulary.
Local Open Scope Q_scope.

(** the bases of [chromatic_bases] written with the ASCII sharp *)
Definition ascii_chromatic_bases : list pystr :=
  List.filter (fun base => negb (contains SUSTENIDO_MUSICAL base)) chromatic_bases.

(** [serialize_utils.note_to_midi] gives the plain note and the codes [+]
    and [-] the values of [microtonal.note_to_midi], and reads [↑] as [+]
    and [↓] as [-] *)
Definition serialize_convention (base : pystr) (d : char) : Prop :=
  exists v,
    via_microtonal (base ++ [d]) = Ok v
    /\ returns (via_serialize_utils (base ++ [d])) v
    /\ returns (via_microtonal (base ++ [PLUS; d])) (v + (1 # 2))
    /\ returns (via_serialize_utils (base ++ [PLUS; d])) (v + (1 # 2))
    /\ returns (via_microtonal (base ++ [MINUS; d])) (v - (1 # 2))
    /\ returns (via_serialize_utils (base ++ [MINUS; d])) (v - (1 # 2))
    /\ returns (via_serialize_utils (base ++ [QUARTO_TOM_ACIMA; d])) (v + (1 # 2))
    /\ returns (via_serialize_utils (base ++ [QUARTO_TOM_ABAIXO; d])) (v - (1 # 2)).

Definition serialize_conventionb (base : pystr) (d : char) : bool :=
  match via_microtonal (base ++ [d]) with
  | Ok v =>
      returnsb (via_serialize_utils (base ++ [d])) v
      && returnsb (via_microtonal (base ++ [PLUS; d])) (v + (1 # 2))
      && returnsb (via_serialize_utils (base ++ [PLUS; d])) (v + (1 # 2))
      && returnsb (via_microtonal (base ++ [MINUS; d])) (v - (1 # 2))
      && returnsb (via_serialize_utils (base ++ [MINUS; d])) (v - (1 # 2))
      && returnsb (via_serialize_utils (base ++ [QUARTO_TOM_ACIMA; d])) (v + (1 # 2))
      && returnsb (via_serialize_utils (base ++ [QUARTO_TOM_ABAIXO; d])) (v - (1 # 2))
  | Raise _ => false
  end.

End serialize_arrows_vocabulary.

(** * Properties *)

(** ** The decay function *)

Section decay.
Import Floats.
Import DensidadeIntervalar.
#[local] Set Warnings "-inexact-float".
Local Open Scope R_scope.

Lemma decaimento_unison (stored : option R) (lamb : option R) :
  decaimento_exponencial_modificado stored 0 lamb = 1.
Proof.
  unfold decaimento_exponencial_modificado.
  destruct (Req_dec_T 0 0) as [_ | H]; [reflexivity | contradiction H; reflexivity].
Qed.

Lemma decaimento_positive_delta (stored : option R) (lamb delta : R) :
  0 < delta ->
  decaimento_exponencial_modificado stored delta (Some lamb) = exp (- lamb * delta).
Proof.
  intros Hd. unfold decaimento_exponencial_modificado.
  destruct (Req_dec_T delta 0) as [H | _]; [lra | reflexivity].
Qed.

(** C4: [decaimento_exponencial_modificado] is 1 at [delta = 0]; for
    [lamb > 0] its value at [delta > 0] is [exp (- lamb * delta)], which is
    strictly decreasing in [delta] as a function of real numbers.  On
    binary64 values the function is 1.0 at [delta = 0] as well, whatever
    [math.exp] does, but it is not strictly decreasing: the product
    [- lamb * delta] is rounded before [math.exp] is applied, and with
    [lamb = 0.05] the deltas 1.5 and 1.5000000000000002 have the same
    product, hence the same value. *)
Theorem decaimento_unison_one_decreasing_over_reals (stored : option R) (lamb : R) :
  0 < lamb ->
  decaimento_exponencial_modificado stored 0 (Some lamb) = 1
  /\ (forall delta, 0 < delta ->
        decaimento_exponencial_modificado stored delta (Some lamb)
        = exp (- lamb * delta))
  /\ (forall d1 d2, 0 < d1 -> d1 < d2 ->
        decaimento_exponencial_modificado stored d2 (Some lamb)
        < decaimento_exponencial_modificado stored d1 (Some lamb))
  /\ (forall math_exp l,
        DensidadeIntervalarFloat.decaimento_exponencial_modificado
          math_exp 0%float l
        = Ok 1%float)
  /\ (forall math_exp,
        DensidadeIntervalarFloat.decaimento_exponencial_modificado
          math_exp 1.5%float 0.05%float
        = DensidadeIntervalarFloat.decaimento_exponencial_modificado
            math_exp 1.5000000000000002%float 0.05%float).
Proof.
  intros Hl. split; [apply decaimento_unison |].
  split; [intros; now apply decaimento_positive_delta |].
  split.
  - intros d1 d2 H1 H12.
    rewrite !decaimento_positive_delta by lra.
    apply exp_increasing. nra.
  - split; intros; reflexivity.
Qed.

Lemma decaimento_unison_one_decreasing_over_reals_witness :
  0 < 0.05
  /\ decaimento_exponencial_modificado None 0 (Some 0.05) = 1
  /\ (forall delta, 0 < delta ->
        decaimento_exponencial_modificado None delta (Some 0.05)
        = exp (- (0.05) * delta))
  /\ (forall d1 d2, 0 < d1 -> d1 < d2 ->
        decaimento_exponencial_modificado None d2 (Some 0.05)
        < decaimento_exponencial_modificado None d1 (Some 0.05))
  /\ (forall math_exp l,
        DensidadeIntervalarFloat.decaimento_exponencial_modificado
          math_exp 0%float l
        = Ok 1%float)
  /\ (forall math_exp,
        DensidadeIntervalarFloat.decaimento_exponencial_modificado
          math_exp 1.5%float 0.05%float
        = DensidadeIntervalarFloat.decaimento_exponencial_modificado
            math_exp 1.5000000000000002%float 0.05%float).
Proof.
  split; [lra |].
  apply (decaimento_unison_one_decreasing_over_reals None 0.05); lra.
Defined.

(** two positive deltas, the second the greater, to which the program
    gives the same value for [lamb = 0.05], whatever [math.exp] returns *)
Lemma decaimento_float_not_strictly_decreasing :
  (0 <? 0.05)%float = true
  /\ (0 <? 12)%float = true
  /\ (12 <? 12.000000000000002)%float = true
  /\ forall math_exp,
       DensidadeIntervalarFloat.decaimento_exponencial_modificado
         math_exp 12.000000000000002%float 0.05%float
       = DensidadeIntervalarFloat.decaimento_exponencial_modificado
           math_exp 12%float 0.05%float.
Proof.
  repeat split; intros; reflexivity.
Qed.

(** The copy in [calibration.py] gives a unison the value 0. *)
Lemma calibration_decaimento_unison (stored lamb : option R) :
  Calibration.decaimento_exponencial_modificado stored 0 lamb = 0.
Proof.
  unfold Calibration.decaimento_exponencial_modificado.
  destruct (Req_dec_T 0 0) as [_ | H]; [reflexivity | contradiction H; reflexivity].
Qed.
End decay.

(** ** Loops *)

Lemma for_each_invariant {A S} (P : S -> Prop) (l : list A) (s : S)
    (body : A -> S -> result S) :
  P s ->
  (forall x s, x ∈ l -> P s ->
     match body x s with Ok s' => P s' | Raise _ => True end) ->
  match for_each l s body with Ok s' => P s' | Raise _ => True end.
Proof.
  revert s. induction l as [| x l IH]; intros s Hs Hbody; simpl; [exact Hs |].
  pose proof (Hbody x s (list_elem_of_here _ _) Hs) as Hx.
  destruct (body x s) as [s' | e]; [| exact I].
  apply IH; [exact Hx |].
  intros y t Hy Ht. apply Hbody; [now apply list_elem_of_further | exact Ht].
Qed.

Lemma for_each_total {A S} (P : S -> Prop) (l : list A) (s : S)
    (body : A -> S -> result S) :
  P s ->
  (forall x s, x ∈ l -> P s -> exists s', body x s = Ok s' /\ P s') ->
  exists s', for_each l s body = Ok s' /\ P s'.
Proof.
  revert s. induction l as [| x l IH]; intros s Hs Hbody; simpl; [eauto |].
  destruct (Hbody x s (list_elem_of_here _ _) Hs) as (s' & -> & Hs').
  apply IH; [exact Hs' |].
  intros y t Hy Ht. apply Hbody; [now apply list_elem_of_further | exact Ht].
Qed.

Lemma elem_of_range (a b i : nat) : i ∈ range a b <-> (a <= i < b)%nat.
Proof. unfold range. rewrite list_elem_of_In, in_seq. lia. Qed.

Lemma index_Ok {A} (l : list A) (i : nat) (a : A) :
  index l i = Ok a <-> l !! i = Some a.
Proof. unfold index. destruct (l !! i); split; congruence. Qed.

Lemma index_lt {A} (l : list A) (i : nat) :
  (i < length l)%nat -> exists a, index l i = Ok a /\ l !! i = Some a.
Proof.
  intros H. destruct (lookup_lt_is_Some_2 l i H) as [a Ha].
  exists a. split; [now apply index_Ok | exact Ha].
Qed.

(** ** Critical-band masking *)

Section masking.
Import PsychoacousticCorrections.
Local Open Scope R_scope.

Lemma masking_step_attenuates (barks amps : list R) (slope : R) (i j : nat)
    (masked : list R) :
  0 <= slope <= 1 ->
  attenuated amps masked ->
  match masking_step barks amps slope i j masked with
  | Ok masked' => attenuated amps masked'
  | Raise _ => True
  end.
Proof.
  intros Hs [Hlen Hm]. unfold masking_step.
  case_bool_decide; [| now split].
  destruct (index barks i) as [bi |] eqn:Hbi; simpl; [| exact I].
  destruct (index barks j) as [bj |] eqn:Hbj; simpl; [| exact I].
  destruct (Rlt_dec (Rabs (bi - bj)) 1) as [Hd |]; [| now split].
  destruct (index amps j) as [aj |] eqn:Haj; simpl; [| exact I].
  destruct (index amps i) as [ai |] eqn:Hai; simpl; [| exact I].
  destruct (Rgt_dec aj ai); [| now split].
  destruct (index masked i) as [mi |] eqn:Hmi; simpl; [| exact I].
  apply index_Ok in Hai, Hmi.
  split; [now rewrite length_insert |].
  intros k m a Hk Ha.
  destruct (decide (k = i)) as [-> | Hne].
  - rewrite list_lookup_insert_eq in Hk by (apply lookup_lt_Some in Hmi; exact Hmi).
    injection Hk as <-. rewrite Hai in Ha. injection Ha as <-.
    pose proof (Hm i mi ai Hmi Hai) as Hb.
    pose proof (Rabs_pos (bi - bj)) as Hp.
    assert (0 <= (1 - Rabs (bi - bj)) * slope <= 1) as Hf by nra.
    nra.
  - rewrite list_lookup_insert_ne in Hk by congruence. eauto.
Qed.

Lemma masking_step_total (barks amps : list R) (slope : R) (i j : nat)
    (masked : list R) :
  (i < length barks)%nat -> (j < length barks)%nat ->
  (length barks <= length amps)%nat -> length masked = length amps ->
  exists masked', masking_step barks amps slope i j masked = Ok masked'
                  /\ length masked' = length amps.
Proof.
  intros Hi Hj Hb Hm. unfold masking_step.
  case_bool_decide; [| eauto].
  destruct (index_lt barks i Hi) as (bi & -> & _).
  destruct (index_lt barks j Hj) as (bj & -> & _). simpl.
  destruct (Rlt_dec _ _); [| eauto].
  destruct (index_lt amps j ltac:(lia)) as (aj & -> & _).
  destruct (index_lt amps i ltac:(lia)) as (ai & -> & _). simpl.
  destruct (Rgt_dec _ _); [| eauto].
  destruct (index_lt masked i ltac:(lia)) as (mi & -> & _). simpl.
  eexists. split; [reflexivity |]. now rewrite length_insert.
Qed.

Lemma attenuated_refl (amps : list R) :
  Forall (fun a => 0 <= a) amps -> attenuated amps amps.
Proof.
  intros H. split; [reflexivity |].
  intros i m a Hm Ha. rewrite Hm in Ha. injection Ha as <-.
  rewrite Forall_forall in H. specialize (H m).
  assert (0 <= m) by (apply H, list_elem_of_lookup; eauto).
  lra.
Qed.

Lemma comprehension_midi_to_hz (pitches : list R) :
  Forall (fun p => p < MIDI_OVERFLOW) pitches ->
  comprehension midi_to_hz_float pitches = Ok (midi_to_hz <$> pitches).
Proof.
  induction 1 as [| p pitches Hp _ IH]; [reflexivity |].
  cbn [comprehension]. unfold midi_to_hz_float at 1.
  destruct (Rle_dec MIDI_OVERFLOW p); [lra |]. rewrite IH. reflexivity.
Qed.

Lemma comprehension_midi_to_hz_overflow (pitches : list R) :
  Exists (fun p => MIDI_OVERFLOW <= p) pitches ->
  comprehension midi_to_hz_float pitches
  = Raise (OverflowError result_out_of_range).
Proof.
  induction pitches as [| p pitches IH]; intros H; [inversion H |].
  cbn [comprehension]. unfold midi_to_hz_float at 1.
  destruct (Rle_dec MIDI_OVERFLOW p) as [Hp | Hp]; [reflexivity |].
  inversion H as [? ? Hx | ? ? Hx]; subst; [contradiction |].
  rewrite (IH Hx). reflexivity.
Qed.

Lemma comprehension_midi_to_hz_Ok (pitches freqs : list R) :
  comprehension midi_to_hz_float pitches = Ok freqs ->
  freqs = midi_to_hz <$> pitches.
Proof.
  revert freqs. induction pitches as [| p pitches IH]; intros freqs H.
  - injection H as <-. reflexivity.
  - cbn [comprehension] in H. unfold midi_to_hz_float at 1 in H.
    destruct (Rle_dec MIDI_OVERFLOW p) as [Hp | Hp]; [discriminate |].
    destruct (comprehension midi_to_hz_float pitches) as [fs |]; [| discriminate].
    injection H as <-. rewrite (IH fs eq_refl). reflexivity.
Qed.

Lemma masking_loops_total (freqs amplitudes : list R) (slope : R) :
  (length freqs <= length amplitudes)%nat ->
  exists out,
    for_each (range 0 (length freqs)) amplitudes (fun i masked_amps =>
      for_each (range 0 (length freqs)) masked_amps (fun j masked_amps =>
        masking_step (frequency_to_bark <$> freqs) amplitudes slope i j
          masked_amps)) = Ok out
    /\ length out = length amplitudes.
Proof.
  intros Hlen.
  apply (for_each_total (fun m => length m = length amplitudes)); [reflexivity |].
  intros i masked Hi Hm.
  apply (for_each_total (fun m => length m = length amplitudes)); [exact Hm |].
  intros j masked' Hj Hm'.
  apply elem_of_range in Hi, Hj.
  apply masking_step_total; rewrite ?length_fmap; lia.
Qed.

Lemma masking_loops_attenuate (freqs amplitudes : list R) (slope : R) :
  0 <= slope <= 1 ->
  Forall (fun a => 0 <= a) amplitudes ->
  match
    for_each (range 0 (length freqs)) amplitudes (fun i masked_amps =>
      for_each (range 0 (length freqs)) masked_amps (fun j masked_amps =>
        masking_step (frequency_to_bark <$> freqs) amplitudes slope i j
          masked_amps))
  with
  | Ok out => attenuated amplitudes out
  | Raise _ => True
  end.
Proof.
  intros Hs Hpos.
  apply for_each_invariant; [now apply attenuated_refl |].
  intros i masked _ Hm.
  apply for_each_invariant; [exact Hm |].
  intros j masked' _ Hm'. now apply masking_step_attenuates.
Qed.

Lemma critical_band_masking_total (pitches amplitudes : list R) (slope : R) :
  Forall (fun p => p < MIDI_OVERFLOW) pitches ->
  (length pitches <= length amplitudes)%nat ->
  exists out, critical_band_masking pitches amplitudes slope = Ok out
              /\ (out = [] \/ length out = length amplitudes).
Proof.
  intros Hp Hlen. unfold critical_band_masking.
  destruct (bool_decide _ || bool_decide _); [eauto |].
  rewrite (comprehension_midi_to_hz pitches Hp). cbn [mbind result_bind].
  destruct (masking_loops_total (midi_to_hz <$> pitches) amplitudes slope)
    as (out & Hout & Hl); [now rewrite length_fmap |].
  exists out. split; [exact Hout | now right].
Qed.

(** C10: with amplitudes that are not negative and a slope in [0, 1],
    whatever [critical_band_masking] returns is, at every position, between
    0 and the input amplitude.  It returns when no pitch reaches 12357 and
    there are at least as many amplitudes as pitches; with a pitch from
    12357 on (and amplitudes to mask) the conversion to Hz raises
    OverflowError. *)
Theorem critical_band_masking_never_amplifies
    (pitches amplitudes : list R) (masking_slope : R) :
  0 <= masking_slope <= 1 ->
  Forall (fun a => 0 <= a) amplitudes ->
  (forall out,
     critical_band_masking pitches amplitudes masking_slope = Ok out ->
     forall i o, out !! i = Some o ->
                 exists a, amplitudes !! i = Some a /\ 0 <= o <= a)
  /\ (Forall (fun p => p < MIDI_OVERFLOW) pitches ->
      (length pitches <= length amplitudes)%nat ->
      exists out,
        critical_band_masking pitches amplitudes masking_slope = Ok out
        /\ (out = [] \/ length out = length amplitudes))
  /\ (Exists (fun p => MIDI_OVERFLOW <= p) pitches ->
      amplitudes <> [] ->
      critical_band_masking pitches amplitudes masking_slope
      = Raise (OverflowError result_out_of_range)).
Proof.
  intros Hs Hpos. split; [| split].
  - intros out Hc i o Hi.
    assert (Hinv : out = [] \/ attenuated amplitudes out).
    { unfold critical_band_masking in Hc.
      destruct (bool_decide _ || bool_decide _).
      - left. congruence.
      - destruct (comprehension midi_to_hz_float pitches) as [freqs |];
          [| discriminate].
        cbn [mbind result_bind] in Hc.
        pose proof (masking_loops_attenuate freqs amplitudes masking_slope
                      Hs Hpos) as H.
        rewrite Hc in H. now right. }
    destruct Hinv as [-> | [Hlen Hm]]; [now rewrite lookup_nil in Hi |].
    destruct (lookup_lt_is_Some_2 amplitudes i) as [a Ha].
    { rewrite <- Hlen. now apply lookup_lt_Some in Hi. }
    exists a. split; [exact Ha | eauto].
  - intros Hp Hlen. now apply critical_band_masking_total.
  - intros Hp Ha. unfold critical_band_masking.
    assert (length pitches <> 0%nat)
      by (destruct pitches; [inversion Hp | simpl; lia]).
    assert (length amplitudes <> 0%nat)
      by (destruct amplitudes; [congruence | simpl; lia]).
    rewrite !bool_decide_eq_false_2 by assumption. cbn [orb].
    rewrite (comprehension_midi_to_hz_overflow pitches Hp). reflexivity.
Qed.

Lemma critical_band_masking_never_amplifies_witness :
  0 <= 0.25 <= 1
  /\ Forall (fun a => 0 <= a) [1; 2]
  /\ (forall out,
        critical_band_masking [69; 70] [1; 2] 0.25 = Ok out ->
        forall i o, out !! i = Some o ->
                    exists a, [1; 2] !! i = Some a /\ 0 <= o <= a)
  /\ (Forall (fun p => p < MIDI_OVERFLOW) [69; 70] ->
      (length [69; 70] <= length [1; 2])%nat ->
      exists out,
        critical_band_masking [69; 70] [1; 2] 0.25 = Ok out
        /\ (out = [] \/ length out = length [1; 2]))
  /\ (Exists (fun p => MIDI_OVERFLOW <= p) [69; 70] ->
      [1; 2] <> [] ->
      critical_band_masking [69; 70] [1; 2] 0.25
      = Raise (OverflowError result_out_of_range)).
Proof.
  split; [lra |].
  split; [repeat constructor; lra |].
  apply (critical_band_masking_never_amplifies [69; 70] [1; 2] 0.25);
    [lra | repeat constructor; lra].
Defined.















End masking.

(** ** The chroma vector *)

Section chroma.
Import SpectralAnalysis.
Local Open Scope Q_scope.

Lemma foldl_Qplus_acc (a : Q) (l : list Q) : foldl Qplus a l == a + sum l.
Proof.
  unfold sum. revert a. induction l as [| x l IH]; intros a; simpl.
  - ring.
  - rewrite (IH (a + x)), (IH (0 + x)). ring.
Qed.

Lemma sum_nil : sum [] == 0.
Proof. reflexivity. Qed.

Lemma sum_cons (x : Q) (l : list Q) : sum (x :: l) == x + sum l.
Proof. unfold sum at 1. simpl. rewrite foldl_Qplus_acc. ring. Qed.

Lemma sum_app (l1 l2 : list Q) : sum (l1 ++ l2) == sum l1 + sum l2.
Proof.
  induction l1 as [| x l1 IH]; simpl app.
  - rewrite sum_nil. ring.
  - rewrite !sum_cons, IH. ring.
Qed.

Lemma sum_take_drop (n : nat) (l : list Q) :
  sum (take n l) + sum (drop n l) == sum l.
Proof. rewrite <- sum_app, take_drop. reflexivity. Qed.

Lemma sum_nonneg (l : list Q) : Forall (fun c => 0 <= c) l -> 0 <= sum l.
Proof.
  induction 1 as [| x l Hx _ IH]; [rewrite sum_nil; lra |].
  rewrite sum_cons. lra.
Qed.

Lemma elem_le_sum (l : list Q) (k : nat) (c : Q) :
  Forall (fun c => 0 <= c) l -> l !! k = Some c -> c <= sum l.
Proof.
  intros H. revert k. induction H as [| x l Hx Hl IH]; intros k Hk.
  - rewrite lookup_nil in Hk. discriminate.
  - rewrite sum_cons. pose proof (sum_nonneg l Hl).
    destruct k as [| k]; simpl in Hk.
    + injection Hk as <-. lra.
    + specialize (IH k Hk). lra.
Qed.

Lemma sum_alter (k : nat) (a : Q) (l : list Q) :
  (k < length l)%nat -> sum (alter (fun c => c + a) k l) == sum l + a.
Proof.
  unfold alter.
  revert k. induction l as [| x l IH]; intros k Hk; simpl in Hk; [lia |].
  destruct k as [| k]; simpl (list_alter _ _ _).
  - rewrite !sum_cons. ring.
  - rewrite !sum_cons, IH by lia. ring.
Qed.

Lemma sum_divide (t : Q) (l : list Q) :
  sum ((fun c => c / t) <$> l) == sum l / t.
Proof.
  induction l as [| x l IH]; simpl (_ <$> _).
  - unfold sum. simpl. unfold Qdiv. ring.
  - rewrite !sum_cons, IH. unfold Qdiv. ring.
Qed.

Lemma sum_replicate_0 (n : nat) : sum (replicate n 0) == 0.
Proof.
  induction n as [| n IH]; simpl (replicate _ _); [reflexivity |].
  rewrite sum_cons, IH. ring.
Qed.

Lemma Forall_nonneg_take (n : nat) (l : list Q) :
  Forall (fun c => 0 <= c) l -> Forall (fun c => 0 <= c) (take n l).
Proof. apply Forall_take. Qed.

Lemma Forall_nonneg_drop (n : nat) (l : list Q) :
  Forall (fun c => 0 <= c) l -> Forall (fun c => 0 <= c) (drop n l).
Proof. apply Forall_drop. Qed.

(** *** Sums inside the double range are exact *)

Lemma OVERFLOW_pos : 1 < OVERFLOW.
Proof. vm_compute. reflexivity. Qed.

Lemma HALF_RANGE_lt : HALF_RANGE < OVERFLOW.
Proof. vm_compute. reflexivity. Qed.

Lemma to_float_Fin (q : Q) :
  - OVERFLOW < q -> q < OVERFLOW -> to_float q = Fin q.
Proof.
  intros H1 H2. unfold to_float.
  destruct (Qle_bool OVERFLOW q) eqn:E1.
  { apply Qle_bool_iff in E1. lra. }
  destruct (Qle_bool q (- OVERFLOW)) eqn:E2.
  { apply Qle_bool_iff in E2. lra. }
  reflexivity.
Qed.

Lemma fadd_Fin (a b : Q) :
  0 <= a -> 0 <= b -> a + b < OVERFLOW -> fadd (Fin a) (Fin b) = Fin (a + b).
Proof.
  intros Ha Hb H. pose proof OVERFLOW_pos.
  cbn [fadd]. apply to_float_Fin; lra.
Qed.

Lemma fdiv_Fin (c t : Q) :
  0 <= c -> c <= t -> 0 < t -> fdiv (Fin c) (Fin t) = Fin (c / t).
Proof.
  intros Hc Hct Ht. pose proof OVERFLOW_pos. cbn [fdiv].
  destruct (Qeq_bool t 0) eqn:E.
  { apply Qeq_bool_iff in E. lra. }
  assert (0 <= c / t) by (apply Qle_shift_div_l; lra).
  assert (c / t <= 1) by (apply Qle_shift_div_r; lra).
  apply to_float_Fin; lra.
Qed.

Lemma foldl_fadd_Fin (qs : list Q) (acc : Q) :
  0 <= acc -> Forall (fun q => 0 <= q) qs -> acc + sum qs < OVERFLOW ->
  exists t, foldl fadd (Fin acc) (Fin <$> qs) = Fin t /\ t == acc + sum qs.
Proof.
  revert acc. induction qs as [| q qs IH]; intros acc Ha Hq Hb.
  - exists acc. split; [reflexivity |]. rewrite sum_nil. ring.
  - apply Forall_cons in Hq as [Hq0 Hq].
    rewrite sum_cons in Hb. pose proof (sum_nonneg qs Hq).
    rewrite fmap_cons. cbn [foldl]. rewrite fadd_Fin by lra.
    destruct (IH (acc + q)) as (t & Ht & Hteq); [lra | assumption | lra |].
    exists t. split; [exact Ht |]. rewrite Hteq, sum_cons. ring.
Qed.

Lemma zip_with_fadd_Fin (rs qs : list Q) :
  length rs = length qs ->
  Forall (fun q => 0 <= q) rs -> Forall (fun q => 0 <= q) qs ->
  sum rs + sum qs < OVERFLOW ->
  zip_with fadd (Fin <$> rs) (Fin <$> qs) = Fin <$> zip_with Qplus rs qs
  /\ Forall (fun q => 0 <= q) (zip_with Qplus rs qs)
  /\ sum (zip_with Qplus rs qs) == sum rs + sum qs.
Proof.
  revert qs. induction rs as [| r rs IH]; intros [| q qs] Hlen Hr Hq Hb;
    try discriminate.
  - split; [reflexivity |]. split; [constructor |]. reflexivity.
  - apply Forall_cons in Hr as [Hr0 Hr]. apply Forall_cons in Hq as [Hq0 Hq].
    rewrite !sum_cons in Hb.
    pose proof (sum_nonneg rs Hr). pose proof (sum_nonneg qs Hq).
    destruct (IH qs) as (IH1 & IH2 & IH3);
      [simpl in Hlen; lia | assumption | assumption | lra |].
    rewrite !fmap_cons. cbn [zip_with]. rewrite fadd_Fin by lra.
    rewrite IH1, fmap_cons.
    split; [reflexivity |].
    split; [constructor; [lra | exact IH2] |].
    rewrite !sum_cons, IH3. ring.
Qed.

Lemma running_sums_Fin (groups : nat) (rs qs : list Q) :
  length rs = 8%nat -> (8 * groups <= length qs)%nat ->
  Forall (fun q => 0 <= q) rs -> Forall (fun q => 0 <= q) qs ->
  sum rs + sum qs < OVERFLOW ->
  exists rs',
    running_sums groups (Fin <$> rs) (Fin <$> qs) = Fin <$> rs'
    /\ length rs' = 8%nat
    /\ Forall (fun q => 0 <= q) rs'
    /\ sum rs' == sum rs + sum (take (8 * groups) qs).
Proof.
  revert rs qs. induction groups as [| g IH]; intros rs qs Hlen Hg Hr Hq Hb.
  - exists rs. split; [reflexivity |]. split; [exact Hlen |].
    split; [exact Hr |]. rewrite Nat.mul_0_r, take_0, sum_nil. ring.
  - cbn [running_sums]. rewrite <- fmap_take, <- fmap_drop.
    pose proof (sum_take_drop 8 qs) as Htd.
    pose proof (sum_nonneg _ (Forall_nonneg_take 8 qs Hq)).
    pose proof (sum_nonneg _ (Forall_nonneg_drop 8 qs Hq)).
    destruct (zip_with_fadd_Fin rs (take 8 qs)) as (Hz1 & Hz2 & Hz3);
      [rewrite length_take; lia | assumption
       | now apply Forall_nonneg_take | lra |].
    rewrite Hz1.
    destruct (IH (zip_with Qplus rs (take 8 qs)) (drop 8 qs))
      as (rs' & Hrs & Hl & Hn & Hs).
    + rewrite length_zip_with, length_take. lia.
    + rewrite length_drop. lia.
    + exact Hz2.
    + now apply Forall_nonneg_drop.
    + rewrite Hz3. lra.
    + exists rs'. split; [exact Hrs |]. split; [exact Hl |].
      split; [exact Hn |].
      rewrite Hs, Hz3.
      replace (8 * S g)%nat with (8 + 8 * g)%nat by lia.
      rewrite <- (take_take_drop qs 8 (8 * g)), sum_app. ring.
Qed.

Lemma combine8_Fin (rs : list Q) :
  length rs = 8%nat -> Forall (fun q => 0 <= q) rs -> sum rs < OVERFLOW ->
  exists t, combine8 (Fin <$> rs) = Fin t /\ t == sum rs.
Proof.
  intros Hlen Hr Hb.
  destruct rs as [| r0 [| r1 [| r2 [| r3 [| r4 [| r5 [| r6 [| r7 [| ? ?]]]]]]]]];
    try discriminate.
  repeat (apply Forall_cons in Hr as [? Hr]).
  rewrite !sum_cons, sum_nil in Hb.
  rewrite !fmap_cons, fmap_nil. cbn [combine8].
  rewrite !fadd_Fin by lra.
  eexists. split; [reflexivity |]. rewrite !sum_cons, sum_nil. ring.
Qed.

Lemma block_sum_Fin (qs : list Q) :
  (8 <= length qs)%nat -> Forall (fun q => 0 <= q) qs -> sum qs < OVERFLOW ->
  exists t, block_sum (Fin <$> qs) = Fin t /\ t == sum qs.
Proof.
  intros Hlen Hq Hb. unfold block_sum. rewrite length_fmap.
  set (n := length qs) in *.
  assert (Hn8 : (8 * (n / 8) <= n)%nat) by (apply Nat.Div0.mul_div_le).
  assert (Hd : (1 <= n / 8)%nat) by (apply Nat.div_le_lower_bound; lia).
  rewrite <- fmap_take, <- !fmap_drop.
  pose proof (sum_take_drop 8 qs) as Htd.
  pose proof (sum_nonneg _ (Forall_nonneg_take 8 qs Hq)).
  pose proof (sum_nonneg _ (Forall_nonneg_drop 8 qs Hq)).
  destruct (running_sums_Fin (n / 8 - 1) (take 8 qs) (drop 8 qs))
    as (rs & Hrs & Hl & Hrn & Hsum).
  { rewrite length_take. fold n. lia. }
  { rewrite length_drop. fold n. lia. }
  { now apply Forall_nonneg_take. }
  { now apply Forall_nonneg_drop. }
  { lra. }
  rewrite Hrs.
  assert (Hpre : sum rs == sum (take (8 * (n / 8)) qs)).
  { rewrite Hsum.
    replace (8 * (n / 8))%nat with (8 + 8 * (n / 8 - 1))%nat by lia.
    rewrite <- (take_take_drop qs 8 (8 * (n / 8 - 1))), sum_app. reflexivity. }
  pose proof (sum_take_drop (8 * (n / 8)) qs) as Htd'.
  pose proof (sum_nonneg _ (Forall_nonneg_drop (8 * (n / 8)) qs Hq)).
  pose proof (sum_nonneg _ Hrn).
  destruct (combine8_Fin rs Hl Hrn) as (t1 & Ht1 & Ht1eq); [lra |].
  rewrite Ht1.
  destruct (foldl_fadd_Fin (drop (8 * (n / 8)) qs) t1) as (t & Ht & Hteq).
  { lra. }
  { now apply Forall_nonneg_drop. }
  { lra. }
  exists t. split; [exact Ht |]. lra.
Qed.

Lemma pairwise_sum_Fin (fuel : nat) (qs : list Q) :
  (length qs <= fuel)%nat ->
  Forall (fun q => 0 <= q) qs -> sum qs < OVERFLOW ->
  exists t, pairwise_sum fuel (Fin <$> qs) = Fin t /\ t == sum qs.
Proof.
  revert qs. induction fuel as [| fuel IH]; intros qs Hf Hq Hb.
  - destruct qs; [| simpl in Hf; lia].
    exists 0. split; reflexivity.
  - cbn [pairwise_sum]. rewrite length_fmap.
    destruct (Nat.ltb_spec (length qs) 8) as [H8 | H8].
    { destruct (foldl_fadd_Fin qs 0) as (t & Ht & Hteq);
        [lra | assumption | lra |].
      exists t. split; [exact Ht |]. lra. }
    destruct (Nat.leb_spec (length qs) 128) as [H128 | H128].
    { now apply block_sum_Fin. }
    set (n := length qs) in *.
    set (n2 := (n / 2 - (n / 2) mod 8)%nat).
    assert (Hhalf : (2 * (n / 2) <= n)%nat) by (apply Nat.Div0.mul_div_le).
    assert (Hhalf' : (n <= 2 * (n / 2) + 1)%nat).
    { pose proof (Nat.div_mod_eq n 2).
      pose proof (Nat.mod_upper_bound n 2 ltac:(lia)). lia. }
    assert (Hmod : ((n / 2) mod 8 < 8)%nat) by (apply Nat.mod_upper_bound; lia).
    rewrite <- fmap_take, <- fmap_drop.
    pose proof (sum_take_drop n2 qs) as Htd.
    pose proof (sum_nonneg _ (Forall_nonneg_take n2 qs Hq)).
    pose proof (sum_nonneg _ (Forall_nonneg_drop n2 qs Hq)).
    destruct (IH (take n2 qs)) as (t1 & Ht1 & Ht1eq).
    { rewrite length_take. fold n. unfold n2. lia. }
    { now apply Forall_nonneg_take. }
    { lra. }
    destruct (IH (drop n2 qs)) as (t2 & Ht2 & Ht2eq).
    { rewrite length_drop. fold n. unfold n2. lia. }
    { now apply Forall_nonneg_drop. }
    { lra. }
    rewrite Ht1, Ht2, fadd_Fin by lra.
    eexists. split; [reflexivity |]. lra.
Qed.

(** a sum of floats that are not negative and whose exact sum is inside
    the double range is exact *)
Lemma np_sum_Fin (qs : list Q) :
  Forall (fun q => 0 <= q) qs -> sum qs < OVERFLOW ->
  exists t, np_sum (Fin <$> qs) = Fin t /\ t == sum qs.
Proof.
  intros Hq Hb. unfold np_sum. rewrite length_fmap.
  now apply pairwise_sum_Fin.
Qed.

(** *** The accumulation *)

Lemma pitch_class_lt_12 (p : Q) : (pitch_class p < 12)%nat.
Proof.
  unfold pitch_class.
  pose proof (Z.mod_pos_bound (round p) 12 ltac:(lia)). lia.
Qed.

Lemma accumulate_Fin (cs : list Q) (p a : Q) :
  Forall (fun c => 0 <= c) cs -> 0 <= a -> sum cs + a < OVERFLOW ->
  accumulate (Fin <$> cs) p a
  = Fin <$> alter (fun c => c + a) (pitch_class p) cs.
Proof.
  intros Hc Ha Hb. unfold accumulate. cbn [isnan isinf negb andb].
  symmetry. apply list_fmap_alter.
  apply Forall_forall. intros c Hin.
  apply list_elem_of_lookup in Hin as [k Hk].
  pose proof (elem_le_sum cs k c Hc Hk).
  rewrite Forall_forall in Hc. pose proof (Hc c (list_elem_of_lookup_2 _ _ _ Hk)).
  rewrite fadd_Fin by lra. reflexivity.
Qed.

Lemma class_energy_cons (k : nat) (p a : Q) (pairs : list (Q * Q)) :
  class_energy k ((p, a) :: pairs)
  == (if Nat.eqb (pitch_class p) k then a else 0) + class_energy k pairs.
Proof.
  unfold class_energy. cbn [List.filter].
  destruct (Nat.eqb (pitch_class p) k).
  - rewrite fmap_cons, sum_cons. reflexivity.
  - ring.
Qed.

Lemma accumulate_all (pairs : list (Q * Q)) (cs : list Q) :
  length cs = 12%nat ->
  Forall (fun c => 0 <= c) cs ->
  Forall (fun a => 0 <= a) (snd <$> pairs) ->
  sum cs + sum (snd <$> pairs) < OVERFLOW ->
  exists cs',
    foldl (fun chroma '(p, a) => accumulate chroma p a) (Fin <$> cs) pairs
    = Fin <$> cs'
    /\ length cs' = 12%nat
    /\ Forall (fun c => 0 <= c) cs'
    /\ sum cs' == sum cs + sum (snd <$> pairs)
    /\ forall k c c', cs !! k = Some c -> cs' !! k = Some c' ->
                      c' == c + class_energy k pairs.
Proof.
  revert cs. induction pairs as [| [p a] pairs IH]; intros cs Hlen Hc Ha Hb.
  - exists cs. split; [reflexivity |]. split; [exact Hlen |].
    split; [exact Hc |]. split; [rewrite fmap_nil, sum_nil; ring |].
    intros k c c' Hk Hk'. rewrite Hk in Hk'. injection Hk' as <-.
    unfold class_energy. cbn [List.filter]. rewrite fmap_nil, sum_nil. ring.
  - rewrite fmap_cons in Ha, Hb. cbn [snd] in Ha, Hb.
    apply Forall_cons in Ha as [Ha0 Ha]. rewrite sum_cons in Hb.
    pose proof (sum_nonneg _ Ha) as Hs.
    cbn [foldl]. rewrite accumulate_Fin by (try assumption; lra).
    pose proof (pitch_class_lt_12 p) as Hp.
    destruct (IH (alter (fun c => c + a) (pitch_class p) cs))
      as (cs' & Hcs & Hl & Hn & Hsum & Hent).
    + now rewrite length_alter.
    + apply Forall_forall. intros c Hin.
      apply list_elem_of_lookup in Hin as [k Hk].
      destruct (decide (k = pitch_class p)) as [-> | Hne].
      * rewrite list_lookup_alter, decide_True in Hk by reflexivity.
        destruct (cs !! pitch_class p) as [c0 |] eqn:Hc0; [| discriminate].
        injection Hk as <-.
        rewrite Forall_forall in Hc.
        pose proof (Hc c0 (list_elem_of_lookup_2 _ _ _ Hc0)). lra.
      * rewrite list_lookup_alter_ne in Hk by congruence.
        rewrite Forall_forall in Hc.
        exact (Hc c (list_elem_of_lookup_2 _ _ _ Hk)).
    + exact Ha.
    + rewrite sum_alter by lia. lra.
    + exists cs'. split; [exact Hcs |]. split; [exact Hl |].
      split; [exact Hn |].
      split; [rewrite Hsum, sum_alter by lia; rewrite fmap_cons, sum_cons;
              cbn [snd]; ring |].
      intros k c c' Hk Hk'. rewrite class_energy_cons.
      destruct (decide (k = pitch_class p)) as [-> | Hne].
      * rewrite Nat.eqb_refl.
        rewrite (Hent (pitch_class p) (c + a) c');
          [ring | | exact Hk'].
        rewrite list_lookup_alter, decide_True by reflexivity.
        rewrite Hk. reflexivity.
      * assert (Nat.eqb (pitch_class p) k = false) as ->
          by (apply Nat.eqb_neq; congruence).
        rewrite (Hent k c c'); [ring | | exact Hk'].
        rewrite list_lookup_alter_ne by congruence. exact Hk.
Qed.

(** what the loop of [calculate_chroma_vector] has accumulated, and the
    total it finds, when the amplitudes it reads are not negative and their
    sum is inside the double range *)
Lemma chroma_accumulated (pitches : list pyfloat)
    (amplitudes : option (list pyfloat)) :
  Forall (fun a => 0 <= a) (paired_amplitudes pitches amplitudes) ->
  sum (paired_amplitudes pitches amplitudes) < OVERFLOW ->
  exists (cs : list Q) (t : Q),
    foldl (fun chroma '(p, a) => accumulate chroma p a)
      (replicate 12 (Fin 0)) (paired pitches amplitudes) = Fin <$> cs
    /\ np_sum (Fin <$> cs) = Fin t
    /\ length cs = 12%nat
    /\ Forall (fun c => 0 <= c) cs
    /\ t == sum (paired_amplitudes pitches amplitudes)
    /\ sum cs == t
    /\ forall k c, cs !! k = Some c ->
                   c == class_energy k (paired pitches amplitudes).
Proof.
  intros Hn Hb. unfold paired_amplitudes in *.
  set (pairs := paired pitches amplitudes) in *.
  change (replicate 12 (Fin 0)) with (Fin <$> replicate 12 0).
  destruct (accumulate_all pairs (replicate 12 0))
    as (cs & Hcs & Hl & Hcn & Hsum & Hent).
  { reflexivity. }
  { apply Forall_replicate. lra. }
  { exact Hn. }
  { rewrite sum_replicate_0. lra. }
  rewrite sum_replicate_0, Qplus_0_l in Hsum.
  destruct (np_sum_Fin cs Hcn) as (t & Ht & Hteq); [lra |].
  exists cs, t.
  split; [exact Hcs |]. split; [exact Ht |].
  split; [exact Hl |]. split; [exact Hcn |].
  split; [lra |]. split; [lra |].
  intros k c Hk.
  destruct (lookup_lt_is_Some_2 (replicate 12 0) k) as [z Hz].
  { rewrite length_replicate, <- Hl. now apply lookup_lt_Some in Hk. }
  pose proof Hz as Hz'. apply lookup_replicate in Hz' as [-> _].
  rewrite (Hent k 0 c Hz Hk). ring.
Qed.

(** what [calculate_chroma_vector] returns when, moreover, the total is
    positive *)
Lemma chroma_vector_normalised (pitches : list pyfloat)
    (amplitudes : option (list pyfloat)) :
  Forall (fun a => 0 <= a) (paired_amplitudes pitches amplitudes) ->
  0 < sum (paired_amplitudes pitches amplitudes) ->
  sum (paired_amplitudes pitches amplitudes) < OVERFLOW ->
  exists (cs : list Q) (t : Q),
    calculate_chroma_vector pitches amplitudes = Fin <$> ((fun c => c / t) <$> cs)
    /\ length cs = 12%nat
    /\ Forall (fun c => 0 <= c) cs
    /\ t == sum (paired_amplitudes pitches amplitudes)
    /\ sum cs == t
    /\ forall k c, cs !! k = Some c ->
                   c == class_energy k (paired pitches amplitudes).
Proof.
  intros Hn Hpos Hb.
  destruct (chroma_accumulated pitches amplitudes Hn Hb)
    as (cs & t & Hcs & Ht & Hl & Hcn & Hteq & Hsum & Hent).
  unfold calculate_chroma_vector. fold (paired pitches amplitudes).
  rewrite Hcs, Ht. cbn [positive].
  destruct (Qlt_le_dec 0 t) as [Ht0 | Ht0]; [| lra].
  exists cs, t.
  split.
  { rewrite <- !list_fmap_compose. apply list_fmap_ext.
    intros k c Hk. cbn [compose].
    pose proof (elem_le_sum cs k c Hcn Hk).
    rewrite Forall_forall in Hcn.
    pose proof (Hcn c (list_elem_of_lookup_2 _ _ _ Hk)).
    apply fdiv_Fin; lra. }
  auto.
Qed.

(** whatever the input, the vector has 12 entries *)
Lemma accumulate_length (chroma : list pyfloat) (p a : Q) :
  length (accumulate chroma p a) = length chroma.
Proof.
  unfold accumulate. destruct (_ && _); [apply length_alter | reflexivity].
Qed.

Lemma chroma_vector_length (pitches : list pyfloat)
    (amplitudes : option (list pyfloat)) :
  length (calculate_chroma_vector pitches amplitudes) = 12%nat.
Proof.
  unfold calculate_chroma_vector. fold (paired pitches amplitudes).
  assert (H : forall pairs chroma,
            length (foldl (fun chroma '(p, a) => accumulate chroma p a)
                      chroma pairs) = length chroma).
  { intros pairs. induction pairs as [| [p a] pairs IH]; intros chroma;
      [reflexivity |].
    cbn [foldl]. rewrite IH. apply accumulate_length. }
  destruct (positive _); [rewrite length_fmap |]; rewrite H; reflexivity.
Qed.

(** C9: when the amplitudes that are paired with a pitch are not negative
    and their total is positive and at most [2^1023] (so that no sum leaves
    the double range), [calculate_chroma_vector] returns 12 finite entries;
    the entry of a pitch class is the amplitude accumulated in that class
    (the class of a pitch is [int(round(p)) % 12]) divided by the total,
    and the entries add up to 1 (exactly, so also within 1e-6). *)
Theorem chroma_vector_sums_to_one (pitches : list pyfloat)
    (amplitudes : option (list pyfloat)) :
  Forall (fun a => 0 <= a) (paired_amplitudes pitches amplitudes) ->
  0 < sum (paired_amplitudes pitches amplitudes) ->
  sum (paired_amplitudes pitches amplitudes) <= HALF_RANGE ->
  exists chroma : list Q,
    calculate_chroma_vector pitches amplitudes = Fin <$> chroma
    /\ length chroma = 12%nat
    /\ (forall k c, chroma !! k = Some c ->
          c == class_energy k (paired pitches amplitudes)
               / sum (paired_amplitudes pitches amplitudes))
    /\ sum chroma == 1
    /\ Qabs (sum chroma - 1) <= 1 / 1000000.
Proof.
  intros Hn Hpos Hb. pose proof HALF_RANGE_lt.
  destruct (chroma_vector_normalised pitches amplitudes Hn Hpos)
    as (cs & t & Hc & Hl & Hcn & Ht & Hsum & Hent); [lra |].
  exists ((fun c => c / t) <$> cs).
  assert (Hone : sum ((fun c => c / t) <$> cs) == 1).
  { rewrite sum_divide, Hsum. field. lra. }
  split; [exact Hc |]. split; [now rewrite length_fmap |].
  split.
  { intros k c Hk. rewrite list_lookup_fmap in Hk.
    destruct (cs !! k) as [c0 |] eqn:Hc0; [| discriminate].
    injection Hk as <-. rewrite (Hent k c0 Hc0), Ht. reflexivity. }
  split; [exact Hone |].
  rewrite Hone. vm_compute. discriminate.
Qed.

Lemma chroma_vector_sums_to_one_witness :
  Forall (fun a => 0 <= a) (paired_amplitudes [Fin 60; Fin 64; Fin 67] None)
  /\ 0 < sum (paired_amplitudes [Fin 60; Fin 64; Fin 67] None)
  /\ sum (paired_amplitudes [Fin 60; Fin 64; Fin 67] None) <= HALF_RANGE
  /\ exists chroma : list Q,
       calculate_chroma_vector [Fin 60; Fin 64; Fin 67] None = Fin <$> chroma
       /\ length chroma = 12%nat
       /\ (forall k c, chroma !! k = Some c ->
             c == class_energy k (paired [Fin 60; Fin 64; Fin 67] None)
                  / sum (paired_amplitudes [Fin 60; Fin 64; Fin 67] None))
       /\ sum chroma == 1
       /\ Qabs (sum chroma - 1) <= 1 / 1000000.
Proof.
  assert (H1 : Forall (fun a => 0 <= a)
                 (paired_amplitudes [Fin 60; Fin 64; Fin 67] None))
    by (repeat constructor; vm_compute; intro; discriminate).
  assert (H2 : 0 < sum (paired_amplitudes [Fin 60; Fin 64; Fin 67] None))
    by reflexivity.
  assert (H3 : sum (paired_amplitudes [Fin 60; Fin 64; Fin 67] None) <= HALF_RANGE)
    by (vm_compute; intro; discriminate).
  split; [exact H1 |]. split; [exact H2 |]. split; [exact H3 |].
  exact (chroma_vector_sums_to_one [Fin 60; Fin 64; Fin 67] None H1 H2 H3).
Defined.

(** two amplitudes of [2^1023] in different pitch classes: their total is
    positive, the sum of the accumulated entries is an infinity, and every
    entry divided by it is 0 *)
Lemma chroma_vector_overflow_all_zero :
  0 < sum (paired_amplitudes [Fin 60; Fin 61]
             (Some [Fin HALF_RANGE; Fin HALF_RANGE]))
  /\ calculate_chroma_vector [Fin 60; Fin 61]
       (Some [Fin HALF_RANGE; Fin HALF_RANGE])
     = replicate 12 (Fin 0).
Proof.
  split; [reflexivity |]. vm_compute. reflexivity.
Qed.
End chroma.

(** ** Validation of the input of [calcular_metricas] *)

Section validation.
Import Metricas.

Lemma truthy_false {A} (l : list A) : truthy l = false <-> l = [].
Proof. destruct l; simpl; split; congruence. Qed.

(** C3: when one of the four input lists is empty or missing, or when
    their lengths differ, [calcular_metricas] raises InputError; the outcome
    and the records logged (by the two handlers the exception goes through)
    are the same whatever the later stages are, so none of them has run. *)
Theorem calcular_metricas_rejects_invalid_input (d : input_data) :
  some_list_empty d \/ ~ same_length d ->
  exists msg,
    forall (Resultados : Type)
           (stages : list pystr -> list pystr -> list pystr -> list Z ->
                     input_data -> M Resultados),
      calcular_metricas stages d
      = (Raise (InputError msg),
         [LogError (py "Erro ao calcular métricas: " ++ msg);
          LogError (py "ERR_INPUT: " ++ msg)]).
Proof.
  intros H.
  destruct (truthy (get (notes d)) && truthy (get (dynamics d))
            && truthy (get (instruments d)) && truthy (get (num_instruments d)))
    eqn:Ht.
  - destruct H as [H | H].
    { exfalso. rewrite !andb_true_iff in Ht. destruct Ht as [[[H1 H2] H3] H4].
      destruct H as [H | [H | [H | H]]]; apply truthy_false in H; congruence. }
    exists (py "Listas de entrada devem ter o mesmo comprimento.").
    intros Resultados stages.
    unfold calcular_metricas, calcular_metricas_body. rewrite Ht. cbn [negb].
    destruct (bool_decide (length (get (notes d)) = length (get (dynamics d)))
              && bool_decide (length (get (dynamics d)) = length (get (instruments d)))
              && bool_decide (length (get (instruments d))
                              = length (get (num_instruments d)))) eqn:Hl.
    { exfalso. apply H. rewrite !andb_true_iff, !bool_decide_eq_true in Hl.
      unfold same_length. tauto. }
    vm_compute. reflexivity.
  - exists (py "Notas, dinâmicas, instrumentos e quantidades são obrigatórios.").
    intros Resultados stages.
    unfold calcular_metricas, calcular_metricas_body. rewrite Ht.
    vm_compute. reflexivity.
Qed.

Lemma calcular_metricas_rejects_invalid_input_witness :
  (some_list_empty empty_input \/ ~ same_length empty_input)
  /\ exists msg,
       forall (Resultados : Type)
              (stages : list pystr -> list pystr -> list pystr -> list Z ->
                        input_data -> M Resultados),
         calcular_metricas stages empty_input
         = (Raise (InputError msg),
            [LogError (py "Erro ao calcular métricas: " ++ msg);
             LogError (py "ERR_INPUT: " ++ msg)]).
Proof.
  assert (H : some_list_empty empty_input \/ ~ same_length empty_input)
    by (left; left; reflexivity).
  split; [exact H |].
  exact (calcular_metricas_rejects_invalid_input empty_input H).
Defined.

(** On well-formed input the later stages do run. *)
Lemma calcular_metricas_runs_stages {Resultados : Type}
    (stages : list pystr -> list pystr -> list pystr -> list Z ->
              input_data -> M Resultados) (d : input_data) :
  ~ some_list_empty d -> same_length d ->
  calcular_metricas_body stages d
  = try_except
      (stages (get (notes d)) (get (dynamics d)) (get (instruments d))
              (get (num_instruments d)) d)
      (fun e =>
         emit (LogError (py "Erro ao calcular métricas: " ++ ErrorHandler.message e));;
         raise e).
Proof.
  intros Hne (H1 & H2 & H3). unfold calcular_metricas_body, some_list_empty in *.
  destruct (get (notes d)) eqn:E1; [tauto |].
  destruct (get (dynamics d)) eqn:E2; [tauto |].
  destruct (get (instruments d)) eqn:E3; [tauto |].
  destruct (get (num_instruments d)) eqn:E4; [tauto |].
  simpl truthy. simpl negb.
  rewrite !bool_decide_eq_true_2 by assumption. reflexivity.
Qed.
End validation.

(** ** The minimum-interval rule of the pair loops *)

Section minimum_interval.
Import DensidadeIntervalar.
Local Open Scope R_scope.

(** In [densidade_intervalar.calcular_densidade_intervalar] two different
    note strings never reach the decay function with less than 0.01
    semitone between them: a smaller distance is replaced by 0.25. *)
Lemma delta_semitons_used_rule {U : Unicode} (notas : list pystr)
    (pitches : list Q) (i j : nat) (ni nj : pystr) (d : Q) :
  delta_semitons_used notas pitches i j = Ok d ->
  notas !! i = Some ni -> notas !! j = Some nj -> ni <> nj ->
  (0.01 <= d)%Q
  /\ forall pi pj, pitches !! i = Some pi -> pitches !! j = Some pj ->
       (Qabs (pi - pj) < 0.01)%Q -> d = 0.25%Q.
Proof.
  unfold delta_semitons_used. intros H Hi Hj Hne.
  destruct (index pitches i) as [pi |] eqn:Epi; cbn [mbind result_bind] in H;
    [| discriminate].
  destruct (index pitches j) as [pj |] eqn:Epj; cbn [mbind result_bind] in H;
    [| discriminate].
  apply index_Ok in Epi, Epj.
  apply index_Ok in Hi, Hj. rewrite Hi, Hj in H. cbn [mbind result_bind] in H.
  assert (Hneq : eqb ni nj = false) by (unfold eqb; now apply bool_decide_eq_false).
  rewrite Hneq in H. cbn [negb] in H.
  destruct (Qlt_le_dec (Qabs (pi - pj)) 0.01) as [Hlt | Hge].
  - assert (Hd : py_max (Qabs (pi - pj)) 0.25 = d) by congruence.
    subst d. unfold py_max.
    destruct (Qlt_le_dec (Qabs (pi - pj)) 0.25) as [_ | Hc].
    + split; [vm_compute; intro; discriminate |]. reflexivity.
    + exfalso. apply (Qlt_irrefl 0.25).
      apply Qle_lt_trans with (Qabs (pi - pj)); [exact Hc |].
      apply Qlt_trans with 0.01%Q; [exact Hlt | reflexivity].
  - assert (Hd : Qabs (pi - pj) = d) by congruence.
    subst d. split; [exact Hge |].
    intros pi' pj' Hi' Hj' Hlt. exfalso.
    rewrite Epi in Hi'. rewrite Epj in Hj'.
    injection Hi' as <-. injection Hj' as <-.
    apply (Qlt_irrefl 0.01). now apply Qle_lt_trans with (Qabs (pi - pj)).
Qed.

Lemma valid_psicoaustica_enharmonic_pair :
  @DataProcessor.valid_psicoaustica ascii_unicode enharmonic_pair
  = ([61 # 1; 61 # 1]%Q, enharmonic_pair).
Proof. vm_compute. reflexivity. Qed.

Lemma valid_com_cents_enharmonic_pair :
  @DataProcessor.valid_com_cents ascii_unicode enharmonic_pair
  = ([61 # 1; 61 # 1]%Q, enharmonic_pair).
Proof. vm_compute. reflexivity. Qed.

Lemma pitches_enharmonic_pair :
  comprehension (fun nota => fst (@Microtonal.note_to_midi ascii_unicode nota))
    (List.filter (fun nota => negb (eqb nota [])) enharmonic_pair)
  = Ok [61 # 1; 61 # 1]%Q.
Proof. vm_compute. reflexivity. Qed.

(** [Q2R] of a rational constant *)
Ltac q2r :=
  unfold Q2R;
  repeat match goal with
    | |- context [Qnum ?q] =>
        let v := eval vm_compute in (Qnum q) in change (Qnum q) with v
    | |- context [Qden ?q] =>
        let v := eval vm_compute in (Qden q) in change (Qden q) with v
    end.

Ltac set_half :=
  match goal with
  | |- context [Q2R ?q] => replace (Q2R q) with 0.5 by (q2r; lra)
  end.

Lemma Q2R_unison : Q2R (Qabs ((61 # 1) - (61 # 1)) * 2) = 0.
Proof. q2r. lra. Qed.

Lemma delta_semitons_used_enharmonic_pair :
  delta_semitons_used enharmonic_pair [61 # 1; 61 # 1]%Q 0 1 = Ok 0.25%Q.
Proof. vm_compute. reflexivity. Qed.

Ltac run_loop :=
  cbn [for_each range seq Nat.sub Nat.add length index lookup list_lookup
       mbind result_bind fmap list_fmap negb
       DataProcessor.delta_semitons_psicoaustica].

(** C6, at the input [["C#4", "Db4"]] (two spellings, both MIDI 61):
    [data_processor.calcular_densidade_intervalar_psicoaustica] hands the
    distance 0 to the decay function and counts the pair as a unison
    (density 1), while [calcular_densidade_intervalar] and
    [calcular_densidade_intervalar_com_cents] replace the distance by 0.25
    and return [exp (- 0.05 * 0.5)], which is smaller. *)
Theorem psicoaustica_counts_enharmonic_pair_as_unison :
  @DataProcessor.delta_semitons_psicoaustica [61 # 1; 61 # 1]%Q 0 1 = Ok (0 # 1)%Q
  /\ @DataProcessor.calcular_densidade_intervalar_psicoaustica ascii_unicode
       None enharmonic_pair 0.05 false false = Ok 1
  /\ @delta_semitons_used enharmonic_pair [61 # 1; 61 # 1]%Q 0 1 = Ok 0.25%Q
  /\ @calcular_densidade_intervalar ascii_unicode None enharmonic_pair (Some 0.05) false
     = Ok (exp (- (0.05) * 0.5))
  /\ @DataProcessor.calcular_densidade_intervalar_com_cents ascii_unicode
       None enharmonic_pair 0.05 = Ok (exp (- (0.05) * 0.5))
  /\ exp (- (0.05) * 0.5) < 1.
Proof.
  split; [vm_compute; reflexivity |].
  split.
  { unfold DataProcessor.calcular_densidade_intervalar_psicoaustica.
    rewrite valid_psicoaustica_enharmonic_pair.
    rewrite !bool_decide_eq_false_2 by (simpl; lia).
    run_loop.
    rewrite Q2R_unison, decaimento_unison. f_equal. lra. }
  split; [exact delta_semitons_used_enharmonic_pair |].
  split.
  { unfold calcular_densidade_intervalar.
    rewrite pitches_enharmonic_pair. run_loop.
    rewrite delta_semitons_used_enharmonic_pair. run_loop.
    set_half.
    rewrite decaimento_positive_delta by lra. f_equal. lra. }
  split.
  { unfold DataProcessor.calcular_densidade_intervalar_com_cents.
    rewrite valid_com_cents_enharmonic_pair.
    rewrite !bool_decide_eq_false_2 by (simpl; lia).
    run_loop.
    destruct (Qlt_le_dec (Qabs ((61 # 1) - (61 # 1))) 0.01) as [_ | Hc];
      [| exfalso; revert Hc; vm_compute; intros Hc; now apply Hc].
    unfold enharmonic_pair. run_loop.
    replace (eqb (py "C#4") (py "Db4")) with false by (vm_compute; reflexivity).
    run_loop. set_half.
    rewrite decaimento_positive_delta by lra. f_equal. lra. }
  rewrite <- exp_0. apply exp_increasing. lra.
Qed.
End minimum_interval.

(** ** The pattern matcher *)

Section matcher.
Import Re.

Lemma backtrack_Some {A} (k lo : nat) (f : nat -> option A) (r : A) :
  backtrack k lo f = Some r -> exists j, (lo <= j <= k)%nat /\ f j = Some r.
Proof.
  induction k as [| k IH]; simpl.
  - destruct (0 <? lo)%nat eqn:E; [discriminate |].
    apply Nat.ltb_ge in E. destruct (f 0%nat) eqn:Ef; [| discriminate].
    intros [= <-]. exists 0%nat. split; [lia | exact Ef].
  - destruct (S k <? lo)%nat eqn:E; [discriminate |].
    apply Nat.ltb_ge in E. destruct (f (S k)) eqn:Ef.
    + intros [= <-]. exists (S k). split; [lia | exact Ef].
    + intros H. destruct (IH H) as (j & Hj & Hf). exists j. split; [lia | exact Hf].
Qed.

Lemma backtrack_None {A} (k lo : nat) (f : nat -> option A) :
  backtrack k lo f = None -> forall j, (lo <= j <= k)%nat -> f j = None.
Proof.
  induction k as [| k IH]; simpl.
  - destruct (0 <? lo)%nat eqn:E; [apply Nat.ltb_lt in E; intros; lia |].
    destruct (f 0%nat) eqn:Ef; [discriminate |].
    intros _ j Hj. now replace j with 0%nat by lia.
  - destruct (S k <? lo)%nat eqn:E; [apply Nat.ltb_lt in E; intros; lia |].
    destruct (f (S k)) eqn:Ef; [discriminate |].
    intros H j Hj. destruct (decide (j = S k)) as [-> | Hne]; [exact Ef |].
    apply IH; [exact H | lia].
Qed.

Lemma prefix_len_le (P : char -> bool) (n : nat) (s : pystr) :
  (prefix_len P n s <= n)%nat /\ (prefix_len P n s <= length s)%nat.
Proof.
  revert s. induction n as [| n IH]; intros [| c s]; simpl; try lia.
  destruct (P c); simpl; [| lia]. specialize (IH s). lia.
Qed.

Lemma prefix_len_Forall (P : char -> bool) (n : nat) (s : pystr) (j : nat) :
  (j <= prefix_len P n s)%nat -> Forall (fun c => P c = true) (take j s).
Proof.
  revert s j. induction n as [| n IH]; intros [| c s] j Hj; simpl in *;
    try (replace j with 0%nat by lia; constructor).
  destruct (P c) eqn:Ec; [| replace j with 0%nat by lia; constructor].
  destruct j as [| j]; [constructor |].
  simpl. constructor; [exact Ec | apply IH; lia].
Qed.

Lemma prefix_len_max (P : char -> bool) (n : nat) (s part rest : pystr) :
  s = part ++ rest -> (length part <= n)%nat ->
  Forall (fun c => P c = true) part ->
  (length part <= prefix_len P n s)%nat.
Proof.
  intros -> . revert n. induction part as [| c part IH]; intros n Hn Hall; simpl;
    [lia |].
  destruct n as [| n]; simpl in *; [lia |].
  inversion Hall as [| ? ? Hc Hall']; subst. rewrite Hc.
  specialize (IH n ltac:(lia) Hall'). lia.
Qed.

Lemma match_atoms_sound (p : list atom) (s : pystr) (parts : list pystr) :
  match_atoms p s = Some parts -> splits p s parts.
Proof.
  revert s parts. induction p as [| a p IH]; intros s parts; simpl.
  - destruct s; [| discriminate]. intros [= <-]. split; [reflexivity | constructor].
  - intros H. apply backtrack_Some in H. destruct H as (j & Hj & H).
    destruct (match_atoms p (drop j s)) as [parts' |] eqn:E; [| discriminate].
    injection H as <-. destruct (IH _ _ E) as [Hc Hf].
    pose proof (prefix_len_le (cls a) (bound a s) s) as [Hb Hl].
    split.
    + simpl. rewrite Hc. apply take_drop.
    + constructor; [| exact Hf].
      split; [rewrite length_take; lia |].
      split.
      * intros h Hh. rewrite length_take. unfold bound in Hb, Hj.
        rewrite Hh in Hb, Hj. lia.
      * apply prefix_len_Forall with (n := bound a s). lia.
Qed.

Lemma match_atoms_complete (p : list atom) (s : pystr) (parts : list pystr) :
  splits p s parts -> is_Some (match_atoms p s).
Proof.
  revert s parts. induction p as [| a p IH]; intros s parts [Hc Hf].
  - inversion Hf; subst. simpl. eauto.
  - inversion Hf as [| ? part ? parts' (Hlo & Hhi & Hall) Hf']; subst.
    simpl concat. simpl match_atoms.
    set (f := fun k => match match_atoms p (drop k (part ++ concat parts')) with
                       | Some parts0 => Some (take k (part ++ concat parts') :: parts0)
                       | None => None
                       end).
    destruct (backtrack _ _ f) eqn:E; [eauto |].
    exfalso.
    assert (Hk : (length part
                  <= prefix_len (cls a) (bound a (part ++ concat parts'))
                       (part ++ concat parts'))%nat).
    { apply prefix_len_max with (rest := concat parts'); [reflexivity | | exact Hall].
      unfold bound. destruct (hi a) as [h |] eqn:Eh; [now apply Hhi |].
      rewrite length_app. lia. }
    pose proof (backtrack_None _ _ _ E (length part) ltac:(lia)) as Hn.
    unfold f in Hn. rewrite drop_app_length in Hn.
    destruct (IH (concat parts') parts' (conj eq_refl Hf')) as [r Hr].
    rewrite Hr in Hn. discriminate.
Qed.

Lemma concat_fmap_inv (f : char -> char) (parts : list pystr) (s : pystr) :
  concat parts = fmap (M := list) f s ->
  exists chunks, concat chunks = s /\ parts = fmap (M := list) (fmap (M := list) f) chunks.
Proof.
  revert s. induction parts as [| part parts IH]; intros s H; simpl in H.
  - exists []. split; [| reflexivity].
    destruct s; [reflexivity | discriminate].
  - assert (Hp : part = f <$> take (length part) s).
    { rewrite fmap_take, <- H, take_app_length. reflexivity. }
    assert (Hr : concat parts = f <$> drop (length part) s).
    { rewrite fmap_drop, <- H, drop_app_length. reflexivity. }
    destruct (IH _ Hr) as (chunks & Hc & Hparts).
    exists (take (length part) s :: chunks). split.
    + simpl. rewrite Hc. apply take_drop.
    + rewrite fmap_cons. now rewrite <- Hp, <- Hparts.
Qed.

Lemma match_atoms_transfer (f g : char -> char) (p p' : list atom) (s : pystr) :
  Forall2 (atom_le f g) p p' ->
  is_Some (match_atoms p (fmap (M := list) f s)) ->
  is_Some (match_atoms p' (fmap (M := list) g s)).
Proof.
  intros Hpp [parts H]. apply match_atoms_sound in H. destruct H as [Hc Hf].
  destruct (concat_fmap_inv f parts s Hc) as (chunks & Hs & ->).
  apply match_atoms_complete with (parts := fmap (M := list) (fmap (M := list) g) chunks).
  split.
  - rewrite <- Hs. clear. induction chunks as [| c chunks IH]; csimpl; [reflexivity |].
    now rewrite fmap_app, IH.
  - clear Hc Hs. revert p' Hpp chunks Hf.
    induction p as [| a p IH]; intros p' Hpp chunks Hf.
    + inversion Hpp; subst. destruct chunks; [constructor | inversion Hf].
    + inversion Hpp as [| ? a' ? p'' (Hlo & Hhi & Hcls) Hpp']; subst.
      destruct chunks as [| c chunks]; [inversion Hf |].
      csimpl in Hf. inversion Hf as [| ? ? ? ? (Flo & Fhi & Fall) Hf']; subst.
      csimpl. constructor; [| now apply IH].
      rewrite length_fmap in Flo, Fhi.
      split; [rewrite length_fmap; lia |]. split.
      * intros h Hh. rewrite length_fmap. apply Fhi. congruence.
      * rewrite Forall_fmap in *. eapply Forall_impl; [exact Fall |].
        intros x Hx. simpl in *. now apply Hcls.
Qed.

Lemma fullmatch_is_Some (r : re) (s : pystr) :
  is_Some (fullmatch r s) <-> is_Some (match_atoms (List.flat_map atoms r) s).
Proof.
  unfold fullmatch. destruct (match_atoms _ s); split; intros [x H]; eauto; discriminate.
Qed.

Lemma fullmatch_match_dollar (r : re) (s : pystr) :
  is_Some (fullmatch r s) -> is_Some (match_dollar r s).
Proof. unfold match_dollar. intros [g ->]. eauto. Qed.

Lemma snoc_match_dollar (r : re) (s : pystr) :
  is_Some (fullmatch r s) -> is_Some (match_dollar r (s ++ [NEWLINE])).
Proof.
  intros H. unfold match_dollar.
  destruct (fullmatch r (s ++ [NEWLINE])); [eauto |].
  rewrite last_snoc, N.eqb_refl, removelast_last. exact H.
Qed.

Lemma fullmatch_transfer (f g : char -> char) (r r' : re) (s : pystr) :
  Forall2 (atom_le f g) (List.flat_map atoms r) (List.flat_map atoms r') ->
  is_Some (fullmatch r (fmap (M := list) f s)) ->
  is_Some (fullmatch r' (fmap (M := list) g s)).
Proof.
  intros Hle. rewrite !fullmatch_is_Some. now apply match_atoms_transfer.
Qed.

Lemma match_dollar_transfer (f g : char -> char) (r r' : re) (s : pystr) :
  (forall c, f c = NEWLINE -> c = NEWLINE) -> g NEWLINE = NEWLINE ->
  Forall2 (atom_le f g) (List.flat_map atoms r) (List.flat_map atoms r') ->
  is_Some (match_dollar r (fmap (M := list) f s)) ->
  is_Some (match_dollar r' (fmap (M := list) g s)).
Proof.
  intros Hf Hg Hle [x H]. unfold match_dollar in H.
  destruct (fullmatch r (f <$> s)) as [y |] eqn:E.
  { apply fullmatch_match_dollar. eapply fullmatch_transfer; eauto. }
  destruct (last (f <$> s)) as [c |] eqn:El; [| discriminate].
  destruct (c =? NEWLINE)%N eqn:Ec; [| discriminate].
  apply N.eqb_eq in Ec. subst c.
  destruct (exists_last (l := s)) as (s0 & c0 & ->).
  { intros ->. discriminate. }
  rewrite fmap_app in El, H. simpl in El, H.
  rewrite last_snoc in El. injection El as El. apply Hf in El. subst c0.
  rewrite removelast_last in H.
  rewrite fmap_app. simpl. rewrite Hg.
  apply snoc_match_dollar. eapply fullmatch_transfer; eauto.
Qed.
End matcher.

(** ** Decimal digits *)

Section digits.
Context {U : Unicode} {HU : UnicodeOk U}.

Lemma is_digit_value (c : char) :
  is_digit c = true -> exists d, digit_value c = Some d /\ (0 <= d <= 9)%Z.
Proof.
  unfold is_digit. destruct (digit_value c) as [d |] eqn:E; [| discriminate].
  intros _. exists d. split; [reflexivity | now apply (digit_value_range c)].
Qed.

(** a decimal digit is none of the other characters the patterns name *)
Lemma digit_not_named (c : char) :
  is_digit c = true ->
  c <> PLUS /\ c <> MINUS /\ c <> LOWER_C /\ c <> NEWLINE /\ c <> HASH
  /\ c <> SUSTENIDO_MUSICAL.
Proof.
  intros H.
  assert (Hn : forall x, note_char x -> ascii_digit x = None -> c <> x).
  { intros x Hx Hd ->. unfold is_digit in H.
    rewrite (digit_value_note x Hx), Hd in H. discriminate. }
  repeat split; apply Hn; try reflexivity;
    unfold note_char, PLUS, MINUS, LOWER_C, NEWLINE, HASH, SUSTENIDO_MUSICAL;
    try (left; lia); tauto.
Qed.

Lemma int_digit (c : char) :
  is_digit c = true -> exists d, int [c] = mret d /\ (0 <= d <= 9)%Z.
Proof.
  intros H. destruct (digit_not_named c H) as (Hp & Hm & _).
  destruct (is_digit_value c H) as (d & Hd & Hr).
  exists d. split; [| exact Hr].
  unfold int, py_int.
  rewrite (proj2 (N.eqb_neq c PLUS) Hp), (proj2 (N.eqb_neq c MINUS) Hm).
  simpl. rewrite Hd. reflexivity.
Qed.

Lemma digits_value_two (l : pystr) :
  (1 <= length l <= 2)%nat -> Forall (fun c => is_digit c = true) l ->
  exists v, digits_value 0 l = Some v /\ (0 <= v <= 99)%Z.
Proof.
  intros Hlen Hall.
  destruct l as [| c1 [| c2 [| c3 l]]]; simpl in Hlen; try lia.
  - inversion Hall as [| ? ? H1 _]; subst.
    destruct (is_digit_value c1 H1) as (d1 & E1 & R1).
    exists d1. simpl. rewrite E1. split; [f_equal; lia | lia].
  - inversion Hall as [| ? ? H1 Hall']; subst.
    inversion Hall' as [| ? ? H2 _]; subst.
    destruct (is_digit_value c1 H1) as (d1 & E1 & R1).
    destruct (is_digit_value c2 H2) as (d2 & E2 & R2).
    exists (10 * (10 * 0 + d1) + d2)%Z. simpl. rewrite E1, E2.
    split; [reflexivity | lia].
Qed.

Lemma int_signed (sg : char) (l : pystr) :
  cls_sign sg = true -> (1 <= length l <= 2)%nat ->
  Forall (fun c => is_digit c = true) l ->
  exists v, int (sg :: l) = mret v /\ (-99 <= v <= 99)%Z.
Proof.
  intros Hs Hlen Hall.
  destruct (digits_value_two l Hlen Hall) as (v & Hv & Hr).
  unfold int, py_int, cls_sign in *.
  destruct (sg =? PLUS)%N eqn:Ep.
  - exists v. destruct l; [simpl in Hlen; lia |]. rewrite Hv. split; [reflexivity | lia].
  - simpl in Hs. rewrite Hs. exists (- v)%Z.
    destruct l; [simpl in Hlen; lia |]. rewrite Hv. split; [reflexivity | lia].
Qed.
End digits.

(** ** Texts the atoms consume *)

Section parts.
Import Re.

Lemma fits_one (P : char -> bool) (part : pystr) :
  fits (one P) part -> exists c, part = [c] /\ P c = true.
Proof.
  intros (Hlo & Hhi & Hall). simpl in *. specialize (Hhi 1%nat eq_refl).
  destruct part as [| c [| c' part]]; simpl in *; try lia.
  exists c. split; [reflexivity |]. now inversion Hall.
Qed.

Lemma fits_opt (P : char -> bool) (part : pystr) :
  fits (opt P) part -> part = [] \/ exists c, part = [c] /\ P c = true.
Proof.
  intros (Hlo & Hhi & Hall). simpl in *. specialize (Hhi 1%nat eq_refl).
  destruct part as [| c [| c' part]]; simpl in *; try lia; [now left |].
  right. exists c. split; [reflexivity |]. now inversion Hall.
Qed.

Lemma fits_rep (P : char -> bool) (a b : nat) (part : pystr) :
  fits (rep P a b) part ->
  (a <= length part <= b)%nat /\ Forall (fun c => P c = true) part.
Proof.
  intros (Hlo & Hhi & Hall). simpl in *. specialize (Hhi b eq_refl). split; [lia | exact Hall].
Qed.

Lemma fits_lit (x : char) (part : pystr) : fits (lit x) part -> part = [x].
Proof.
  intros H. apply fits_one in H. destruct H as (c & -> & Hc).
  apply N.eqb_eq in Hc. now subst.
Qed.
End parts.

(** ** [microtonal.note_to_midi] *)

Section microtonal_note_to_midi.
Context {U : Unicode} {HU : UnicodeOk U}.
Import Re Microtonal.
Local Open Scope Q_scope.

Ltac split_parts H :=
  repeat (apply Forall2_cons_inv_l in H as (? & ? & ? & H & ->));
  apply Forall2_nil_inv_l in H as ->.

Ltac matched E :=
  unfold fullmatch in E;
  let parts := fresh "parts" in
  let E2 := fresh "E" in
  destruct (match_atoms _ _) as [parts |] eqn:E2 in E; [| discriminate E];
  apply match_atoms_sound in E2; destruct E2 as [? E2];
  cbn [flat_map atoms cap raw app] in E2; split_parts E2;
  cbn [groups atoms capture cap raw length take drop concat app] in E.

Lemma ESCALA_CROMATICA_range (k : pystr) (e : Z) :
  ESCALA_CROMATICA !! k = Some e -> (0 <= e <= 11)%Z.
Proof.
  apply (map_Forall_lookup_1 (fun _ v => (0 <= v <= 11)%Z)).
  apply map_Forall_to_list.
  let l := eval vm_compute in (map_to_list ESCALA_CROMATICA) in
  change (map_to_list ESCALA_CROMATICA) with l.
  repeat constructor; simpl; lia.
Qed.

Lemma pitch_bounds (o e : Z) (delta : Q) :
  (0 <= o <= 9)%Z -> (0 <= e <= 11)%Z -> - (1 # 2) <= delta <= 1 # 2 ->
  23 # 2 <= inject_Z ((o + 1) * 12 + e) + delta <= 263 # 2.
Proof.
  intros Ho He Hd.
  assert (H1 : inject_Z 12 <= inject_Z ((o + 1) * 12 + e))
    by (rewrite <- Zle_Qle; lia).
  assert (H2 : inject_Z ((o + 1) * 12 + e) <= inject_Z 131)
    by (rewrite <- Zle_Qle; lia).
  unfold inject_Z at 1 in H1. unfold inject_Z at 2 in H2.
  split; lra.
Qed.

(** the value a matching step returns: 12 semitones per octave, the octave
    digit from 0 to 9, the pitch class from 0 to 11 *)
Lemma step_return (base : pystr) (d : char) (delta : Q) (e : Z) :
  is_digit d = true -> (0 <= e <= 11)%Z -> - (1 # 2) <= delta <= 1 # 2 ->
  returns_within (23 # 2) (263 # 2)
    (o ← int [d];
     e ← lift (KeyError base) (Some e);
     mret (inject_Z ((o + 1) * 12 + e) + delta)).
Proof.
  intros Hd Hre Hdelta. destruct (int_digit d Hd) as (o & Ho & Hr).
  exists (inject_Z ((o + 1) * 12 + e) + delta). split; [| now apply pitch_bounds].
  rewrite Ho. reflexivity.
Qed.

Ltac digit_part :=
  match goal with
  | H4 : fits (one is_digit) _ |- _ =>
      let Hd := fresh "Hd" in apply fits_one in H4 as (? & -> & Hd)
  end.

Lemma arrow_step_value (arrow : char) (delta : Q) (note : pystr) (m : M Q) :
  - (1 # 2) <= delta <= 1 # 2 ->
  arrow_step arrow delta note = Some m -> returns_within (23 # 2) (263 # 2) m.
Proof.
  unfold arrow_step. intros Hdelta H.
  destruct (fullmatch _ note) as [g |] eqn:E; [| discriminate].
  matched E. injection E as <-. digit_part.
  cbn [app] in H. unfold dict_in in H.
  destruct (ESCALA_CROMATICA !! _) as [e |] eqn:He; [| discriminate].
  injection H as <-.
  exact (step_return [] _ delta e Hd (ESCALA_CROMATICA_range _ _ He) Hdelta).
Qed.

Lemma quarter_step_value (note : pystr) (m : M Q) :
  quarter_step note = Some m -> returns_within (23 # 2) (263 # 2) m.
Proof.
  unfold quarter_step. intros H.
  destruct (fullmatch _ note) as [g |] eqn:E; [| discriminate].
  matched E. injection E as <-. digit_part.
  cbn [app] in H. unfold dict_in in H.
  destruct (ESCALA_CROMATICA !! _) as [e |] eqn:He; [| discriminate].
  injection H as <-.
  destruct (eqb _ _);
    refine (step_return [] _ _ e Hd (ESCALA_CROMATICA_range _ _ He) _);
    split; vm_compute; intro; discriminate.
Qed.

Lemma standard_step_value (note : pystr) (m : M Q) :
  standard_step note = Some m -> returns_within (23 # 2) (263 # 2) m.
Proof.
  unfold standard_step. intros H.
  destruct (fullmatch _ note) as [g |] eqn:E; [| discriminate].
  matched E. injection E as <-. digit_part.
  cbn [app] in H. unfold dict_in in H.
  destruct (ESCALA_CROMATICA !! _) as [e |] eqn:He; [| discriminate].
  injection H as <-.
  destruct (int_digit _ Hd) as (o & Ho & Hr).
  pose proof (ESCALA_CROMATICA_range _ _ He) as Hre.
  exists (inject_Z ((o + 1) * 12 + e)). split; [rewrite Ho; reflexivity |].
  pose proof (pitch_bounds o e 0 Hr Hre ltac:(split; vm_compute; intro; discriminate)).
  lra.
Qed.

Lemma note_to_midi_fuel_S (n : nat) (note : pystr) :
  note_to_midi_fuel (S n) note
  = if bool_decide (note = []) then mret 60 else
      let note := replace SUSTENIDO_MUSICAL (py "#") note in
      '(base_note, cents_value) ← extract_cents note;
      if negb (cents_value =? 0)%Z then
        v ← note_to_midi_fuel n base_note;
        mret (v + inject_Z cents_value / 100)
      else
        or_else (arrow_step QUARTO_TOM_ACIMA (- (1 # 2)) note) (
        or_else (arrow_step QUARTO_TOM_ABAIXO (1 # 2) note) (
        or_else (quarter_step note) (
        or_else (standard_step note) (
          emit (LogWarning (py "Formato de nota não reconhecido: " ++ note));;
          mret 60)))).
Proof. reflexivity. Qed.

(** steps 2 to 5 of [note_to_midi] and the fallback *)
Lemma steps_value (note : pystr) :
  exists v w,
    or_else (arrow_step QUARTO_TOM_ACIMA (- (1 # 2)) note) (
    or_else (arrow_step QUARTO_TOM_ABAIXO (1 # 2) note) (
    or_else (quarter_step note) (
    or_else (standard_step note) (
      emit (LogWarning (py "Formato de nota não reconhecido: " ++ note));;
      mret 60)))) = (Ok v, w)
    /\ 23 # 2 <= v <= 263 # 2.
Proof.
  destruct (arrow_step QUARTO_TOM_ACIMA _ note) as [m |] eqn:E1.
  { apply arrow_step_value in E1 as (v & -> & Hv);
      [| split; vm_compute; intro; discriminate].
    exists v, []. split; [reflexivity | exact Hv]. }
  destruct (arrow_step QUARTO_TOM_ABAIXO _ note) as [m |] eqn:E2.
  { apply arrow_step_value in E2 as (v & -> & Hv);
      [| split; vm_compute; intro; discriminate].
    exists v, []. split; [reflexivity | exact Hv]. }
  destruct (quarter_step note) as [m |] eqn:E3.
  { apply quarter_step_value in E3 as (v & -> & Hv).
    exists v, []. split; [reflexivity | exact Hv]. }
  destruct (standard_step note) as [m |] eqn:E4.
  { apply standard_step_value in E4 as (v & -> & Hv).
    exists v, []. split; [reflexivity | exact Hv]. }
  exists 60, [LogWarning (py "Formato de nota não reconhecido: " ++ note)].
  split; [reflexivity |]. split; vm_compute; intro; discriminate.
Qed.

Lemma try_except_returns {A} (m : M A) (a : A) (r : record) :
  exists x w, try_except m (fun _ => emit r;; mret a) = (Ok x, w).
Proof.
  destruct m as [[x | e] w]; simpl; eauto.
Qed.

Lemma extract_cents_returns (nota : pystr) :
  exists b c w, extract_cents nota = (Ok (b, c), w).
Proof.
  unfold extract_cents. destruct (negb _); [eexists _, _, _; reflexivity |].
  match goal with |- context [try_except ?m (fun _ => emit ?r;; mret ?a)] =>
    destruct (try_except_returns m a r) as ([b c] & w & ->) end.
  eauto.
Qed.

Lemma cls_09_is_digit (c : char) : cls_09 c = true -> is_digit c = true.
Proof.
  unfold cls_09, in_range, is_digit. intros H.
  rewrite (digit_value_note c).
  - unfold ascii_digit. now rewrite H.
  - left. apply andb_true_iff in H as [_ H]. apply N.leb_le in H. lia.
Qed.

Lemma match_dollar_fullmatch (r : re) (s : pystr) (g : list pystr) :
  match_dollar r s = Some g ->
  fullmatch r s = Some g
  \/ exists s', s = s' ++ [NEWLINE] /\ fullmatch r s' = Some g.
Proof.
  unfold match_dollar. destruct (fullmatch r s); [intros [= <-]; now left |].
  destruct (last s) as [c |] eqn:El; [| discriminate].
  destruct (c =? NEWLINE)%N eqn:Ec; [| discriminate].
  apply N.eqb_eq in Ec. subst c. intros H. right.
  exists (removelast s). split; [| exact H].
  destruct (exists_last (l := s)) as (s' & c & ->).
  { intros ->. discriminate. }
  rewrite last_snoc in El. injection El as ->.
  now rewrite removelast_last.
Qed.

Ltac use_fits :=
  repeat match goal with
    | H : fits (lit _) _ |- _ => apply fits_lit in H as ->
    | H : fits (one _) _ |- _ => apply fits_one in H as (? & -> & ?)
    | H : fits (opt _) _ |- _ => apply fits_opt in H as [-> | (? & -> & ?)]
    | H : fits (rep _ _ _) _ |- _ => apply fits_rep in H as [? ?]
    end.

Lemma Forall_09_digit (ds : pystr) :
  Forall (fun c => cls_09 c = true) ds -> Forall (fun c => is_digit c = true) ds.
Proof. intros H. eapply Forall_impl; [exact H |]. intros c. apply cls_09_is_digit. Qed.

(** what a cents pattern captures: a base note that ends with the octave
    digit, and a sign followed by one or two digits *)
Lemma cents_groups (r : re) (s : pystr) (g : list pystr) :
  r ∈ cents_patterns -> fullmatch r s = Some g ->
  exists b sg ds,
    g = [b; sg :: ds] /\ ends_with_digit b /\ cls_sign sg = true
    /\ (1 <= length ds <= 2)%nat /\ Forall (fun c => is_digit c = true) ds.
Proof.
  unfold cents_patterns. rewrite !elem_of_cons, elem_of_nil.
  intros [-> | [-> | [-> | [-> | []]]]] E; matched E; injection E as <-;
    use_fits; cbn [app];
    (eexists _, _, _; split; [rewrite app_nil_r; reflexivity |]);
    (split; [eexists; split; [reflexivity |]; auto using cls_09_is_digit |]);
    (split; [assumption |]); (split; [assumption |]);
    auto using Forall_09_digit.
Qed.

Lemma match_dollar_cents (r : re) (s : pystr) (g : list pystr) :
  r ∈ cents_patterns -> match_dollar r s = Some g ->
  exists b sg ds,
    g = [b; sg :: ds] /\ ends_with_digit b /\ cls_sign sg = true
    /\ (1 <= length ds <= 2)%nat /\ Forall (fun c => is_digit c = true) ds.
Proof.
  intros Hr H. apply match_dollar_fullmatch in H as [H | (s' & _ & H)];
    eauto using cents_groups.
Qed.

Lemma first_match_elem (ps : list re) (s : pystr) (g : list pystr) :
  first_match ps s = Some g -> exists r, r ∈ ps /\ match_dollar r s = Some g.
Proof.
  induction ps as [| p ps IH]; simpl; [discriminate |].
  destruct (match_dollar p s) as [g' |] eqn:E.
  - intros [= <-]. exists p. split; [apply list_elem_of_here | exact E].
  - intros H. destruct (IH H) as (r & Hr & Hm).
    exists r. split; [now apply list_elem_of_further | exact Hm].
Qed.

Lemma ends_with_digit_replace (x y : char) (b : pystr) :
  (forall d, is_digit d = true -> d <> x) ->
  ends_with_digit b -> ends_with_digit (replace x [y] b).
Proof.
  intros Hx (d & Hl & Hd). apply last_Some in Hl as [pre ->].
  exists d. split; [| exact Hd].
  unfold replace. rewrite flat_map_app. simpl.
  rewrite (proj2 (N.eqb_neq d x) (Hx d Hd)). apply last_snoc.
Qed.

Lemma extract_cents_nonzero (nota b : pystr) (c : Z) (w : list record) :
  extract_cents nota = (Ok (b, c), w) -> c <> 0%Z ->
  ends_with_digit b /\ (-99 <= c <= 99)%Z.
Proof.
  unfold extract_cents. intros H Hc.
  destruct (negb _); [injection H as <- <- <-; contradiction |].
  destruct (match_dollar _RE_CENTS nota) as [g |] eqn:E1.
  - apply match_dollar_cents in E1 as (b0 & sg & ds & -> & Hb & Hs & Hl & Hd);
      [| apply list_elem_of_here].
    destruct (int_signed sg ds Hs Hl Hd) as (v & Hv & Hr).
    simpl in H. rewrite Hv in H. simpl in H.
    injection H as <- <- <-. split; [exact Hb | exact Hr].
  - destruct (first_match _ _) as [g |] eqn:E2.
    + apply first_match_elem in E2 as (r & Hr & E2).
      apply match_dollar_cents in E2 as (b0 & sg & ds & -> & Hb & Hs & Hl & Hd);
        [| now apply list_elem_of_further].
      destruct (int_signed sg ds Hs Hl Hd) as (v & Hv & Hrange).
      simpl in H. rewrite Hv in H. simpl in H.
      injection H as <- <- <-. split; [| exact Hrange].
      destruct (_ && _); [| exact Hb].
      apply ends_with_digit_replace; [| exact Hb].
      intros d Hdg. now apply digit_not_named.
    + simpl in H. injection H as <- <- <-. contradiction.
Qed.

Lemma fullmatch_cents_last (r : re) (s : pystr) (g : list pystr) :
  r ∈ cents_patterns -> fullmatch r s = Some g -> last s = Some LOWER_C.
Proof.
  unfold cents_patterns. rewrite !elem_of_cons, elem_of_nil.
  intros [-> | [-> | [-> | [-> | []]]]] E; matched E; use_fits; subst s;
    cbn [concat app]; rewrite ?app_nil_r; repeat rewrite app_comm_cons;
    apply last_snoc.
Qed.

Lemma ends_with_digit_no_cents (r : re) (b : pystr) :
  r ∈ cents_patterns -> ends_with_digit b -> match_dollar r b = None.
Proof.
  intros Hr (d & Hl & Hd).
  destruct (digit_not_named d Hd) as (_ & _ & Hc & Hn & _).
  destruct (match_dollar r b) as [g |] eqn:E; [| reflexivity].
  exfalso. apply match_dollar_fullmatch in E as [E | (s' & -> & E)].
  - apply (fullmatch_cents_last r b g Hr) in E. congruence.
  - rewrite last_snoc in Hl. congruence.
Qed.

Lemma ends_with_digit_cents_free (b : pystr) :
  ends_with_digit b -> extract_cents b = mret (b, 0%Z).
Proof.
  intros Hb. unfold extract_cents.
  destruct (negb _); [reflexivity |].
  rewrite (ends_with_digit_no_cents _RE_CENTS b) by (apply list_elem_of_here || exact Hb).
  assert (Hb' : ends_with_digit (replace SUSTENIDO_MUSICAL (py "#") b)).
  { apply ends_with_digit_replace; [| exact Hb].
    intros d Hd. now apply digit_not_named. }
  unfold first_match.
  rewrite !ends_with_digit_no_cents;
    try exact Hb'; try reflexivity;
    unfold cents_patterns; rewrite !elem_of_cons; tauto.
Qed.

Lemma ends_with_digit_nonempty (b : pystr) : ends_with_digit b -> b <> [].
Proof. intros (d & Hl & _) ->. discriminate. Qed.

(** the recursive call made for a cents suffix: its argument has no cents
    suffix of its own *)
Lemma note_to_midi_fuel_base (n : nat) (b : pystr) :
  ends_with_digit b ->
  exists v w, note_to_midi_fuel (S n) b = (Ok v, w) /\ 23 # 2 <= v <= 263 # 2.
Proof.
  intros Hb. rewrite note_to_midi_fuel_S.
  rewrite bool_decide_eq_false_2 by now apply ends_with_digit_nonempty.
  cbv zeta.
  assert (Hb' : ends_with_digit (replace SUSTENIDO_MUSICAL (py "#") b)).
  { apply ends_with_digit_replace; [| exact Hb].
    intros d Hd. now apply digit_not_named. }
  rewrite (ends_with_digit_cents_free _ Hb').
  destruct (steps_value (replace SUSTENIDO_MUSICAL (py "#") b)) as (v & w & Hs & Hv).
  exists v, w. split; [| exact Hv].
  change (mret (replace SUSTENIDO_MUSICAL (py "#") b, 0%Z) ≫= _) with
    (bind (ret (replace SUSTENIDO_MUSICAL (py "#") b, 0%Z))
       (fun '(base_note, cents_value) =>
          if negb (cents_value =? 0)%Z
          then v ← note_to_midi_fuel n base_note;
               mret (v + inject_Z cents_value / 100)
          else
            or_else (arrow_step QUARTO_TOM_ACIMA (- (1 # 2))
                       (replace SUSTENIDO_MUSICAL (py "#") b)) (
            or_else (arrow_step QUARTO_TOM_ABAIXO (1 # 2)
                       (replace SUSTENIDO_MUSICAL (py "#") b)) (
            or_else (quarter_step (replace SUSTENIDO_MUSICAL (py "#") b)) (
            or_else (standard_step (replace SUSTENIDO_MUSICAL (py "#") b)) (
              emit (LogWarning (py "Formato de nota não reconhecido: "
                                ++ replace SUSTENIDO_MUSICAL (py "#") b));;
              mret 60)))))).
  unfold bind, ret. cbn [Z.eqb negb]. rewrite Hs. reflexivity.
Qed.

Lemma bind_Ok {A B} (a : A) (w : list record) (k : A -> M B) :
  (Ok a, w) ≫= k = (let '(r, w') := k a in (r, w ++ w')).
Proof. reflexivity. Qed.

Lemma bind_Ok' {A B} (a : A) (k : A -> M B) : mret a ≫= k = k a.
Proof.
  change (mret a ≫= k) with (let '(r, w') := k a in (r, [] ++ w')).
  now destruct (k a).
Qed.

Lemma cents_bounds (v : Q) (c : Z) :
  23 # 2 <= v <= 263 # 2 -> (-99 <= c <= 99)%Z ->
  1051 # 100 <= v + inject_Z c / 100 <= 13249 # 100.
Proof.
  intros Hv Hc.
  assert (H1 : inject_Z (-99) <= inject_Z c) by (rewrite <- Zle_Qle; lia).
  assert (H2 : inject_Z c <= inject_Z 99) by (rewrite <- Zle_Qle; lia).
  unfold inject_Z at 1 in H1. unfold inject_Z at 2 in H2.
  unfold Qdiv. change (/ 100) with (1 # 100).
  generalize dependent (inject_Z c). intros q H1 H2. split; lra.
Qed.

(** [microtonal.note_to_midi] returns for every string, with a value
    between 10.51 (C↑0-99c) and 132.49 (B↓9+99c): two levels of recursion
    are enough, within any recursion limit. *)
Lemma note_to_midi_fuel_returns (n : nat) (note : pystr) :
  exists v w, note_to_midi_fuel (S (S n)) note = (Ok v, w)
              /\ 1051 # 100 <= v <= 13249 # 100.
Proof.
  rewrite note_to_midi_fuel_S.
  destruct (bool_decide (note = [])).
  { exists 60, []. split; [reflexivity |]. split; vm_compute; intro; discriminate. }
  cbv zeta. set (note' := replace SUSTENIDO_MUSICAL (py "#") note).
  destruct (extract_cents_returns note') as (b & c & w0 & He).
  rewrite He.
  destruct (Z.eqb_spec c 0) as [-> | Hc].
  - destruct (steps_value note') as (v & w & Hs & Hv).
    exists v, (w0 ++ w). split; [| split; lra].
    change ((Ok (b, 0%Z), w0) ≫= _) with
      (let '(r, w') :=
         or_else (arrow_step QUARTO_TOM_ACIMA (- (1 # 2)) note') (
         or_else (arrow_step QUARTO_TOM_ABAIXO (1 # 2) note') (
         or_else (quarter_step note') (
         or_else (standard_step note') (
           emit (LogWarning (py "Formato de nota não reconhecido: " ++ note'));;
           mret 60)))) in (r, w0 ++ w')).
    rewrite Hs. reflexivity.
  - destruct (extract_cents_nonzero _ _ _ _ He Hc) as [Hb Hr].
    destruct (note_to_midi_fuel_base n b Hb) as (v & w & Hv & Hbound).
    exists (v + inject_Z c / 100), (w0 ++ (w ++ [])).
    split; [| now apply cents_bounds].
    rewrite bind_Ok. cbn beta iota.
    apply Z.eqb_neq in Hc. rewrite Hc. cbn [negb]. rewrite Hv. reflexivity.
Qed.

Lemma note_to_midi_returns (note : pystr) :
  exists v w, note_to_midi note = (Ok v, w) /\ 1051 # 100 <= v <= 13249 # 100.
Proof. apply (note_to_midi_fuel_returns 998). Qed.

(** *** A string the validator rejects gets the fallback value *)

Lemma replace_fmap (x y : char) (s : pystr) :
  replace x [y] s = fmap (M := list) (fun c => if (c =? x)%N then y else c) s.
Proof.
  unfold replace. induction s as [| c s IH]; csimpl; [reflexivity |].
  rewrite IH. now destruct (c =? x)%N.
Qed.

Lemma replace_to_hash (s : pystr) :
  replace SUSTENIDO_MUSICAL (py "#") s = fmap (M := list) to_hash s.
Proof. apply replace_fmap. Qed.

Lemma replace_to_music_sharp (s : pystr) :
  replace HASH [SUSTENIDO_MUSICAL] s = fmap (M := list) to_music_sharp s.
Proof. apply replace_fmap. Qed.

Lemma to_hash_idem (s : pystr) :
  fmap (M := list) to_hash (fmap (M := list) to_hash s) = fmap (M := list) to_hash s.
Proof.
  rewrite <- list_fmap_compose. apply list_fmap_ext. intros _ c _.
  unfold compose, to_hash. destruct (c =? SUSTENIDO_MUSICAL)%N eqn:E; [reflexivity |].
  now rewrite E.
Qed.

Ltac by_cases c :=
  unfold to_hash, to_music_sharp;
  destruct (N.eqb_spec c SUSTENIDO_MUSICAL) as [-> | ?];
  [| destruct (N.eqb_spec c HASH) as [-> | ?]];
  try (vm_compute; congruence).

Lemma le_letter (c : char) :
  cls_letter (to_hash c) = true -> cls_letter (to_music_sharp c) = true.
Proof. by_cases c. Qed.

Lemma le_acc (c : char) :
  cls_acc (to_hash c) = true -> cls_acc3 (to_music_sharp c) = true.
Proof. by_cases c. unfold cls_acc3. now intros ->. Qed.

Lemma le_acc3 (c : char) :
  cls_acc3 (to_hash c) = true -> cls_acc3 (to_music_sharp c) = true.
Proof. by_cases c. Qed.

Lemma le_sign (c : char) :
  cls_sign (to_hash c) = true -> cls_sign (to_music_sharp c) = true.
Proof. by_cases c. Qed.

Lemma le_lit (x : char) (c : char) :
  x <> HASH -> x <> SUSTENIDO_MUSICAL ->
  (to_hash c =? x)%N = true -> (to_music_sharp c =? x)%N = true.
Proof.
  intros H1 H2. by_cases c; rewrite !N.eqb_eq; congruence.
Qed.

Lemma le_lit_arrow (x : char) (c : char) :
  cls_arrow x = true ->
  (to_hash c =? x)%N = true -> cls_arrow (to_music_sharp c) = true.
Proof.
  intros Hx. by_cases c; rewrite N.eqb_eq; try congruence.
  - intros <-. revert Hx. vm_compute. congruence.
  - intros <-. revert Hx. vm_compute. congruence.
Qed.

Lemma le_digit (c : char) :
  is_digit (to_hash c) = true -> is_digit (to_music_sharp c) = true.
Proof.
  by_cases c; intros H; try exact H;
    destruct (digit_not_named _ H) as (_ & _ & _ & _ & Hh & Hs); congruence.
Qed.

Lemma le_09 (c : char) :
  cls_09 (to_hash c) = true -> is_digit (to_music_sharp c) = true.
Proof.
  intros H. apply le_digit. now apply cls_09_is_digit.
Qed.

(** the same, towards the string as it was given *)
Lemma le_id_letter (c : char) : cls_letter (to_hash c) = true -> cls_letter c = true.
Proof. by_cases c. Qed.

Lemma le_id_acc (c : char) : cls_acc (to_hash c) = true -> cls_acc3 c = true.
Proof. by_cases c. unfold cls_acc3. now intros ->. Qed.

Lemma le_id_sign (c : char) : cls_sign (to_hash c) = true -> cls_sign c = true.
Proof. by_cases c. Qed.

Lemma le_id_arrow (c : char) : cls_arrow (to_hash c) = true -> cls_arrow c = true.
Proof. by_cases c. Qed.

Lemma le_id_09 (c : char) : cls_09 (to_hash c) = true -> cls_09 c = true.
Proof. by_cases c. Qed.

Lemma le_id_lit_c (c : char) :
  (to_hash c =? LOWER_C)%N = true -> (c =? LOWER_C)%N = true.
Proof. by_cases c. Qed.

Ltac atoms_le :=
  cbn [flat_map atoms cap raw app];
  repeat (constructor;
          [split; [reflexivity | split; [reflexivity |]]; cbn [cls one opt rep lit];
           first [ exact le_letter | exact le_acc | exact le_acc3 | exact le_sign
                 | exact le_digit | exact le_09
                 | exact le_id_letter | exact le_id_acc | exact le_id_sign
                 | exact le_id_arrow | exact le_id_09 | exact le_id_lit_c
                 | (intros c; apply le_lit; vm_compute; congruence)
                 | (intros c; apply le_lit_arrow; reflexivity) ]
          |]);
  constructor.

Lemma to_hash_newline (c : char) : to_hash c = NEWLINE -> c = NEWLINE.
Proof. by_cases c. Qed.

(** what [is_valid_note] being false says *)
Lemma is_valid_note_false (nota : pystr) :
  nota <> [] -> is_valid_note nota = false ->
  let nn := fmap (M := list) to_music_sharp nota in
  match_dollar _RE_STANDARD nn = None
  /\ match_dollar _RE_QUARTER nn = None
  /\ match_dollar _RE_ARROW nn = None
  /\ match_dollar _RE_CENTS nn = None
  /\ match_dollar valid_arrow_cents nota = None
  /\ match_dollar valid_quarter_cents nota = None.
Proof.
  intros Hne. unfold is_valid_note.
  rewrite bool_decide_eq_false_2 by exact Hne.
  rewrite replace_to_music_sharp. cbv zeta.
  destruct (match_dollar _RE_STANDARD _); cbn [matches orb]; [discriminate |].
  destruct (match_dollar _RE_QUARTER _); cbn [matches orb]; [discriminate |].
  destruct (match_dollar _RE_ARROW _); cbn [matches orb]; [discriminate |].
  destruct (match_dollar _RE_CENTS _); cbn [matches orb]; [discriminate |].
  cbn [existsb].
  destruct (match_dollar valid_arrow_cents nota); cbn [matches orb]; [discriminate |].
  destruct (match_dollar valid_quarter_cents nota); cbn [matches orb];
    [destruct (matches _); discriminate |].
  tauto.
Qed.

Lemma not_Some_None {A} (o : option A) : ~ is_Some o -> o = None.
Proof. destruct o; [intros H; exfalso; apply H; eauto | reflexivity]. Qed.

Lemma invalid_extract_cents (nota : pystr) :
  nota <> [] -> is_valid_note nota = false ->
  extract_cents (fmap (M := list) to_hash nota)
  = mret (fmap (M := list) to_hash nota, 0%Z).
Proof.
  intros Hne Hv.
  destruct (is_valid_note_false nota Hne Hv) as (_ & _ & _ & Hc & Ha & Hq).
  unfold extract_cents. destruct (negb _); [reflexivity |].
  rewrite (not_Some_None (match_dollar _RE_CENTS (to_hash <$> nota))).
  2:{ intros H. apply (match_dollar_transfer to_hash to_music_sharp _ _RE_CENTS) in H;
        [rewrite Hc in H; now destruct H | exact to_hash_newline | reflexivity | atoms_le]. }
  rewrite replace_to_hash, to_hash_idem. unfold first_match.
  rewrite (not_Some_None (match_dollar cents_plain (to_hash <$> nota))).
  2:{ intros H. apply (match_dollar_transfer to_hash to_music_sharp _ _RE_CENTS) in H;
        [rewrite Hc in H; now destruct H | exact to_hash_newline | reflexivity | atoms_le]. }
  rewrite (not_Some_None (match_dollar cents_arrow (to_hash <$> nota))).
  2:{ intros H.
      apply (match_dollar_transfer to_hash (fun c => c) _ valid_arrow_cents) in H;
        [rewrite list_fmap_id in H; rewrite Ha in H; now destruct H
        | exact to_hash_newline | reflexivity | atoms_le]. }
  rewrite (not_Some_None (match_dollar cents_quarter (to_hash <$> nota))).
  2:{ intros H.
      apply (match_dollar_transfer to_hash (fun c => c) _ valid_quarter_cents) in H;
        [rewrite list_fmap_id in H; rewrite Hq in H; now destruct H
        | exact to_hash_newline | reflexivity | atoms_le]. }
  reflexivity.
Qed.

Lemma invalid_fullmatch (r r' : re) (nota : pystr) :
  Forall2 (atom_le to_hash to_music_sharp)
    (List.flat_map atoms r) (List.flat_map atoms r') ->
  match_dollar r' (fmap (M := list) to_music_sharp nota) = None ->
  fullmatch r (fmap (M := list) to_hash nota) = None.
Proof.
  intros Hle Hn. apply not_Some_None. intros H.
  apply (fullmatch_transfer to_hash to_music_sharp r r' nota Hle) in H.
  apply fullmatch_match_dollar in H. rewrite Hn in H. now destruct H.
Qed.

Lemma invalid_steps (nota : pystr) (d1 d2 : Q) :
  nota <> [] -> is_valid_note nota = false ->
  let note := fmap (M := list) to_hash nota in
  arrow_step QUARTO_TOM_ACIMA d1 note = None
  /\ arrow_step QUARTO_TOM_ABAIXO d2 note = None
  /\ quarter_step note = None
  /\ standard_step note = None.
Proof.
  intros Hne Hv.
  destruct (is_valid_note_false nota Hne Hv) as (Hs & Hq & Ha & _).
  cbv zeta. unfold arrow_step, quarter_step, standard_step.
  rewrite (invalid_fullmatch _ _RE_ARROW nota) by (atoms_le || exact Ha).
  rewrite (invalid_fullmatch _ _RE_ARROW nota) by (atoms_le || exact Ha).
  rewrite (invalid_fullmatch _ _RE_QUARTER nota) by (atoms_le || exact Hq).
  rewrite (invalid_fullmatch _ _RE_STANDARD nota) by (atoms_le || exact Hs).
  tauto.
Qed.

(** on a string [is_valid_note] rejects, [note_to_midi] returns 60 and logs
    one warning (none for the empty string) *)
Lemma note_to_midi_invalid (nota : pystr) :
  is_valid_note nota = false ->
  note_to_midi nota
  = (Ok 60,
     if bool_decide (nota = []) then []
     else [LogWarning (py "Formato de nota não reconhecido: "
                       ++ replace SUSTENIDO_MUSICAL (py "#") nota)]).
Proof.
  intros Hv. unfold note_to_midi. change recursion_limit with (S 999).
  rewrite note_to_midi_fuel_S.
  case_bool_decide as Hne; [reflexivity |].
  cbv zeta. rewrite replace_to_hash.
  rewrite (invalid_extract_cents nota Hne Hv).
  destruct (invalid_steps nota (- (1 # 2)) (1 # 2) Hne Hv) as (H1 & H2 & H3 & H4).
  rewrite bind_Ok'. cbn [Z.eqb negb].
  rewrite H1, H2, H3, H4. reflexivity.
Qed.
End microtonal_note_to_midi.

(** ** The database restricted to the note alphabet *)

Lemma ascii_unicode_ok : UnicodeOk ascii_unicode.
Proof.
  constructor; try reflexivity.
  intros c d. simpl. unfold ascii_digit.
  destruct ((48 <=? c)%N && (c <=? 57)%N) eqn:E; [| discriminate].
  apply andb_true_iff in E as [E1 E2]. apply N.leb_le in E1, E2.
  intros [= <-]. lia.
Qed.

(** ** Range and totality of [microtonal.note_to_midi] *)

Section note_to_midi_range.
Local Open Scope Q_scope.

(** C5 fails at the valid note A9: its MIDI value is 129. *)
Lemma note_to_midi_A9_above_127 :
  @Microtonal.is_valid_note ascii_unicode (py "A9") = true
  /\ @Notes.is_valid_note ascii_unicode (py "A9") = true
  /\ @Microtonal.note_to_midi ascii_unicode (py "A9") = (Ok 129, [])
  /\ ~ 129 <= 127.
Proof.
  split; [vm_compute; reflexivity |].
  split; [vm_compute; reflexivity |].
  split; [vm_compute; reflexivity |].
  vm_compute. intros H. now apply H.
Qed.

(** C5, amended: for every string a note validator accepts,
    [microtonal.note_to_midi] returns a value from 0 to 132.49 (at least
    10.51); the bound 127 is exceeded in octave 9. *)
Theorem valid_note_midi_range {U : Unicode} (HU : UnicodeOk U) (note : pystr) :
  Microtonal.is_valid_note note = true \/ Notes.is_valid_note note = true ->
  exists v w, Microtonal.note_to_midi note = (Ok v, w)
              /\ 0 <= v <= 13249 # 100 /\ 1051 # 100 <= v.
Proof.
  intros _. destruct (note_to_midi_returns note) as (v & w & H & Hlo & Hhi).
  exists v, w. split; [exact H |]. split; [split; lra | exact Hlo].
Qed.

Lemma valid_note_midi_range_witness :
  UnicodeOk ascii_unicode
  /\ (@Microtonal.is_valid_note ascii_unicode (py "B↓9+99c") = true
      \/ @Notes.is_valid_note ascii_unicode (py "B↓9+99c") = true)
  /\ exists v w, @Microtonal.note_to_midi ascii_unicode (py "B↓9+99c") = (Ok v, w)
                 /\ 0 <= v <= 13249 # 100 /\ 1051 # 100 <= v.
Proof.
  split; [exact ascii_unicode_ok |].
  assert (H : @Microtonal.is_valid_note ascii_unicode (py "B↓9+99c") = true
              \/ @Notes.is_valid_note ascii_unicode (py "B↓9+99c") = true)
    by (left; vm_compute; reflexivity).
  split; [exact H |].
  exact (valid_note_midi_range ascii_unicode_ok (py "B↓9+99c") H).
Defined.

(** the two ends of the range are reached *)
Lemma note_to_midi_extremes :
  (exists v, @Microtonal.note_to_midi ascii_unicode (py "B↓9+99c") = (Ok v, [])
             /\ v == 13249 # 100)
  /\ (exists v, @Microtonal.note_to_midi ascii_unicode (py "C↑0-99c") = (Ok v, [])
                /\ v == 1051 # 100).
Proof. split; eexists; (split; [vm_compute; reflexivity | reflexivity]). Qed.

(** C2 fails for [utils.notes.note_to_midi]: an unrecognized format raises
    ValueError. *)
Lemma notes_note_to_midi_raises :
  @Notes.note_to_midi ascii_unicode (py "H4")
  = (Raise (ValueError (py "Formato de nota inválido: H4")), []).
Proof. vm_compute. reflexivity. Qed.

(** C2, amended: [microtonal.note_to_midi] never raises: for every string it
    returns a value, and for a string that [is_valid_note] rejects the value
    is 60.0, with one warning logged (none for the empty string). *)
Theorem microtonal_note_to_midi_never_raises {U : Unicode} (HU : UnicodeOk U)
    (note : pystr) :
  exists v w,
    Microtonal.note_to_midi note = (Ok v, w)
    /\ (Microtonal.is_valid_note note = false ->
        v = 60
        /\ w = if bool_decide (note = []) then []
               else [LogWarning (py "Formato de nota não reconhecido: "
                                 ++ replace SUSTENIDO_MUSICAL (py "#") note)]).
Proof.
  destruct (note_to_midi_returns note) as (v & w & H & _).
  exists v, w. split; [exact H |].
  intros Hv. rewrite (note_to_midi_invalid note Hv) in H.
  injection H as <- <-. split; reflexivity.
Qed.

Lemma microtonal_note_to_midi_never_raises_witness :
  UnicodeOk ascii_unicode
  /\ exists v w,
       @Microtonal.note_to_midi ascii_unicode (py "H4") = (Ok v, w)
       /\ (@Microtonal.is_valid_note ascii_unicode (py "H4") = false ->
           v = 60
           /\ w = if bool_decide (py "H4" = []) then []
                  else [LogWarning (py "Formato de nota não reconhecido: "
                                    ++ replace SUSTENIDO_MUSICAL (py "#") (py "H4"))]).
Proof.
  split; [exact ascii_unicode_ok |].
  exact (microtonal_note_to_midi_never_raises ascii_unicode_ok (py "H4")).
Defined.
End note_to_midi_range.

(** ** The quarter-tone arrows *)

Section arrows.
Local Open Scope Q_scope.

Lemma returnsb_spec (r : result Q) (q : Q) : returnsb r q = true -> returns r q.
Proof. destruct r; simpl; [apply Qeq_bool_iff | discriminate]. Qed.

Lemma arrow_conventionb_spec (base : pystr) (d : char) :
  arrow_conventionb base d = true -> arrow_convention base d.
Proof.
  unfold arrow_conventionb, arrow_convention.
  destruct (via_microtonal (base ++ [d])) as [v |]; [| discriminate].
  rewrite !andb_true_iff. intros ((((H1 & H2) & H3) & H4) & H5).
  exists v. repeat split; try reflexivity; now apply returnsb_spec.
Qed.

Lemma arrow_convention_checked :
  forallb (fun base => forallb (arrow_conventionb base) octave_digits)
          chromatic_bases = true.
Proof. vm_compute. reflexivity. Qed.

(** [utils.serialize_utils] defines a [note_to_midi] of its own, with the
    two arrows the other way round: there C↑4 is 60.5 and C↓4 is 59.5. *)
Lemma serialize_utils_arrows_inverted :
  returns (via_serialize_utils (py "C4")) 60
  /\ returns (via_serialize_utils (py "C↑4")) (60 + (1 # 2))
  /\ returns (via_serialize_utils (py "C↓4")) (60 - (1 # 2))
  /\ returns (via_microtonal (py "C↑4")) (60 - (1 # 2))
  /\ returns (via_microtonal (py "C↓4")) (60 + (1 # 2)).
Proof.
  split; [vm_compute; reflexivity |].
  split; [vm_compute; reflexivity |].
  split; [vm_compute; reflexivity |].
  split; vm_compute; reflexivity.
Qed.

(** An arrow note with a cents suffix: [microtonal.note_to_midi] reads
    C↑4+50c as C↑4 plus 50 cents, 60.0; [normalize_note_string] turns it
    into C+4+50c, which [utils.notes.note_to_midi] does not read. *)
Lemma arrow_with_cents_parts :
  (exists v, @Microtonal.note_to_midi ascii_unicode (py "C↑4+50c") = (Ok v, [])
             /\ v == 60)
  /\ normalized (py "C↑4+50c") = Ok (py "C+4+50c")
  /\ via_notes (py "C↑4+50c")
     = Raise (ValueError (py "Formato de nota inválido: C+4+50c")).
Proof.
  split; [eexists; split; [vm_compute; reflexivity | reflexivity] |].
  split; vm_compute; reflexivity.
Qed.

(** On the spellings that [ESCALA_CROMATICA] knows (upper or lower case,
    [#], [♯] or [b]) and every octave digit, both
    [microtonal.note_to_midi] and [utils.notes.normalize_note_string]
    followed by [utils.notes.note_to_midi] lower the note by 0.5 for [↑]
    and raise it by 0.5 for [↓], and give the same values. *)
Lemma arrow_convention_on_chromatic_bases (base : pystr) (d : char) :
  base ∈ chromatic_bases -> d ∈ octave_digits -> arrow_convention base d.
Proof.
  intros Hb Hd. apply arrow_conventionb_spec.
  pose proof arrow_convention_checked as H.
  rewrite forallb_forall in H. apply list_elem_of_In in Hb, Hd.
  specialize (H base Hb). rewrite forallb_forall in H. exact (H d Hd).
Qed.

Lemma falls_backb_spec (note : pystr) :
  falls_backb note = true -> falls_back note.
Proof.
  unfold falls_backb, falls_back.
  destruct (Microtonal.note_to_midi note) as [[v |] [| [| | msg | |] [|]]];
    try discriminate.
  rewrite !andb_true_iff. intros [[Hv Hd] Hm].
  unfold eqb in Hm. apply bool_decide_eq_true in Hm. subst msg.
  destruct v as [n dn]. cbn [Qden] in Hd. apply Pos.eqb_eq in Hd. subst dn.
  apply Qeq_bool_iff in Hv. unfold Qeq in Hv. cbn in Hv.
  replace n with 60%Z by lia. reflexivity.
Qed.

Lemma arrow_lostb_spec (base : pystr) (d : char) :
  arrow_lostb base d = true -> arrow_lost base d.
Proof.
  unfold arrow_lostb, arrow_lost. rewrite !andb_true_iff.
  intros [[[H1 H2] H3] H4]. repeat (split; [now apply falls_backb_spec |]).
  destruct (via_notes (base ++ [d])) as [v |]; [| discriminate].
  rewrite !andb_true_iff, !negb_true_iff in H4.
  destruct H4 as [[[H4 H5] H6] H7]. exists v.
  split; [reflexivity |].
  split; [now apply returnsb_spec |]. split; [now apply returnsb_spec |].
  split; intros E; apply Qeq_bool_iff in E; congruence.
Qed.

Lemma arrow_lost_checked :
  forallb (fun base => forallb (arrow_lostb base) octave_digits)
          unknown_bases = true.
Proof. vm_compute. reflexivity. Qed.

(** the four spellings, in both cases and with both glyphs of the sharp *)
Lemma unknown_bases_are :
  unknown_bases
  = [py "B#"; py "B♯"; py "Cb"; py "E#"; py "E♯"; py "Fb";
     py "b#"; py "b♯"; py "cb"; py "e#"; py "e♯"; py "fb"].
Proof. vm_compute. reflexivity. Qed.

(** C1 (a defect of the code): on the spellings E#, B#, Cb and Fb, which
    its patterns match and [ESCALA_CROMATICA] does not hold,
    [microtonal.note_to_midi] applies no arrow: for every octave digit it
    answers the note, its [↑] form and its [↓] form alike with the fallback
    60.0 and a warning, while [utils.notes.normalize_note_string] followed
    by [utils.notes.note_to_midi] gives the note a value, 0.5 less to its
    [↑] form and 0.5 more to its [↓] form, never 60. *)
Theorem arrow_lost_on_unknown_bases (base : pystr) (d : char) :
  base ∈ unknown_bases -> d ∈ octave_digits -> arrow_lost base d.
Proof.
  intros Hb Hd. apply arrow_lostb_spec.
  pose proof arrow_lost_checked as H.
  rewrite forallb_forall in H. apply list_elem_of_In in Hb, Hd.
  specialize (H base Hb). rewrite forallb_forall in H. exact (H d Hd).
Qed.

Lemma arrow_lost_on_unknown_bases_witness :
  py "E#" ∈ unknown_bases /\ (52%N : char) ∈ octave_digits
  /\ arrow_lost (py "E#") 52%N.
Proof.
  assert (Hb : py "E#" ∈ unknown_bases)
    by (rewrite list_elem_of_In; vm_compute;
        repeat (first [left; reflexivity | right])).
  assert (Hd : (52%N : char) ∈ octave_digits)
    by (rewrite list_elem_of_In; vm_compute;
        repeat (first [left; reflexivity | right])).
  split; [exact Hb |]. split; [exact Hd |].
  exact (arrow_lost_on_unknown_bases (py "E#") 52%N Hb Hd).
Defined.

End arrows.

(** ** Normalisation *)

Section normalisation.

(** C7 at the valid note [eb4]: the flat table is matched before the
    letter is capitalised, so [normalize_note_string] returns [Eb4], which is
    not a fixed point: normalising it again, or applying [to_sharp] to it,
    gives [D#4]. *)
Theorem normalize_lower_case_flat_not_idempotent :
  @Notes.is_valid_note ascii_unicode (py "eb4") = true
  /\ normalized (py "eb4") = Ok (py "Eb4")
  /\ normalized (py "Eb4") = Ok (py "D#4")
  /\ fst (@Notes.to_sharp ascii_unicode (py "Eb4")) = Ok (py "D#4")
  /\ py "Eb4" <> py "D#4".
Proof.
  repeat split; try (vm_compute; reflexivity).
  vm_compute. discriminate.
Qed.

(** With an upper-case pitch letter normalisation is idempotent. *)
Lemma normalize_idempotent_upper_case :
  forallb idempotent_at upper_case_notes = true.
Proof. vm_compute. reflexivity. Qed.
End normalisation.

Section frequencies.
Import PsychoacousticCorrections MicrotonalFrequency.
Local Open Scope R_scope.

Lemma ln2_pos : 0 < ln 2.
Proof. rewrite <- ln_1. apply ln_increasing; lra. Qed.

Lemma midi_to_hz_pos (m : R) : 0 < midi_to_hz m.
Proof.
  unfold midi_to_hz. apply Rmult_lt_0_compat; [lra |].
  unfold Rpower. apply exp_pos.
Qed.

Lemma midi_to_hz_increasing (m1 m2 : R) : m1 < m2 -> midi_to_hz m1 < midi_to_hz m2.
Proof.
  intros H. unfold midi_to_hz. apply Rmult_lt_compat_l; [lra |].
  unfold Rpower. apply exp_increasing.
  pose proof ln2_pos. nra.
Qed.

(** X1: Converting a pitch to a frequency and back gives the pitch; converting
    a positive frequency to a pitch and back gives the frequency. *)
Theorem hz_midi_round_trip (m f : R) :
  0 < f ->
  hz_to_midi (midi_to_hz m) = m /\ midi_to_hz (hz_to_midi f) = f.
Proof.
  intros Hf. pose proof ln2_pos as H2.
  split.
  - unfold hz_to_midi. pose proof (midi_to_hz_pos m) as Hp.
    destruct (Rle_dec _ _) as [H | _]; [lra |].
    unfold midi_to_hz, log2, A4_FREQ, A4_MIDI.
    replace (440 * Rpower 2 ((m - 69) / 12) / 440) with (Rpower 2 ((m - 69) / 12))
      by (field).
    unfold Rpower. rewrite ln_exp. field. lra.
  - unfold hz_to_midi.
    destruct (Rle_dec _ _) as [H | _]; [lra |].
    unfold midi_to_hz, log2, A4_FREQ, A4_MIDI, Rpower.
    replace ((69 + 12 * (ln (f / 440) / ln 2) - 69) / 12 * ln 2) with (ln (f / 440))
      by (field; lra).
    rewrite exp_ln by (apply Rdiv_lt_0_compat; lra). field.
Qed.

Lemma hz_midi_round_trip_witness :
  0 < 440 /\ hz_to_midi (midi_to_hz 69) = 69 /\ midi_to_hz (hz_to_midi 440) = 440.
Proof. split; [lra | apply (hz_midi_round_trip 69 440); lra]. Defined.

(** ** The Bark scale *)

Lemma bark_positive (f : R) :
  0 < f ->
  frequency_to_bark f
  = 13 * atan (0.00076 * f) + 3.5 * atan ((f / 7500) ^ 2).
Proof.
  intros H. unfold frequency_to_bark, BARK_SCALE_FACTOR, BARK_SCALE_FREQ1,
    BARK_SCALE_FREQ2.
  destruct (Rle_dec f 0); [lra | reflexivity].
Qed.

Lemma BARK_OVERFLOW_large : 7500 <= BARK_OVERFLOW.
Proof.
  unfold BARK_OVERFLOW. pose proof (pow_R1_Rle 2 512). lra.
Qed.

(** X2: Over the real numbers, that is for the value of the formula without
    the rounding of the doubles: on the positive frequencies below
    [7500 * 2^512], where the square of [freq / 7500] stays in the double
    range, [frequency_to_bark] called on a Python float returns a positive
    value, strictly increasing in the frequency and below 8.25 pi (about
    25.9 Bark); from [7500 * 2^512] on the call raises OverflowError. *)
Theorem frequency_to_bark_increasing (f1 f2 : R) :
  0 < f1 -> f1 < f2 ->
  (f2 < BARK_OVERFLOW ->
   exists b1 b2,
     frequency_to_bark_float f1 = Ok b1
     /\ frequency_to_bark_float f2 = Ok b2
     /\ 0 < b1 /\ b1 < b2 /\ b2 < 8.25 * PI)
  /\ (BARK_OVERFLOW <= f2 ->
      frequency_to_bark_float f2 = Raise (OverflowError result_out_of_range)).
Proof.
  intros H1 H12. split.
  - intros H2. exists (frequency_to_bark f1), (frequency_to_bark f2).
    unfold frequency_to_bark_float.
    destruct (Rle_dec f1 0); [lra |]. destruct (Rle_dec f2 0); [lra |].
    destruct (Rle_dec BARK_OVERFLOW f1); [lra |].
    destruct (Rle_dec BARK_OVERFLOW f2); [lra |].
    split; [reflexivity |]. split; [reflexivity |].
    rewrite !bark_positive by lra.
    assert (Ha : atan (0.00076 * f1) < atan (0.00076 * f2))
      by (apply atan_increasing; lra).
    assert (Hb : atan ((f1 / 7500) ^ 2) < atan ((f2 / 7500) ^ 2))
      by (apply atan_increasing; nra).
    assert (Ha0 : 0 < atan (0.00076 * f1))
      by (rewrite <- atan_0; apply atan_increasing; lra).
    assert (Hb0 : 0 < atan ((f1 / 7500) ^ 2))
      by (rewrite <- atan_0; apply atan_increasing; nra).
    pose proof (atan_bound (0.00076 * f2)) as [_ Hc].
    pose proof (atan_bound ((f2 / 7500) ^ 2)) as [_ Hd].
    repeat split; lra.
  - intros H2. unfold frequency_to_bark_float.
    destruct (Rle_dec f2 0); [lra |].
    destruct (Rle_dec BARK_OVERFLOW f2); [reflexivity | lra].
Qed.

Lemma frequency_to_bark_increasing_witness :
  0 < 440 /\ 440 < 880
  /\ exists b1 b2,
       frequency_to_bark_float 440 = Ok b1
       /\ frequency_to_bark_float 880 = Ok b2
       /\ 0 < b1 /\ b1 < b2 /\ b2 < 8.25 * PI.
Proof.
  split; [lra |]. split; [lra |].
  apply (frequency_to_bark_increasing 440 880); [lra | lra |].
  pose proof BARK_OVERFLOW_large. lra.
Defined.

(** ** Equal loudness *)

(** [equal_loudness_correction] is between 0.1 and 1.5 at every frequency. *)
Lemma equal_loudness_correction_bounds (f : R) :
  0.1 <= equal_loudness_correction f <= 1.5.
Proof.
  unfold equal_loudness_correction.
  destruct (Rle_dec f 0); [lra |].
  unfold Rmax.
  repeat match goal with
         | |- context [Rlt_dec ?a ?b] => destruct (Rlt_dec a b)
         | |- context [Rgt_dec ?a ?b] => destruct (Rgt_dec a b)
         | |- context [Rle_dec ?a ?b] => destruct (Rle_dec a b)
         end; try lra; try nra.
Qed.

End frequencies.

(** ** Pair loops *)

Section pair_loops.
Local Open Scope R_scope.

(** a loop whose every step adds between 0 and [c] *)
Lemma for_each_bounded {A} (l : list A) (s : R) (c : R)
    (body : A -> R -> result R) :
  (forall x s, x ∈ l -> exists s', body x s = Ok s' /\ s <= s' <= s + c) ->
  exists s', for_each l s body = Ok s' /\ s <= s' <= s + c * INR (length l).
Proof.
  revert s. induction l as [| x l IH]; intros s Hbody; simpl for_each.
  - exists s. split; [reflexivity |]. simpl. lra.
  - destruct (Hbody x s (list_elem_of_here _ _)) as (s1 & -> & H1).
    destruct (IH s1) as (s2 & -> & H2).
    { intros y t Hy. apply Hbody. now apply list_elem_of_further. }
    exists s2. split; [reflexivity |].
    change (length (x :: l)) with (S (length l)). rewrite S_INR.
    assert (0 <= c) by lra. nra.
Qed.

(** the loop [for i in range(n): for j in range(i+1, n)] when every pair
    adds between 0 and [c]: the total is at most [c] times the number of
    pairs *)
Lemma pair_loop_from (n k a : nat) (s : R) (c : R)
    (body : nat -> nat -> R -> result R) :
  (a + k = n)%nat ->
  (forall i j s, (i < j < n)%nat ->
     exists s', body i j s = Ok s' /\ s <= s' <= s + c) ->
  exists r,
    for_each (seq a k) s (fun i s =>
      for_each (range (i + 1) n) s (fun j s => body i j s)) = Ok r
    /\ s <= r <= s + c * (INR k * (INR k - 1) / 2).
Proof.
  revert a s. induction k as [| k IH]; intros a s Hak Hbody.
  - exists s. split; [reflexivity |]. simpl. lra.
  - cbn [seq for_each].
    destruct (for_each_bounded (range (a + 1) n) s c (fun j s => body a j s))
      as (s1 & -> & H1).
    { intros j t Hj. apply elem_of_range in Hj. apply Hbody. lia. }
    destruct (IH (S a) s1) as (r & -> & Hr); [lia | exact Hbody |].
    exists r. split; [reflexivity |].
    unfold range in H1. rewrite length_seq in H1.
    replace (n - (a + 1))%nat with k in H1 by lia.
    rewrite S_INR. nra.
Qed.

Lemma pair_loop_bounded (n : nat) (s : R) (c : R)
    (body : nat -> nat -> R -> result R) :
  (forall i j s, (i < j < n)%nat ->
     exists s', body i j s = Ok s' /\ s <= s' <= s + c) ->
  exists r,
    for_each (range 0 n) s (fun i s =>
      for_each (range (i + 1) n) s (fun j s => body i j s)) = Ok r
    /\ s <= r <= s + c * (INR n * (INR n - 1) / 2).
Proof.
  intros H. unfold range at 1. rewrite Nat.sub_0_r.
  apply (pair_loop_from n n 0); [lia | exact H].
Qed.

End pair_loops.

(** ** Masking, roughness and loudness *)

Section psychoacoustics.
Import PsychoacousticCorrections.
Local Open Scope R_scope.

(** X3: [equal_loudness_correction] is between 0.1 and 1.5 at every frequency,
    1 from 1 kHz to 4 kHz and 0.1 from 20 kHz on. *)
Theorem equal_loudness_correction_range (f : R) :
  0.1 <= equal_loudness_correction f <= 1.5
  /\ (1000 <= f <= 4000 -> equal_loudness_correction f = 1)
  /\ (20000 <= f -> equal_loudness_correction f = 0.1).
Proof.
  split; [apply equal_loudness_correction_bounds |].
  split; intros H; unfold equal_loudness_correction, Rmax;
    repeat match goal with
           | |- context [Rlt_dec ?a ?b] => destruct (Rlt_dec a b)
           | |- context [Rgt_dec ?a ?b] => destruct (Rgt_dec a b)
           | |- context [Rle_dec ?a ?b] => destruct (Rle_dec a b)
           end; try lra; try nra.
Qed.

(** X4: With pitches below 12357, [apply_loudness_correction] returns the
    amplitudes it pairs with a pitch by [zip], as many as the shorter list
    has, each multiplied by a factor between 0.1 and 1.5. *)
Theorem apply_loudness_correction_scales (pitches amplitudes : list R) :
  Forall (fun p => p < MIDI_OVERFLOW) pitches ->
  exists out,
    apply_loudness_correction pitches amplitudes = Ok out
    /\ length out = Nat.min (length amplitudes) (length pitches)
    /\ forall i a o,
         amplitudes !! i = Some a -> out !! i = Some o ->
         exists c, 0.1 <= c <= 1.5 /\ o = a * c.
Proof.
  intros Hp. unfold apply_loudness_correction.
  case_bool_decide as Hn.
  - exists []. split; [reflexivity |].
    split; [simpl; lia |]. intros i a o _ Ho. rewrite lookup_nil in Ho. discriminate.
  - rewrite (comprehension_midi_to_hz pitches Hp). cbn [mbind result_bind].
    eexists. split; [reflexivity |]. split.
    + rewrite length_fmap, length_zip, !length_fmap. reflexivity.
    + intros i a o Ha Ho.
      rewrite list_lookup_fmap in Ho.
      destruct (zip amplitudes _ !! i) as [[a' c] |] eqn:Hz; [| discriminate].
      simpl in Ho. injection Ho as <-.
      apply lookup_zip_with_Some in Hz as (x & y & [= -> ->] & Hx & Hy).
      rewrite Ha in Hx. injection Hx as <-.
      rewrite list_lookup_fmap in Hy.
      destruct ((midi_to_hz <$> pitches) !! i) as [fr |]; [| discriminate].
      simpl in Hy. injection Hy as <-.
      exists (equal_loudness_correction fr).
      split; [apply equal_loudness_correction_bounds | reflexivity].
Qed.

Lemma apply_loudness_correction_scales_witness :
  Forall (fun p => p < MIDI_OVERFLOW) [60; 61]
  /\ exists out,
       apply_loudness_correction [60; 61] [1; 0.5; 2] = Ok out
       /\ length out = Nat.min (length [1; 0.5; 2]) (length [60; 61]%R)
       /\ forall i a o,
            [1; 0.5; 2] !! i = Some a -> out !! i = Some o ->
            exists c, 0.1 <= c <= 1.5 /\ o = a * c.
Proof.
  assert (H : Forall (fun p => p < MIDI_OVERFLOW) [60; 61])
    by (unfold MIDI_OVERFLOW; repeat constructor; lra).
  split; [exact H |].
  exact (apply_loudness_correction_scales [60; 61] [1; 0.5; 2] H).
Defined.

(** *** The loudest component *)

Lemma masking_step_keeps (barks amps : list R) (slope : R) (i j k : nat)
    (a : R) (masked masked' : list R) :
  amps !! k = Some a ->
  (forall j b, amps !! j = Some b -> b <= a) ->
  masked !! k = Some a ->
  masking_step barks amps slope i j masked = Ok masked' ->
  masked' !! k = Some a.
Proof.
  intros Hk Hmax Hm. unfold masking_step.
  case_bool_decide; [| congruence].
  destruct (index barks i) as [bi |]; simpl; [| discriminate].
  destruct (index barks j) as [bj |]; simpl; [| discriminate].
  destruct (Rlt_dec _ _); [| congruence].
  destruct (index amps j) as [aj |] eqn:Haj; simpl; [| discriminate].
  destruct (index amps i) as [ai |] eqn:Hai; simpl; [| discriminate].
  destruct (Rgt_dec aj ai) as [Hgt |]; [| congruence].
  destruct (index masked i) as [mi |]; simpl; [| discriminate].
  intros [= <-]. apply index_Ok in Haj, Hai.
  destruct (decide (k = i)) as [-> | Hne].
  - rewrite Hk in Hai. injection Hai as <-.
    pose proof (Hmax j aj Haj). lra.
  - rewrite list_lookup_insert_ne by congruence. exact Hm.
Qed.

(** X5: A component that no other exceeds in amplitude is never masked:
    [critical_band_masking] returns its amplitude unchanged, whatever the
    pitches below 12357 and the slope. *)
Theorem critical_band_masking_keeps_loudest
    (pitches amplitudes : list R) (masking_slope : R) (k : nat) (a : R) :
  pitches <> [] ->
  Forall (fun p => p < MIDI_OVERFLOW) pitches ->
  (length pitches <= length amplitudes)%nat ->
  amplitudes !! k = Some a ->
  (forall j b, amplitudes !! j = Some b -> b <= a) ->
  exists out,
    critical_band_masking pitches amplitudes masking_slope = Ok out
    /\ length out = length amplitudes
    /\ out !! k = Some a.
Proof.
  intros Hne Hp Hlen Hk Hmax. unfold critical_band_masking.
  assert (length pitches <> 0%nat) by (destruct pitches; [congruence | simpl; lia]).
  assert (length amplitudes <> 0%nat) by lia.
  rewrite !bool_decide_eq_false_2 by assumption. cbn [orb].
  rewrite (comprehension_midi_to_hz pitches Hp). cbn [mbind result_bind].
  set (P := fun m : list R => length m = length amplitudes /\ m !! k = Some a).
  destruct (for_each_total P
              (range 0 (length (midi_to_hz <$> pitches))) amplitudes
              (fun i masked_amps =>
                 for_each (range 0 (length (midi_to_hz <$> pitches))) masked_amps
                   (fun j masked_amps =>
                      masking_step (frequency_to_bark <$> (midi_to_hz <$> pitches))
                        amplitudes masking_slope i j masked_amps)))
    as (out & Hout & Hl & Ho).
  - unfold P. split; [reflexivity | exact Hk].
  - intros i masked Hi Hm.
    apply (for_each_total P); [exact Hm |].
    intros j masked' Hj [Hm1 Hm2].
    apply elem_of_range in Hi, Hj. rewrite !length_fmap in Hi, Hj.
    destruct (masking_step_total (frequency_to_bark <$> (midi_to_hz <$> pitches))
                amplitudes masking_slope i j masked')
      as (m2 & Hstep & Hl2); rewrite ?length_fmap; try lia.
    exists m2. split; [exact Hstep |]. split; [exact Hl2 |].
    exact (masking_step_keeps _ _ _ i j k a masked' m2 Hk Hmax Hm2 Hstep).
  - exists out. auto.
Qed.

Lemma critical_band_masking_keeps_loudest_witness :
  [60; 61] <> []
  /\ Forall (fun p => p < MIDI_OVERFLOW) [60; 61]
  /\ (length [60; 61]%R <= length [1; 0.5]%R)%nat
  /\ [1; 0.5] !! 0%nat = Some 1
  /\ (forall j b, [1; 0.5] !! j = Some b -> b <= 1)
  /\ exists out,
       critical_band_masking [60; 61] [1; 0.5] 0.25 = Ok out
       /\ length out = length [1; 0.5]
       /\ out !! 0%nat = Some 1.
Proof.
  assert (H1 : [60; 61] <> ([] : list R)) by discriminate.
  assert (H0 : Forall (fun p => p < MIDI_OVERFLOW) [60; 61])
    by (unfold MIDI_OVERFLOW; repeat constructor; lra).
  assert (H2 : (length [60; 61]%R <= length [1; 0.5]%R)%nat) by (simpl; lia).
  assert (H3 : [1; 0.5] !! 0%nat = Some 1) by reflexivity.
  assert (H4 : forall j b, [1; 0.5] !! j = Some b -> b <= 1).
  { intros [| [| j]] b Hb; simpl in Hb; try discriminate;
      injection Hb as <-; lra. }
  split; [exact H1 |]. split; [exact H0 |]. split; [exact H2 |].
  split; [exact H3 |]. split; [exact H4 |].
  exact (critical_band_masking_keeps_loudest [60; 61] [1; 0.5] 0.25 0 1
           H1 H0 H2 H3 H4).
Defined.

Lemma masking_step_uniform (barks amps : list R) (slope c : R) (i j : nat)
    (masked masked' : list R) :
  Forall (fun a => a = c) amps ->
  masking_step barks amps slope i j masked = Ok masked' ->
  masked' = masked.
Proof.
  intros Hc. unfold masking_step.
  case_bool_decide; [| congruence].
  destruct (index barks i) as [bi |]; simpl; [| discriminate].
  destruct (index barks j) as [bj |]; simpl; [| discriminate].
  destruct (Rlt_dec _ _); [| congruence].
  destruct (index amps j) as [aj |] eqn:Haj; simpl; [| discriminate].
  destruct (index amps i) as [ai |] eqn:Hai; simpl; [| discriminate].
  apply index_Ok in Haj, Hai.
  rewrite Forall_forall in Hc.
  assert (aj = c) by (apply Hc, list_elem_of_lookup; eauto).
  assert (ai = c) by (apply Hc, list_elem_of_lookup; eauto).
  destruct (Rgt_dec aj ai) as [Hgt |]; [lra | congruence].
Qed.

(** X6: When all amplitudes are equal, as in the density functions that start
    from [np.ones], [critical_band_masking] changes nothing, whatever the
    pitches below 12357. *)
Theorem critical_band_masking_uniform
    (pitches amplitudes : list R) (masking_slope c : R) :
  pitches <> [] ->
  Forall (fun p => p < MIDI_OVERFLOW) pitches ->
  (length pitches <= length amplitudes)%nat ->
  Forall (fun a => a = c) amplitudes ->
  critical_band_masking pitches amplitudes masking_slope = Ok amplitudes.
Proof.
  intros Hne Hp Hlen Hc. unfold critical_band_masking.
  assert (length pitches <> 0%nat) by (destruct pitches; [congruence | simpl; lia]).
  assert (length amplitudes <> 0%nat) by lia.
  rewrite !bool_decide_eq_false_2 by assumption. cbn [orb].
  rewrite (comprehension_midi_to_hz pitches Hp). cbn [mbind result_bind].
  destruct (for_each_total (fun m => m = amplitudes)
              (range 0 (length (midi_to_hz <$> pitches))) amplitudes
              (fun i masked_amps =>
                 for_each (range 0 (length (midi_to_hz <$> pitches))) masked_amps
                   (fun j masked_amps =>
                      masking_step (frequency_to_bark <$> (midi_to_hz <$> pitches))
                        amplitudes masking_slope i j masked_amps)))
    as (out & Hout & ->); [reflexivity | | exact Hout].
  intros i masked Hi ->.
  apply (for_each_total (fun m => m = amplitudes)); [reflexivity |].
  intros j masked' Hj ->.
  apply elem_of_range in Hi, Hj. rewrite !length_fmap in Hi, Hj.
  destruct (masking_step_total (frequency_to_bark <$> (midi_to_hz <$> pitches))
              amplitudes masking_slope i j amplitudes)
    as (m2 & Hstep & Hl2); rewrite ?length_fmap; try lia.
  exists m2. split; [exact Hstep |].
  exact (masking_step_uniform _ _ _ c i j amplitudes m2 Hc Hstep).
Qed.

Lemma critical_band_masking_uniform_witness :
  [60; 61] <> []
  /\ Forall (fun p => p < MIDI_OVERFLOW) [60; 61]
  /\ (length [60; 61]%R <= length [1; 1]%R)%nat
  /\ Forall (fun a => a = 1) [1; 1]
  /\ critical_band_masking [60; 61] [1; 1] 0.25 = Ok [1; 1].
Proof.
  assert (H1 : [60; 61] <> ([] : list R)) by discriminate.
  assert (H2 : (length [60; 61]%R <= length [1; 1]%R)%nat) by (simpl; lia).
  assert (H3 : Forall (fun a : R => a = 1) [1; 1]) by (repeat constructor).
  assert (H0 : Forall (fun p => p < MIDI_OVERFLOW) [60; 61])
    by (unfold MIDI_OVERFLOW; repeat constructor; lra).
  split; [exact H1 |]. split; [exact H0 |]. split; [exact H2 |].
  split; [exact H3 |].
  exact (critical_band_masking_uniform [60; 61] [1; 1] 0.25 1 H1 H0 H2 H3).
Defined.

(** *** Roughness *)

Lemma roughness_contribution_bounds (x : R) :
  0 <= x ->
  0 <= (if Rlt_dec x 1 then x * exp (1 - x) else exp (- (x - 1) * 0.5)) <= 1.
Proof.
  intros Hx. destruct (Rlt_dec x 1) as [H1 | H1].
  - pose proof (exp_pos (1 - x)) as Hp.
    pose proof (exp_ineq1_le (x - 1)) as Hi.
    assert (He : exp (1 - x) * exp (x - 1) = 1).
    { rewrite <- exp_plus. replace (1 - x + (x - 1)) with 0 by ring. apply exp_0. }
    split; [nra |].
    assert (x <= exp (x - 1)) by lra.
    assert (x * exp (1 - x) <= exp (x - 1) * exp (1 - x)) by nra.
    nra.
  - pose proof (exp_pos (- (x - 1) * 0.5)) as Hp.
    split; [lra |].
    assert (Hle : exp (- (x - 1) * 0.5) <= exp 0).
    { destruct (Rle_lt_or_eq_dec (- (x - 1) * 0.5) 0 ltac:(lra)) as [Hlt | Heq].
      - left. now apply exp_increasing.
      - rewrite Heq. lra. }
    rewrite exp_0 in Hle. exact Hle.
Qed.

Lemma roughness_step_bounded (pitches amps : list R) (A : R) (i j : nat) (s : R) :
  (i < length pitches)%nat -> (j < length pitches)%nat ->
  (length pitches <= length amps)%nat ->
  Forall (fun a => 0 <= a <= A) amps ->
  exists s', roughness_step (midi_to_hz <$> pitches) amps i j s = Ok s'
             /\ s <= s' <= s + A.
Proof.
  intros Hi Hj Hlen HA. unfold roughness_step.
  destruct (index_lt (midi_to_hz <$> pitches) i) as (fi & -> & Hfi);
    [now rewrite length_fmap |].
  destruct (index_lt (midi_to_hz <$> pitches) j) as (fj & -> & Hfj);
    [now rewrite length_fmap |].
  cbn [mbind result_bind].
  destruct (index_lt amps i ltac:(lia)) as (ai & Hai & Hai').
  destruct (index_lt amps j ltac:(lia)) as (aj & Haj & Haj').
  rewrite Forall_forall in HA.
  assert (0 <= ai <= A) by (apply HA, list_elem_of_lookup; eauto).
  assert (0 <= aj <= A) by (apply HA, list_elem_of_lookup; eauto).
  assert (0 <= A) by lra.
  destruct (Req_dec_T _ _); [exists s; split; [reflexivity | lra] |].
  destruct (Rlt_dec _ _); [| exists s; split; [reflexivity | lra]].
  rewrite Hai, Haj. cbn [mbind result_bind].
  eexists. split; [reflexivity |].
  rewrite list_lookup_fmap in Hfi, Hfj.
  destruct (pitches !! i) as [pi |]; [| discriminate].
  destruct (pitches !! j) as [pj |]; [| discriminate].
  simpl in Hfi, Hfj. injection Hfi as <-. injection Hfj as <-.
  pose proof (midi_to_hz_pos pi). pose proof (midi_to_hz_pos pj).
  set (x := Rabs (midi_to_hz pi - midi_to_hz pj)
            / ((midi_to_hz pi + midi_to_hz pj) / 2) * 100 / 6.5).
  assert (Hx : 0 <= x).
  { unfold x. pose proof (Rabs_pos (midi_to_hz pi - midi_to_hz pj)).
    apply Rmult_le_pos; [| lra].
    apply Rmult_le_pos; [| lra].
    apply Rmult_le_pos; [assumption |].
    left. apply Rinv_0_lt_compat. lra. }
  pose proof (roughness_contribution_bounds x Hx) as Hc.
  assert (0 <= Rmin ai aj <= A).
  { unfold Rmin. destruct (Rle_dec ai aj); lra. }
  nra.
Qed.

(** X7: With pitches below 12357 and amplitudes between 0 and [A], one for
    each pitch, [calculate_roughness] returns a value between 0 and [A]
    times the number of pairs of pitches: no pair contributes more than the
    smaller of its two amplitudes. *)
Theorem calculate_roughness_bounds (pitches amplitudes : list R) (A : R) :
  Forall (fun p => p < MIDI_OVERFLOW) pitches ->
  (length pitches <= length amplitudes)%nat ->
  Forall (fun a => 0 <= a <= A) amplitudes ->
  exists r,
    calculate_roughness pitches amplitudes = Ok r
    /\ 0 <= r <= A * (INR (length pitches) * (INR (length pitches) - 1) / 2).
Proof.
  intros Hp Hlen HA. unfold calculate_roughness.
  case_bool_decide as Hn.
  - exists 0. split; [reflexivity |].
    assert (0 <= A * (INR (length pitches) * (INR (length pitches) - 1) / 2)).
    { destruct pitches as [| p [| q r]]; simpl in *; try lia; lra. }
    lra.
  - rewrite (comprehension_midi_to_hz pitches Hp). cbn [mbind result_bind].
    rewrite length_fmap.
    destruct (pair_loop_bounded (length pitches) 0 A
                (fun i j s => roughness_step (midi_to_hz <$> pitches) amplitudes i j s))
      as (r & Hr & Hb).
    { intros i j s Hij. apply roughness_step_bounded; auto; lia. }
    exists r. split; [exact Hr | lra].
Qed.

Lemma calculate_roughness_bounds_witness :
  Forall (fun p => p < MIDI_OVERFLOW) [60; 61]
  /\ (length [60; 61]%R <= length [1; 0.5]%R)%nat
  /\ Forall (fun a => 0 <= a <= 1) [1; 0.5]
  /\ exists r,
       calculate_roughness [60; 61] [1; 0.5] = Ok r
       /\ 0 <= r <= 1 * (INR (length [60; 61]) * (INR (length [60; 61]) - 1) / 2).
Proof.
  assert (H1 : (length [60; 61]%R <= length [1; 0.5]%R)%nat) by (simpl; lia).
  assert (H2 : Forall (fun a : R => 0 <= a <= 1) [1; 0.5])
    by (repeat constructor; lra).
  assert (H0 : Forall (fun p => p < MIDI_OVERFLOW) [60; 61])
    by (unfold MIDI_OVERFLOW; repeat constructor; lra).
  split; [exact H0 |]. split; [exact H1 |]. split; [exact H2 |].
  exact (calculate_roughness_bounds [60; 61] [1; 0.5] 1 H0 H1 H2).
Defined.

End psychoacoustics.

(** ** Interval density *)

Section density.
Context {U : Unicode} {HU : UnicodeOk U}.
Import DensidadeIntervalar PsychoacousticCorrections.
Local Open Scope R_scope.

Lemma comprehension_total {A B} (f : A -> result B) (l : list A) :
  (forall x, x ∈ l -> exists y, f x = Ok y) ->
  exists ys, comprehension f l = Ok ys /\ length ys = length l.
Proof.
  induction l as [| x l IH]; intros H; simpl.
  - exists []. split; reflexivity.
  - destruct (H x (list_elem_of_here _ _)) as (y & ->).
    destruct IH as (ys & -> & Hl).
    { intros z Hz. apply H. now apply list_elem_of_further. }
    exists (y :: ys). split; [reflexivity | simpl; congruence].
Qed.

Lemma pitches_total (notas : list pystr) :
  exists pitches,
    comprehension (fun nota => fst (Microtonal.note_to_midi nota)) notas = Ok pitches
    /\ length pitches = length notas.
Proof.
  apply comprehension_total. intros nota _.
  destruct (note_to_midi_returns nota) as (v & w & -> & _). eauto.
Qed.

Lemma decaimento_range (stored : option R) (lamb delta : R) :
  0 <= lamb -> 0 <= delta ->
  0 < decaimento_exponencial_modificado stored delta (Some lamb) <= 1.
Proof.
  intros Hl Hd. unfold decaimento_exponencial_modificado.
  destruct (Req_dec_T delta 0); [lra |].
  split; [apply exp_pos |].
  assert (Hle : exp (- lamb * delta) <= exp 0).
  { destruct (Rle_lt_or_eq_dec (- lamb * delta) 0 ltac:(nra)) as [Hlt | Heq].
    - left. now apply exp_increasing.
    - rewrite Heq. lra. }
  rewrite exp_0 in Hle. exact Hle.
Qed.

Lemma peso_perceptual_bounds (midi1 midi2 delta_semitons : R) :
  0.72 <= calcular_peso_perceptual_microtonal midi1 midi2 delta_semitons <= 1.95.
Proof.
  unfold calcular_peso_perceptual_microtonal.
  repeat match goal with
         | |- context [Rlt_dec ?a ?b] => destruct (Rlt_dec a b)
         | |- context [Rgt_dec ?a ?b] => destruct (Rgt_dec a b)
         | |- context [Rle_dec ?a ?b] => destruct (Rle_dec a b)
         | |- context [Rge_dec ?a ?b] => destruct (Rge_dec a b)
         end; lra.
Qed.

Lemma Q2R_nonneg (q : Q) : (0 <= q)%Q -> 0 <= Q2R q.
Proof. intros H. apply Qle_Rle in H. now rewrite RMicromega.Q2R_0 in H. Qed.

Lemma delta_semitons_used_total (notas : list pystr) (pitches : list Q) (i j : nat) :
  (i < length pitches)%nat -> (j < length pitches)%nat ->
  (length pitches <= length notas)%nat ->
  exists d, delta_semitons_used notas pitches i j = Ok d /\ (0 <= d)%Q.
Proof.
  intros Hi Hj Hn. unfold delta_semitons_used.
  destruct (index_lt pitches i Hi) as (pi & -> & _).
  destruct (index_lt pitches j Hj) as (pj & -> & _).
  destruct (index_lt notas i ltac:(lia)) as (ni & -> & _).
  destruct (index_lt notas j ltac:(lia)) as (nj & -> & _).
  cbn [mbind result_bind].
  pose proof (Qabs_nonneg (pi - pj)) as Habs.
  destruct (Qlt_le_dec _ _); [| eauto].
  destruct (negb _); [| eauto].
  eexists. split; [reflexivity |].
  unfold py_max. destruct (Qlt_le_dec _ _); [| exact Habs].
  vm_compute. discriminate.
Qed.

Lemma densidade_bounded (stored : option R) (notas : list pystr) (lamb : R)
    (usar_ponderacao_perceptual : bool) :
  0 <= lamb ->
  let n := length (List.filter (fun nota => negb (eqb nota [])) notas) in
  exists d,
    calcular_densidade_intervalar stored notas (Some lamb) usar_ponderacao_perceptual
    = Ok d
    /\ 0 <= d <= (if usar_ponderacao_perceptual then 1.95 else 1)
                  * (INR n * (INR n - 1) / 2).
Proof.
  intros Hl n. unfold calcular_densidade_intervalar.
  destruct (pitches_total (List.filter (fun nota => negb (eqb nota [])) notas))
    as (pitches & -> & Hlen).
  cbn [mbind result_bind]. fold n in Hlen. rewrite Hlen.
  pose proof (filter_length_le (fun nota => negb (eqb nota [])) notas) as Hle.
  fold n in Hle.
  set (c := if usar_ponderacao_perceptual then 1.95 else 1).
  match goal with
  | |- exists d, for_each (range 0 n) 0 ?f = Ok d /\ _ =>
      assert (Hloop : exists r, for_each (range 0 n) 0 f = Ok r
                                /\ 0 <= r <= 0 + c * (INR n * (INR n - 1) / 2))
  end.
  { apply pair_loop_bounded. intros i j s Hij.
    destruct (delta_semitons_used_total notas pitches i j) as (d & -> & Hd);
      try lia.
    destruct (index_lt pitches i ltac:(lia)) as (pi & -> & _).
    destruct (index_lt pitches j ltac:(lia)) as (pj & -> & _).
    cbn [mbind result_bind].
    eexists. split; [reflexivity |].
    assert (Hd2 : 0 <= Q2R (d * 2)).
    { apply Q2R_nonneg. apply Qmult_le_0_compat; [exact Hd | discriminate]. }
    pose proof (decaimento_range stored lamb (Q2R (d * 2)) Hl Hd2) as Hdec.
    unfold c. destruct usar_ponderacao_perceptual; [| lra].
    pose proof (peso_perceptual_bounds (Q2R pi) (Q2R pj) (Q2R d)). nra. }
  destruct Hloop as (r & Hr & Hb). exists r. split; [exact Hr | lra].
Qed.

Lemma pairs_monotone (m n : nat) :
  (m <= n)%nat -> INR m * (INR m - 1) <= INR n * (INR n - 1).
Proof.
  intros H. destruct m as [| m].
  - simpl. destruct n as [| n]; [simpl; lra |].
    rewrite S_INR. pose proof (pos_INR n). nra.
  - apply le_INR in H. rewrite S_INR in *. pose proof (pos_INR m). nra.
Qed.

(** X8: For a decay parameter that is not negative,
    [calcular_densidade_intervalar] never raises and returns a density
    between 0 and the number of pairs of non-empty notes, or twice that
    number with the perceptual weighting (no weight reaches 2). *)
Theorem calcular_densidade_intervalar_bounds (stored : option R)
    (notas : list pystr) (lamb : R) (usar_ponderacao_perceptual : bool) :
  0 <= lamb ->
  exists d,
    calcular_densidade_intervalar stored notas (Some lamb) usar_ponderacao_perceptual
    = Ok d
    /\ 0 <= d
    /\ d <= (if usar_ponderacao_perceptual then 2 else 1)
            * (INR (length (List.filter (fun nota => negb (eqb nota [])) notas))
               * (INR (length (List.filter (fun nota => negb (eqb nota [])) notas)) - 1)
               / 2).
Proof.
  intros Hl.
  destruct (densidade_bounded stored notas lamb usar_ponderacao_perceptual Hl)
    as (d & Hd & H0 & H1).
  exists d. split; [exact Hd |]. split; [exact H0 |].
  pose proof (pairs_monotone 0
                (length (List.filter (fun nota => negb (eqb nota [])) notas))
                ltac:(lia)) as Hp.
  simpl (INR 0) in Hp.
  destruct usar_ponderacao_perceptual; [nra | exact H1].
Qed.

Lemma ln10_pos : 0 < ln 10.
Proof. rewrite <- ln_1. apply ln_increasing; lra. Qed.

Lemma log10_range (x : R) :
  0 <= x <= 1 ->
  0 <= DensidadeIntervalarPsicoacustica.log10 (1 + x)
    <= DensidadeIntervalarPsicoacustica.log10 2.
Proof.
  intros Hx. unfold DensidadeIntervalarPsicoacustica.log10.
  pose proof ln10_pos as H10.
  assert (0 <= ln (1 + x)).
  { rewrite <- ln_1. destruct (Req_dec x 0) as [-> | Hne].
    - replace (1 + 0) with 1 by ring. lra.
    - left. apply ln_increasing; lra. }
  assert (ln (1 + x) <= ln 2).
  { destruct (Req_dec x 1) as [-> | Hne].
    - replace (1 + 1) with 2 by ring. lra.
    - left. apply ln_increasing; lra. }
  split.
  - apply Rmult_le_pos; [assumption | left; now apply Rinv_0_lt_compat].
  - apply Rmult_le_compat_r; [left; now apply Rinv_0_lt_compat | assumption].
Qed.

(** X9: Without the psychoacoustic corrections and the perceptual weighting,
    the normalised density of [densidade_intervalar.py] (the mean over the
    pairs, compressed by [log10(1 + x)]) is between 0 and [log10 2]. *)
Theorem densidade_normalizada_range (stored : option R) (notas : list pystr)
    (lamb : R) :
  0 <= lamb ->
  exists d,
    DensidadeIntervalarPsicoacustica.calcular_densidade_intervalar_psicoaustica
      stored notas false false (Some lamb) = Ok (Some d)
    /\ 0 <= d <= DensidadeIntervalarPsicoacustica.log10 2.
Proof.
  intros Hl.
  unfold DensidadeIntervalarPsicoacustica.calcular_densidade_intervalar_psicoaustica.
  destruct (densidade_bounded stored notas lamb false Hl) as (pesos & -> & H0 & H1).
  cbn [mbind result_bind negb DensidadeIntervalarPsicoacustica.USE_LOG_COMPRESSION].
  eexists. split; [reflexivity |].
  apply log10_range.
  case_bool_decide as Hn; [| lra].
  pose proof (filter_length_le (fun nota => negb (eqb nota [])) notas) as Hle.
  apply pairs_monotone in Hle.
  set (m := INR (length (List.filter (fun nota => negb (eqb nota [])) notas))) in *.
  set (n := INR (length notas)) in *.
  assert (Hn1 : 2 <= n).
  { unfold n. change 2 with (INR 2). apply le_INR. lia. }
  assert (Hpos : 0 < n * (n - 1)) by nra.
  split.
  - apply Rmult_le_pos; [lra | left; now apply Rinv_0_lt_compat].
  - apply (Rmult_le_reg_r (n * (n - 1))); [exact Hpos |].
    unfold Rdiv. rewrite Rmult_assoc, Rinv_l by lra. lra.
Qed.

End density.

Section density_witnesses.
Import DensidadeIntervalar.
Local Open Scope R_scope.

Lemma calcular_densidade_intervalar_bounds_witness :
  0 <= 0.05
  /\ exists d,
       @calcular_densidade_intervalar ascii_unicode None [py "C4"; py "E4"]
         (Some 0.05) false = Ok d
       /\ 0 <= d
       /\ d <= (if false then 2 else 1)
               * (INR (length (List.filter (fun nota => negb (eqb nota []))
                                 [py "C4"; py "E4"]))
                  * (INR (length (List.filter (fun nota => negb (eqb nota []))
                                    [py "C4"; py "E4"])) - 1)
                  / 2).
Proof.
  assert (H : 0 <= 0.05) by lra.
  split; [exact H |].
  exact (@calcular_densidade_intervalar_bounds ascii_unicode ascii_unicode_ok
           None [py "C4"; py "E4"] 0.05 false H).
Defined.

Lemma densidade_normalizada_range_witness :
  0 <= 0.05
  /\ exists d,
       @DensidadeIntervalarPsicoacustica.calcular_densidade_intervalar_psicoaustica
         ascii_unicode None [py "C4"; py "E4"] false false (Some 0.05) = Ok (Some d)
       /\ 0 <= d <= DensidadeIntervalarPsicoacustica.log10 2.
Proof.
  assert (H : 0 <= 0.05) by lra.
  split; [exact H |].
  exact (@densidade_normalizada_range ascii_unicode ascii_unicode_ok
           None [py "C4"; py "E4"] 0.05 H).
Defined.

End density_witnesses.

(** ** Weighted density and sound mass *)

Section metrics.
Import DataProcessorMetrics.
Local Open Scope R_scope.

Lemma Rpower_unit (x a : R) : 0 < x <= 1 -> 0 <= a -> 0 < Rpower x a <= 1.
Proof.
  intros Hx Ha. unfold Rpower. split; [apply exp_pos |].
  assert (Hln : ln x <= 0).
  { rewrite <- ln_1. destruct (Req_dec x 1) as [-> | Hne]; [lra |].
    left. apply ln_increasing; lra. }
  assert (Hle : exp (a * ln x) <= exp 0).
  { destruct (Rle_lt_or_eq_dec (a * ln x) 0 ltac:(nra)) as [Hlt | Heq].
    - left. now apply exp_increasing.
    - rewrite Heq. lra. }
  rewrite exp_0 in Hle. exact Hle.
Qed.

(** X10: With the min-max method, inputs inside their theoretical ranges, a
    weight in [0, 1] and Stevens exponents that are not negative,
    [calcular_densidade_ponderada_normalizada] returns a value from 0 to 10. *)
Theorem densidade_ponderada_range (DI DV w DI_max DV_max alpha beta : R)
    (use_stevens : bool) :
  0 <= DI <= DI_max -> 0 <= DV <= DV_max -> 0 < DI_max -> 0 < DV_max ->
  0 <= w <= 1 -> 0 <= alpha -> 0 <= beta ->
  exists d,
    calcular_densidade_ponderada_normalizada DI DV (py "min-max") w DI_max DV_max
      alpha beta use_stevens = Some d
    /\ 0 <= d <= 10.
Proof.
  intros HDI HDV HImax HVmax Hw Ha Hb.
  unfold calcular_densidade_ponderada_normalizada.
  replace (eqb (py "min-max") (py "min-max")) with true
    by (symmetry; apply bool_decide_eq_true; reflexivity).
  destruct (Req_dec_T DI_max 0); [lra |].
  destruct (Req_dec_T DV_max 0); [lra |].
  cbn [mbind option_bind].
  eexists. split; [reflexivity |].
  assert (HI : 0 <= DI / DI_max <= 1).
  { split; [apply Rmult_le_pos; [lra | left; now apply Rinv_0_lt_compat] |].
    apply (Rmult_le_reg_r DI_max); [lra |].
    unfold Rdiv. rewrite Rmult_assoc, Rinv_l by lra. lra. }
  assert (HV : 0 <= DV / DV_max <= 1).
  { split; [apply Rmult_le_pos; [lra | left; now apply Rinv_0_lt_compat] |].
    apply (Rmult_le_reg_r DV_max); [lra |].
    unfold Rdiv. rewrite Rmult_assoc, Rinv_l by lra. lra. }
  set (x := DI / DI_max) in *. set (y := DV / DV_max) in *.
  assert (HI' : 0 <= (if use_stevens
                      then if Rgt_dec x 0 then Rpower x alpha else x
                      else x) <= 1).
  { destruct use_stevens; [| lra].
    destruct (Rgt_dec x 0); [| lra].
    pose proof (Rpower_unit x alpha ltac:(lra) Ha). lra. }
  assert (HV' : 0 <= (if use_stevens
                      then if Rgt_dec y 0 then Rpower y beta else y
                      else y) <= 1).
  { destruct use_stevens; [| lra].
    destruct (Rgt_dec y 0); [| lra].
    pose proof (Rpower_unit y beta ltac:(lra) Hb). lra. }
  nra.
Qed.

Lemma densidade_ponderada_range_witness :
  0 <= 50 <= 100 /\ 0 <= 5 <= 10 /\ 0 < 100 /\ 0 < 10
  /\ 0 <= 0.5 <= 1 /\ 0 <= 0.7 /\ 0 <= 0.4
  /\ exists d,
       calcular_densidade_ponderada_normalizada 50 5 (py "min-max") 0.5 100 10
         0.7 0.4 true = Some d
       /\ 0 <= d <= 10.
Proof.
  assert (H1 : 0 <= 50 <= 100) by lra.
  assert (H2 : 0 <= 5 <= 10) by lra.
  assert (H3 : 0 < 100) by lra.
  assert (H4 : 0 < 10) by lra.
  assert (H5 : 0 <= 0.5 <= 1) by lra.
  assert (H6 : 0 <= 0.7) by lra.
  assert (H7 : 0 <= 0.4) by lra.
  repeat (split; [assumption |]).
  exact (densidade_ponderada_range 50 5 0.5 100 10 0.7 0.4 true H1 H2 H3 H4 H5 H6 H7).
Defined.

Local Open Scope Q_scope.

Lemma fator_range (dinamica : pystr) :
  0.2 <= dict_get fatores_dinamica dinamica 1.0 <= 3.
Proof.
  unfold dict_get.
  destruct (fatores_dinamica !! dinamica) as [v |] eqn:E;
    [| split; vm_compute; discriminate].
  apply elem_of_list_to_map_2 in E.
  repeat (apply elem_of_cons in E as [E | E];
          [injection E as _ ->; split; vm_compute; discriminate |]).
  apply elem_of_nil in E. contradiction.
Qed.

Lemma index_Raise {A} (l : list A) (i : nat) (e : exn) :
  index l i = Raise e -> e = IndexError /\ (length l <= i)%nat.
Proof.
  unfold index. destruct (l !! i) eqn:E; [discriminate |].
  intros [= <-]. split; [reflexivity | now apply lookup_ge_None].
Qed.

Lemma massa_loop {A} (notas : list A) (dinamicas : list pystr)
    (numeros : list Z) (densidades : list Q) (a k : nat) (s : Q) :
  match for_each (seq a k) s (fun i massa_total =>
          dinamica ← index dinamicas i;
          let fator := dict_get fatores_dinamica dinamica 1.0 in
          densidade ← index densidades i;
          numero ← index numeros i;
          let massa_nota := densidade * fator * inject_Z numero in
          Ok (massa_total + massa_nota)) with
  | Ok m =>
      (k = 0%nat \/ (a + k <= length dinamicas /\ a + k <= length densidades
                     /\ a + k <= length numeros)%nat)
      /\ (0 <= s -> Forall (fun d => 0 <= d) densidades ->
          Forall (fun n => (0 <= n)%Z) numeros -> 0 <= m)
  | Raise e =>
      e = IndexError
      /\ (length dinamicas < a + k \/ length densidades < a + k
          \/ length numeros < a + k)%nat
  end.
Proof.
  revert a s. induction k as [| k IH]; intros a s; cbn [seq for_each].
  - split; [now left | auto].
  - destruct (index dinamicas a) as [din | e] eqn:Edin; cbn [mbind result_bind];
      [apply index_Ok in Edin | apply index_Raise in Edin as [-> ?]; split; [reflexivity | lia]].
    destruct (index densidades a) as [den | e] eqn:Eden; cbn [mbind result_bind];
      [apply index_Ok in Eden | apply index_Raise in Eden as [-> ?]; split; [reflexivity | lia]].
    destruct (index numeros a) as [num | e] eqn:Enum; cbn [mbind result_bind];
      [apply index_Ok in Enum | apply index_Raise in Enum as [-> ?]; split; [reflexivity | lia]].
    specialize (IH (S a) (s + den * dict_get fatores_dinamica din 1.0 * inject_Z num)).
    destruct (for_each _ _ _) as [m | e].
    + destruct IH as [Hk Hpos].
      pose proof (lookup_lt_Some _ _ _ Edin).
      pose proof (lookup_lt_Some _ _ _ Eden).
      pose proof (lookup_lt_Some _ _ _ Enum).
      split; [right; destruct Hk as [-> | Hk]; lia |].
      intros Hs Hd Hn. apply Hpos; [| exact Hd | exact Hn].
      rewrite Forall_forall in Hd. rewrite Forall_forall in Hn.
      assert (0 <= den) by (apply Hd, list_elem_of_lookup; eauto).
      assert (0 <= num)%Z by (apply Hn, list_elem_of_lookup; eauto).
      assert (0 <= inject_Z num) by (change 0 with (inject_Z 0); now rewrite <- Zle_Qle).
      pose proof (fator_range din) as [Hf _].
      assert (0 <= dict_get fatores_dinamica din 1.0).
      { apply Qle_trans with 0.2; [vm_compute; discriminate | exact Hf]. }
      assert (0 <= den * dict_get fatores_dinamica din 1.0 * inject_Z num).
      { apply Qmult_le_0_compat; [apply Qmult_le_0_compat |]; assumption. }
      lra.
    + destruct IH as [-> Hlt]. split; [reflexivity | lia].
Qed.

(** X12: [calcular_massa_sonora] raises IndexError exactly when one of the three
    other lists is shorter than [notas]; otherwise it returns a mass that
    is not negative when the densities and the counts are not. *)
Theorem calcular_massa_sonora_total {A} (notas : list A) (dinamicas : list pystr)
    (numeros_instrumentos : list Z) (densidades_instrumento : list Q) :
  match calcular_massa_sonora notas dinamicas numeros_instrumentos
          densidades_instrumento with
  | Ok m =>
      (length notas <= length dinamicas
       /\ length notas <= length densidades_instrumento
       /\ length notas <= length numeros_instrumentos)%nat
      /\ (Forall (fun d => 0 <= d) densidades_instrumento ->
          Forall (fun n => (0 <= n)%Z) numeros_instrumentos -> 0 <= m)
  | Raise e =>
      e = IndexError
      /\ (length dinamicas < length notas
          \/ length densidades_instrumento < length notas
          \/ length numeros_instrumentos < length notas)%nat
  end.
Proof.
  unfold calcular_massa_sonora, range. rewrite Nat.sub_0_r.
  pose proof (massa_loop notas dinamicas numeros_instrumentos
                densidades_instrumento 0 (length notas) 0) as H.
  destruct (for_each _ _ _) as [m | e].
  - destruct H as [Hk Hpos]. split.
    + destruct Hk as [-> | Hk]; lia.
    + intros Hd Hn. apply Hpos; [discriminate | exact Hd | exact Hn].
  - exact H.
Qed.

End metrics.

(** ** Notes the density functions leave out *)

Section com_cents.
Context {U : Unicode} {HU : UnicodeOk U}.
Import DataProcessor.
Local Open Scope R_scope.

Lemma valid_com_cents_length (notas : list pystr) :
  (length (fst (valid_com_cents notas)) <= length notas)%nat.
Proof.
  induction notas as [| nota rest IH]; [simpl; lia |].
  cbn [valid_com_cents]. destruct (valid_com_cents rest) as [vp vn].
  cbn [fst length] in *.
  destruct (eqb nota []); [cbn [fst]; lia |].
  destruct (try_note_to_midi nota) as [v |]; [| cbn [fst]; lia].
  destruct (negb _); [cbn [fst length]; lia |].
  destruct (startswith _ _); cbn [fst length]; lia.
Qed.

Lemma valid_com_cents_rejected (bad : pystr) (rest : list pystr) :
  Microtonal.is_valid_note bad = false ->
  startswith (py "C4") (List.flat_map upper bad) = false ->
  valid_com_cents (bad :: rest) = valid_com_cents rest.
Proof.
  intros Hv Hc. cbn [valid_com_cents].
  destruct (valid_com_cents rest) as [vp vn].
  destruct (eqb bad []); [reflexivity |].
  unfold try_note_to_midi. rewrite (note_to_midi_invalid bad Hv). cbn [fst].
  replace (Qeq_bool 60 60) with true by reflexivity. cbn [negb].
  rewrite Hc. reflexivity.
Qed.

Lemma valid_com_cents_insert (l1 l2 : list pystr) (bad : pystr) :
  Microtonal.is_valid_note bad = false ->
  startswith (py "C4") (List.flat_map upper bad) = false ->
  valid_com_cents (l1 ++ bad :: l2) = valid_com_cents (l1 ++ l2).
Proof.
  intros Hv Hc. induction l1 as [| x l1 IH].
  - now apply valid_com_cents_rejected.
  - cbn [app valid_com_cents]. now rewrite IH.
Qed.

(** X13: A note that [is_valid_note] rejects, and that does not start with C4,
    has no effect on [calcular_densidade_intervalar_com_cents]: wherever it
    stands in the list, the density is that of the list without it. *)
Theorem com_cents_ignores_rejected_note (stored : option R)
    (l1 l2 : list pystr) (bad : pystr) (lamb : R) :
  Microtonal.is_valid_note bad = false ->
  startswith (py "C4") (List.flat_map upper bad) = false ->
  calcular_densidade_intervalar_com_cents stored (l1 ++ bad :: l2) lamb
  = calcular_densidade_intervalar_com_cents stored (l1 ++ l2) lamb.
Proof.
  intros Hv Hc. unfold calcular_densidade_intervalar_com_cents.
  rewrite (valid_com_cents_insert l1 l2 bad Hv Hc).
  pose proof (valid_com_cents_length (l1 ++ l2)) as Hlen.
  destruct (valid_com_cents (l1 ++ l2)) as [vp vn]. cbn [fst] in Hlen.
  rewrite !length_app in *. cbn [length] in *.
  repeat case_bool_decide; try reflexivity; lia.
Qed.

End com_cents.

Section com_cents_witness.
Import DataProcessor.
Local Open Scope R_scope.

Lemma com_cents_ignores_rejected_note_witness :
  @Microtonal.is_valid_note ascii_unicode (py "H4") = false
  /\ startswith (py "C4") (List.flat_map (@upper ascii_unicode) (py "H4")) = false
  /\ @calcular_densidade_intervalar_com_cents ascii_unicode None
       ([py "D4"] ++ py "H4" :: [py "E4"]) 0.05
     = @calcular_densidade_intervalar_com_cents ascii_unicode None
         ([py "D4"] ++ [py "E4"]) 0.05.
Proof.
  assert (H1 : @Microtonal.is_valid_note ascii_unicode (py "H4") = false)
    by (vm_compute; reflexivity).
  assert (H2 : startswith (py "C4") (List.flat_map (@upper ascii_unicode) (py "H4"))
               = false) by (vm_compute; reflexivity).
  split; [exact H1 |]. split; [exact H2 |].
  exact (@com_cents_ignores_rejected_note ascii_unicode ascii_unicode_ok None
           [py "D4"] [py "E4"] (py "H4") 0.05 H1 H2).
Defined.

End com_cents_witness.

(** ** The two validators *)

Section validators.
Context {U : Unicode} {HU : UnicodeOk U}.
Import Re.

Lemma matches_is_Some (o : option (list pystr)) : matches o = true <-> is_Some o.
Proof. destruct o; simpl; split; intros H; eauto; try discriminate. destruct H; discriminate. Qed.

Ltac sharp_cases c :=
  unfold to_music_sharp;
  destruct (N.eqb_spec c HASH) as [-> | ?];
  try (vm_compute; congruence).

Lemma sharp_letter (c : char) : cls_letter c = true -> cls_letter (to_music_sharp c) = true.
Proof. sharp_cases c. Qed.

Lemma sharp_acc (c : char) : cls_acc c = true -> cls_acc3 (to_music_sharp c) = true.
Proof. sharp_cases c. unfold cls_acc3. now intros ->. Qed.

Lemma sharp_sign (c : char) : cls_sign c = true -> cls_sign (to_music_sharp c) = true.
Proof. sharp_cases c. Qed.

Lemma sharp_arrow (c : char) : cls_arrow c = true -> cls_arrow (to_music_sharp c) = true.
Proof. sharp_cases c. Qed.

Lemma sharp_digit (c : char) : is_digit c = true -> is_digit (to_music_sharp c) = true.
Proof.
  sharp_cases c; intros H; try exact H.
  destruct (digit_not_named _ H) as (_ & _ & _ & _ & Hh & _). congruence.
Qed.

Lemma sharp_lit_c (c : char) :
  (c =? LOWER_C)%N = true -> (to_music_sharp c =? LOWER_C)%N = true.
Proof. sharp_cases c. Qed.

Ltac sharp_atoms :=
  cbn [flat_map atoms cap raw app Notes._RE_STANDARD Notes._RE_QUARTER
       Notes._RE_ARROW Notes._RE_CENTS Microtonal._RE_STANDARD
       Microtonal._RE_QUARTER Microtonal._RE_ARROW Microtonal._RE_CENTS];
  repeat (constructor;
          [split; [reflexivity | split; [reflexivity |]]; cbn [cls one opt rep lit];
           first [ exact sharp_letter | exact sharp_acc | exact sharp_sign
                 | exact sharp_arrow | exact sharp_digit | exact sharp_lit_c ]
          |]);
  constructor.

Lemma sharp_transfer (r r' : re) (note : pystr) :
  Forall2 (atom_le (fun c => c) to_music_sharp)
          (List.flat_map atoms r) (List.flat_map atoms r') ->
  matches (match_dollar r note) = true ->
  matches (match_dollar r' (fmap (M := list) to_music_sharp note)) = true.
Proof.
  intros Hle H. apply matches_is_Some. apply matches_is_Some in H.
  apply (match_dollar_transfer (fun c => c) to_music_sharp r r' note);
    [auto | reflexivity | exact Hle |].
  now rewrite list_fmap_id.
Qed.

(** X14: Every string that [utils.notes.is_valid_note] accepts is accepted by
    [microtonal.is_valid_note]. *)
Theorem notes_valid_is_microtonal_valid (note : pystr) :
  Notes.is_valid_note note = true -> Microtonal.is_valid_note note = true.
Proof.
  intros H. unfold Microtonal.is_valid_note.
  case_bool_decide as Hne; [subst note; discriminate H |].
  rewrite replace_to_music_sharp. cbv zeta.
  unfold Notes.is_valid_note in H. rewrite !orb_true_iff in H.
  destruct H as [[[H | H] | H] | H].
  - rewrite (sharp_transfer Notes._RE_STANDARD Microtonal._RE_STANDARD note); auto.
    sharp_atoms.
  - rewrite (sharp_transfer Notes._RE_QUARTER Microtonal._RE_QUARTER note); auto.
    + now rewrite orb_true_r.
    + sharp_atoms.
  - rewrite (sharp_transfer Notes._RE_ARROW Microtonal._RE_ARROW note); auto.
    + now rewrite !orb_true_r.
    + sharp_atoms.
  - rewrite (sharp_transfer Notes._RE_CENTS Microtonal._RE_CENTS note); auto.
    + now rewrite !orb_true_r.
    + sharp_atoms.
Qed.

End validators.

Lemma notes_valid_is_microtonal_valid_witness :
  @Notes.is_valid_note ascii_unicode (py "Eb4+50c") = true
  /\ @Microtonal.is_valid_note ascii_unicode (py "Eb4+50c") = true.
Proof.
  assert (H : @Notes.is_valid_note ascii_unicode (py "Eb4+50c") = true)
    by (vm_compute; reflexivity).
  split; [exact H |].
  exact (@notes_valid_is_microtonal_valid ascii_unicode ascii_unicode_ok _ H).
Defined.

(** ** Symbols and notations of [microtonal.py] *)

Section notations.
Import Builtins MicrotonalNotation.

Lemma replace_absent (x : char) (new : pystr) (s : pystr) :
  contains x s = false -> replace x new s = s.
Proof.
  unfold contains, replace. intros H. apply bool_decide_eq_false in H.
  induction s as [| c s IH]; [reflexivity |].
  cbn [flat_map]. destruct (N.eqb_spec c x) as [-> | Hne].
  - exfalso. apply H. apply list_elem_of_here.
  - rewrite IH; [reflexivity |]. intros Hin. apply H. now apply list_elem_of_further.
Qed.

Lemma replace_one (x y : char) (s : pystr) :
  replace x [y] s = fmap (M := list) (fun c => if (c =? x)%N then y else c) s.
Proof.
  unfold replace. induction s as [| c s IH]; csimpl; [reflexivity |].
  rewrite IH. now destruct (c =? x)%N.
Qed.

Lemma replace_if_contains (x y : char) (s : pystr) :
  (if contains x s then replace x [y] s else s) = replace x [y] s.
Proof.
  destruct (contains x s) eqn:E; [reflexivity |]. now rewrite replace_absent.
Qed.

Lemma normalizar_simbolos_nota_fmap (nota : pystr) :
  normalizar_simbolos_nota nota = fmap (M := list) ascii_symbol nota.
Proof.
  unfold normalizar_simbolos_nota, eqb.
  case_bool_decide as Hn; [subst; reflexivity |].
  cbv zeta. change (py "-") with [MINUS]. change (py "+") with [PLUS].
  change (py "#") with [HASH].
  rewrite !replace_if_contains, !replace_one, <- !list_fmap_compose.
  apply list_fmap_ext. intros _ c _. unfold compose, ascii_symbol.
  destruct (N.eqb_spec c SUSTENIDO_MUSICAL) as [-> | H1]; [reflexivity |].
  destruct (N.eqb_spec c QUARTO_TOM_ACIMA) as [-> | H2]; [reflexivity |].
  reflexivity.
Qed.

(** X15: The result of [normalizar_simbolos_nota] has the length of its
    argument and holds none of the symbols ♯, ↑ and ↓, and normalising it
    again changes nothing. *)
Theorem normalizar_simbolos_nota_ascii (nota : pystr) :
  length (normalizar_simbolos_nota nota) = length nota
  /\ Forall (fun c => c <> SUSTENIDO_MUSICAL /\ c <> QUARTO_TOM_ACIMA
                      /\ c <> QUARTO_TOM_ABAIXO)
            (normalizar_simbolos_nota nota)
  /\ normalizar_simbolos_nota (normalizar_simbolos_nota nota)
     = normalizar_simbolos_nota nota.
Proof.
  rewrite !normalizar_simbolos_nota_fmap. split; [apply length_fmap |]. split.
  - apply Forall_fmap, Forall_true. intros c. unfold compose, ascii_symbol.
    destruct (N.eqb_spec c SUSTENIDO_MUSICAL) as [-> | H1];
      [repeat split; discriminate |].
    destruct (N.eqb_spec c QUARTO_TOM_ACIMA) as [-> | H2];
      [repeat split; discriminate |].
    destruct (N.eqb_spec c QUARTO_TOM_ABAIXO) as [-> | H3];
      [repeat split; discriminate |].
    auto.
  - rewrite <- list_fmap_compose. apply list_fmap_ext. intros _ c _.
    unfold compose, ascii_symbol.
    destruct (N.eqb_spec c SUSTENIDO_MUSICAL) as [-> | H1]; [reflexivity |].
    destruct (N.eqb_spec c QUARTO_TOM_ACIMA) as [-> | H2]; [reflexivity |].
    destruct (N.eqb_spec c QUARTO_TOM_ABAIXO) as [-> | H3]; [reflexivity |].
    apply N.eqb_neq in H1, H2, H3. now rewrite H1, H2, H3.
Qed.

(** *** The two quarter-tone notations *)

Lemma NOTACAO_QUARTOS_TOM_checked :
  forallb (fun '(k, v) =>
             bool_decide (NOTACAO_QUARTOS_TOM !! v = Some k)
             && match last v with
                | Some c => bool_decide (c ∈ quarter_marks)
                | None => false
                end
             && (2 <=? length v)%nat)
          notation_pairs = true.
Proof. vm_compute. reflexivity. Qed.

Lemma NOTACAO_QUARTOS_TOM_inverse (k v : pystr) :
  NOTACAO_QUARTOS_TOM !! k = Some v ->
  NOTACAO_QUARTOS_TOM !! v = Some k
  /\ (exists c, last v = Some c /\ c ∈ quarter_marks)
  /\ (2 <= length v)%nat.
Proof.
  intros H. apply elem_of_map_to_list in H.
  pose proof NOTACAO_QUARTOS_TOM_checked as Hc.
  rewrite forallb_forall in Hc. specialize (Hc (k, v)).
  rewrite <- list_elem_of_In in Hc. specialize (Hc H). cbn beta iota in Hc.
  apply andb_true_iff in Hc as [Hc H3]. apply andb_true_iff in Hc as [H1 H2].
  apply bool_decide_eq_true in H1. apply Nat.leb_le in H3.
  destruct (last v) as [c |]; [| discriminate].
  apply bool_decide_eq_true in H2. eauto.
Qed.

Lemma last_app_singleton (s : pystr) (c : char) : last (s ++ [c]) = Some c.
Proof. apply last_snoc. Qed.

(** X16: [converter_notacao_microtonal] is its own inverse: converting a note
    twice gives the note back, for every string. *)
Theorem converter_notacao_microtonal_involutive (isdigit : char -> bool)
    (nota : pystr) :
  Forall (fun c => isdigit c = false) quarter_marks ->
  converter_notacao_microtonal isdigit (converter_notacao_microtonal isdigit nota)
  = nota.
Proof.
  intros Hmarks. rewrite Forall_forall in Hmarks.
  unfold converter_notacao_microtonal at 2.
  destruct (length nota <? 2)%nat eqn:Hlen.
  { unfold converter_notacao_microtonal. now rewrite Hlen. }
  apply Nat.ltb_ge in Hlen.
  destruct (exists_last (l := nota)) as (body & c & ->).
  { intros ->. simpl in Hlen. lia. }
  rewrite last_snoc, removelast_last.
  rewrite length_app in Hlen. cbn [length] in Hlen.
  destruct (isdigit c) eqn:Hc.
  - (* an octave digit *)
    assert (Hbody : forall nb, (1 <= length nb)%nat ->
              (match NOTACAO_QUARTOS_TOM !! nb with Some v => v | None => nb end
               = body) ->
              converter_notacao_microtonal isdigit (nb ++ [c]) = body ++ [c]).
    { intros nb Hnb Hback. unfold converter_notacao_microtonal.
      rewrite length_app. cbn [length].
      replace (length nb + 1 <? 2)%nat with false by (symmetry; apply Nat.ltb_ge; lia).
      rewrite last_snoc, removelast_last, Hc, Hback. reflexivity. }
    destruct (NOTACAO_QUARTOS_TOM !! body) as [v |] eqn:E.
    + destruct (NOTACAO_QUARTOS_TOM_inverse body v E) as (Hinv & _ & Hl).
      apply Hbody; [lia |]. now rewrite Hinv.
    + apply Hbody; [lia |]. now rewrite E.
  - (* no octave *)
    rewrite app_nil_r.
    destruct (NOTACAO_QUARTOS_TOM !! (body ++ [c])) as [v |] eqn:E.
    + destruct (NOTACAO_QUARTOS_TOM_inverse _ v E) as (Hinv & (d & Hd & Hmark) & Hl).
      unfold converter_notacao_microtonal.
      replace (length v <? 2)%nat with false by (symmetry; apply Nat.ltb_ge; lia).
      rewrite Hd, (Hmarks d Hmark), Hinv. apply app_nil_r.
    + unfold converter_notacao_microtonal.
      rewrite length_app. cbn [length].
      replace (length body + 1 <? 2)%nat with false by (symmetry; apply Nat.ltb_ge; lia).
      rewrite last_snoc, Hc, E. apply app_nil_r.
Qed.

Lemma converter_notacao_microtonal_involutive_witness :
  Forall (fun c => cls_09 c = false) quarter_marks
  /\ converter_notacao_microtonal cls_09
       (converter_notacao_microtonal cls_09 (py "C↑4")) = py "C↑4".
Proof.
  assert (H : Forall (fun c => cls_09 c = false) quarter_marks)
    by (repeat constructor).
  split; [exact H |].
  exact (converter_notacao_microtonal_involutive cls_09 (py "C↑4") H).
Defined.

End notations.

(** ** Positions on the 24-step scale *)

Section positions.
Import Builtins MicrotonalNotation.
Local Open Scope Q_scope.

Lemma forallb_elem {A} (f : A -> bool) (l : list A) (x : A) :
  forallb f l = true -> x ∈ l -> f x = true.
Proof.
  intros H Hx. rewrite forallb_forall in H. apply H. now apply list_elem_of_In.
Qed.

Lemma flats_checked :
  forallb (fun base => forallb (fun m => forallb (fun d =>
             raises_ValueError (posicao (base ++ m ++ [d])))
           octave_digits) markers) flat_bases = true.
Proof. vm_compute. reflexivity. Qed.

(** X17: [nota_para_posicao] raises ValueError for every note spelled with a
    flat: it upper-cases the base, and no key of [ESCALA_MICROTONAL] is
    written with an upper-case B after the letter. *)
Theorem nota_para_posicao_rejects_flats (base mark : pystr) (d : char) :
  base ∈ flat_bases -> mark ∈ markers -> d ∈ octave_digits ->
  exists msg, posicao (base ++ mark ++ [d]) = Raise (ValueError msg).
Proof.
  intros Hb Hm Hd.
  pose proof (forallb_elem _ _ d
                (forallb_elem _ _ mark (forallb_elem _ _ base flats_checked Hb) Hm) Hd)
    as H. cbn beta in H.
  destruct (posicao _) as [v | [msg | | | | | |]]; try discriminate. eauto.
Qed.

Lemma nota_para_posicao_rejects_flats_witness :
  py "Db" ∈ flat_bases /\ [] ∈ markers /\ 52%N ∈ octave_digits
  /\ exists msg, posicao (py "Db" ++ [] ++ [52%N]) = Raise (ValueError msg).
Proof.
  assert (H1 : py "Db" ∈ flat_bases)
    by (rewrite list_elem_of_In; vm_compute; repeat (first [left; reflexivity | right])).
  assert (H2 : ([] : pystr) ∈ markers) by (apply list_elem_of_here).
  assert (H3 : 52%N ∈ octave_digits)
    by (rewrite list_elem_of_In; vm_compute; repeat (first [left; reflexivity | right])).
  split; [exact H1 |]. split; [exact H2 |]. split; [exact H3 |].
  exact (nota_para_posicao_rejects_flats (py "Db") [] 52%N H1 H2 H3).
Defined.

Lemma positions_checked :
  forallb (fun base => forallb (fun m => forallb (fun d =>
             c_quarter_flat base m || position_agrees (base ++ m ++ [d]))
           octave_digits) markers) sharp_bases = true.
Proof. vm_compute. reflexivity. Qed.

(** X18: For the twelve chromatic names, plain or with a quarter-tone mark,
    [nota_para_posicao] is twice [note_to_midi] less 23; the one exception
    is C lowered by a quarter tone. *)
Theorem nota_para_posicao_twice_midi (base mark : pystr) (d : char) :
  base ∈ sharp_bases -> mark ∈ markers -> d ∈ octave_digits ->
  c_quarter_flat base mark = false ->
  exists v, via_microtonal (base ++ mark ++ [d]) = Ok v
            /\ returns (posicao (base ++ mark ++ [d])) (2 * v - 23).
Proof.
  intros Hb Hm Hd Hc.
  pose proof (forallb_elem _ _ d
                (forallb_elem _ _ mark (forallb_elem _ _ base positions_checked Hb) Hm) Hd)
    as H. cbn beta in H. rewrite Hc in H. cbn [orb] in H.
  unfold position_agrees in H.
  destruct (via_microtonal _) as [v |]; [| discriminate].
  exists v. split; [reflexivity |]. now apply returnsb_spec.
Qed.

Lemma nota_para_posicao_twice_midi_witness :
  py "c#" ∈ sharp_bases /\ [PLUS] ∈ markers /\ 52%N ∈ octave_digits
  /\ c_quarter_flat (py "c#") [PLUS] = false
  /\ exists v, via_microtonal (py "c#" ++ [PLUS] ++ [52%N]) = Ok v
               /\ returns (posicao (py "c#" ++ [PLUS] ++ [52%N])) (2 * v - 23).
Proof.
  assert (H1 : py "c#" ∈ sharp_bases)
    by (rewrite list_elem_of_In; vm_compute; repeat (first [left; reflexivity | right])).
  assert (H2 : [PLUS] ∈ markers)
    by (rewrite list_elem_of_In; vm_compute; repeat (first [left; reflexivity | right])).
  assert (H3 : 52%N ∈ octave_digits)
    by (rewrite list_elem_of_In; vm_compute; repeat (first [left; reflexivity | right])).
  assert (H4 : c_quarter_flat (py "c#") [PLUS] = false) by (vm_compute; reflexivity).
  split; [exact H1 |]. split; [exact H2 |]. split; [exact H3 |]. split; [exact H4 |].
  exact (nota_para_posicao_twice_midi (py "c#") [PLUS] 52%N H1 H2 H3 H4).
Defined.

End positions.

(** ** Note names *)

Section names.
Import Builtins MicrotonalNotation.
Local Open Scope Q_scope.

Lemma names_checked :
  forallb (fun n => forallb (fun c =>
             (n =? 127)%Z && negb (c =? 0)%Z || name_round_trips n c)
           cents_numbers) pitch_numbers = true.
Proof. vm_compute. reflexivity. Qed.

Lemma elem_of_Z_seq (a len : nat) (z : Z) :
  (Z.of_nat a <= z < Z.of_nat (a + len))%Z -> z ∈ (Z.of_nat <$> seq a len).
Proof.
  intros H. replace z with (Z.of_nat (Z.to_nat z)) by lia.
  apply list_elem_of_fmap_2. rewrite list_elem_of_In, in_seq. lia.
Qed.

(** X19: From MIDI 12 (C0) to 127, the name that [midi_to_note_name] gives a
    pitch with a whole number of cents from 0 to 99 is read back by
    [note_to_midi] as that pitch. *)
Theorem midi_to_note_name_round_trip (n c : Z) :
  (12 <= n <= 127)%Z -> (0 <= c <= 99)%Z -> (n = 127%Z -> c = 0%Z) ->
  exists name,
    midi_to_note_name (inject_Z n + inject_Z c / 100) true false = Ok name
    /\ returns (via_microtonal name) (inject_Z n + inject_Z c / 100).
Proof.
  intros Hn Hc Htop.
  assert (Hn' : n ∈ pitch_numbers) by (apply elem_of_Z_seq; simpl; lia).
  assert (Hc' : c ∈ cents_numbers) by (apply elem_of_Z_seq; simpl; lia).
  pose proof (forallb_elem _ _ c (forallb_elem _ _ n names_checked Hn') Hc') as H.
  cbn beta in H.
  assert (Hex : ((n =? 127)%Z && negb (c =? 0)%Z) = false).
  { destruct (Z.eqb_spec n 127) as [E | E]; [| reflexivity].
    rewrite (Htop E). reflexivity. }
  rewrite Hex in H. cbn [orb] in H. unfold name_round_trips in H.
  destruct (midi_to_note_name _ _ _) as [name |]; [| discriminate].
  exists name. split; [reflexivity |]. now apply returnsb_spec.
Qed.

Lemma midi_to_note_name_round_trip_witness :
  (12 <= 60 <= 127)%Z /\ (0 <= 50 <= 99)%Z /\ (60%Z = 127%Z -> 50%Z = 0%Z)
  /\ exists name,
       midi_to_note_name (inject_Z 60 + inject_Z 50 / 100) true false = Ok name
       /\ returns (via_microtonal name) (inject_Z 60 + inject_Z 50 / 100).
Proof.
  assert (H1 : (12 <= 60 <= 127)%Z) by lia.
  assert (H2 : (0 <= 50 <= 99)%Z) by lia.
  assert (H3 : 60%Z = 127%Z -> 50%Z = 0%Z) by lia.
  split; [exact H1 |]. split; [exact H2 |]. split; [exact H3 |].
  exact (midi_to_note_name_round_trip 60 50 H1 H2 H3).
Defined.

(** below MIDI 12 the octave is -1 and the name is read as a quarter tone *)
Lemma midi_to_note_name_octave_minus_one :
  midi_to_note_name 0 false false = Ok (py "C-1")
  /\ returns (via_microtonal (py "C-1")) (47 # 2).
Proof. split; vm_compute; reflexivity. Qed.

Lemma digits_fuel_Forall (P : char -> Prop) (fuel : nat) (n : N) (acc : pystr) :
  (forall d, (d < 10)%N -> P (48 + d)%N) -> Forall P acc ->
  Forall P (digits_fuel fuel n acc).
Proof.
  intros Hd. revert n acc. induction fuel as [| fuel IH]; intros n acc Hacc;
    cbn [digits_fuel].
  - constructor; [apply Hd, N.mod_lt; discriminate | exact Hacc].
  - destruct (n <? 10)%N.
    + constructor; [apply Hd, N.mod_lt; discriminate | exact Hacc].
    + apply IH. constructor; [apply Hd, N.mod_lt; discriminate | exact Hacc].
Qed.

Lemma str_no_arrow (z : Z) : Forall (fun c => c <> QUARTO_TOM_ACIMA) (str z).
Proof.
  unfold str.
  assert (H : Forall (fun c => c <> QUARTO_TOM_ACIMA)
                (digits_fuel (N.to_nat (N.log2 (Z.to_N (Z.abs z))))
                             (Z.to_N (Z.abs z)) [])).
  { apply digits_fuel_Forall; [| constructor].
    intros d Hd. unfold QUARTO_TOM_ACIMA. lia. }
  destruct (z <? 0)%Z; [constructor; [discriminate | exact H] | exact H].
Qed.

Lemma NOTAS_CROMATICAS_no_arrow (i : nat) (nb : pystr) :
  NOTAS_CROMATICAS !! i = Some nb -> Forall (fun c => c <> QUARTO_TOM_ACIMA) nb.
Proof.
  intros H.
  do 12 (destruct i as [| i];
         [injection H as <-; repeat constructor; discriminate |]).
  discriminate.
Qed.

Lemma round_nonneg (q : Q) : 0 <= q -> (0 <= SpectralAnalysis.round q)%Z.
Proof.
  intros H. unfold SpectralAnalysis.round.
  assert (0 <= Qfloor q)%Z.
  { change 0%Z with (Qfloor 0). now apply Qfloor_resp_le. }
  destruct (Qcompare _ _); [destruct (Z.even _) | |]; lia.
Qed.

Lemma midi_to_note_name_no_arrow_up (midi_number : Q)
    (include_cents use_symbols : bool) :
  exists name,
    midi_to_note_name midi_number include_cents use_symbols = Ok name
    /\ QUARTO_TOM_ACIMA ∉ name.
Proof.
  unfold midi_to_note_name.
  destruct (Qlt_le_dec midi_number 0) as [Hneg | Hpos].
  { eexists. split; [reflexivity |]. vm_compute. intros H.
    repeat (apply elem_of_cons in H as [H | H]; [discriminate |]).
    now apply elem_of_nil in H. }
  destruct (Qlt_le_dec 127 midi_number) as [Hbig | Hle].
  { eexists. split; [reflexivity |]. vm_compute. intros H.
    repeat (apply elem_of_cons in H as [H | H]; [discriminate |]).
    now apply elem_of_nil in H. }
  cbv zeta.
  assert (Ht : trunc midi_number = Qfloor midi_number).
  { unfold trunc. destruct (Qlt_le_dec midi_number 0) as [H | H]; [| reflexivity].
    exfalso. apply (Qlt_irrefl 0). now apply Qle_lt_trans with midi_number. }
  rewrite Ht.
  set (mi := Qfloor midi_number).
  assert (Hidx : (Z.to_nat (mi mod 12) < length NOTAS_CROMATICAS)%nat).
  { pose proof (Z.mod_pos_bound mi 12 ltac:(lia)). simpl. lia. }
  destruct (index_lt NOTAS_CROMATICAS _ Hidx) as (nb & -> & Hnb).
  cbn [mbind result_bind].
  pose proof (NOTAS_CROMATICAS_no_arrow _ _ Hnb) as Hnb'.
  pose proof (str_no_arrow (mi / 12 - 1)) as Hoct.
  set (cents := SpectralAnalysis.round
                  ((midi_number - inject_Z mi) * inject_Z CENTS_POR_SEMITOM)).
  assert (Hcents : (0 <= cents)%Z).
  { apply round_nonneg. apply Qmult_le_0_compat; [| discriminate].
    pose proof (Qfloor_le midi_number). fold mi in H. lra. }
  pose proof (str_no_arrow cents) as Hcs.
  assert (Hup : (cents <=? -15)%Z = false) by (apply Z.leb_gt; lia).
  rewrite Hup, !andb_false_r.
  assert (Hfree : forall l : pystr,
            Forall (fun c => c <> QUARTO_TOM_ACIMA) l -> QUARTO_TOM_ACIMA ∉ l).
  { intros l Hl Hin. rewrite Forall_forall in Hl. now apply (Hl _ Hin). }
  assert (Hplus : Forall (fun c => c <> QUARTO_TOM_ACIMA) (py "+"))
    by (repeat constructor; discriminate).
  assert (Hc : Forall (fun c => c <> QUARTO_TOM_ACIMA) (py "c"))
    by (repeat constructor; discriminate).
  assert (Hdown : Forall (fun c => c <> QUARTO_TOM_ACIMA) [QUARTO_TOM_ABAIXO])
    by (repeat constructor; discriminate).
  repeat match goal with
         | |- context [if ?b then _ else _] => destruct b
         end;
    eexists; (split; [reflexivity |]); apply Hfree;
    repeat (apply Forall_app; split); assumption.
Qed.

(** X20: [midi_to_note_name] raises on NaN only, the ValueError of [int];
    on every other float, the infinities included, it returns a name, and no
    name it returns holds the arrow ↑: the fraction of a pitch that is not
    negative is not negative, so the branch for a quarter tone below is never
    taken. *)
Theorem midi_to_note_name_never_arrow_up (midi_number : SpectralAnalysis.pyfloat)
    (include_cents use_symbols : bool) :
  midi_to_note_name_float SpectralAnalysis.NaN include_cents use_symbols
  = Raise (ValueError (py "cannot convert float NaN to integer"))
  /\ (midi_number <> SpectralAnalysis.NaN ->
      exists name,
        midi_to_note_name_float midi_number include_cents use_symbols = Ok name
        /\ QUARTO_TOM_ACIMA ∉ name).
Proof.
  split.
  - reflexivity.
  - intros Hnan.
    assert (Hna : QUARTO_TOM_ACIMA ∉ py "N/A").
    { vm_compute. intros H.
      repeat (apply elem_of_cons in H as [H | H]; [discriminate |]).
      now apply elem_of_nil in H. }
    destruct midi_number as [q | | |]; cbn [midi_to_note_name_float].
    + apply midi_to_note_name_no_arrow_up.
    + eexists. split; [reflexivity | exact Hna].
    + eexists. split; [reflexivity | exact Hna].
    + congruence.
Qed.

End names.

(** ** More on the chroma vector *)

Section chroma_more.
Import SpectralAnalysis.
Local Open Scope Q_scope.

Lemma Qfloor_shift (q : Q) (z : Z) : Qfloor (q + inject_Z z) = (Qfloor q + z)%Z.
Proof.
  pose proof (Qfloor_le q) as H1. pose proof (Qlt_floor q) as H2.
  pose proof (Qfloor_le (q + inject_Z z)) as H3.
  pose proof (Qlt_floor (q + inject_Z z)) as H4.
  rewrite inject_Z_plus in H2, H4.
  assert (Ha : inject_Z (Qfloor (q + inject_Z z)) < inject_Z (Qfloor q + z + 1)).
  { rewrite !inject_Z_plus. lra. }
  assert (Hb : inject_Z (Qfloor q + z) < inject_Z (Qfloor (q + inject_Z z) + 1)).
  { rewrite !inject_Z_plus. lra. }
  rewrite <- Zlt_Qlt in Ha, Hb. lia.
Qed.

Lemma round_shift (q : Q) (k : Z) :
  round (q + inject_Z (12 * k)) = (round q + 12 * k)%Z.
Proof.
  unfold round. rewrite Qfloor_shift.
  assert (Hr : q + inject_Z (12 * k) - inject_Z (Qfloor q + 12 * k)
               == q - inject_Z (Qfloor q)).
  { rewrite inject_Z_plus. ring. }
  rewrite (Qcompare_comp _ _ Hr _ _ (Qeq_refl (1 # 2))).
  replace (Z.even (Qfloor q + 12 * k)) with (Z.even (Qfloor q))
    by (rewrite Z.even_add, Z.even_mul; simpl; now destruct (Z.even (Qfloor q))).
  destruct (Qcompare _ _); [destruct (Z.even _) | |]; lia.
Qed.

Lemma accumulate_transpose (chroma : list pyfloat) (p a : Q) (k : Z) :
  accumulate chroma (p + inject_Z (12 * k)) a = accumulate chroma p a.
Proof.
  unfold accumulate. cbn [isnan isinf negb andb].
  rewrite round_shift.
  replace ((round p + 12 * k) mod 12)%Z with (round p mod 12)%Z; [reflexivity |].
  rewrite (Z.mul_comm 12 k), Z.mod_add by lia. reflexivity.
Qed.

Lemma foldl_accumulate_ext (ps qs : list Q) (amps : list Q)
    (chroma : list pyfloat) :
  Forall2 (fun p q => forall c a, accumulate c p a = accumulate c q a) ps qs ->
  foldl (fun chroma '(p, a) => accumulate chroma p a) chroma (zip ps amps)
  = foldl (fun chroma '(p, a) => accumulate chroma p a) chroma (zip qs amps).
Proof.
  intros H. revert amps chroma.
  induction H as [| p q ps qs Hpq _ IH]; intros amps chroma; [reflexivity |].
  destruct amps as [| a amps]; [reflexivity |].
  cbn [zip zip_with foldl]. rewrite Hpq. apply IH.
Qed.

(** X21: Moving every finite pitch by a whole number of octaves leaves the
    chroma vector unchanged. *)
Theorem chroma_vector_octave_invariant (k : Z) (pitches : list pyfloat)
    (amplitudes : option (list pyfloat)) :
  calculate_chroma_vector (transpose k <$> pitches) amplitudes
  = calculate_chroma_vector pitches amplitudes.
Proof.
  unfold calculate_chroma_vector.
  assert (Hlen : (fun _ : Q => 1) <$> _safe_array (transpose k <$> pitches)
                 = (fun _ : Q => 1) <$> _safe_array pitches).
  { unfold _safe_array. rewrite <- !list_fmap_compose.
    apply list_fmap_ext. reflexivity. }
  assert (Hfold : forall amps chroma,
            foldl (fun chroma '(p, a) => accumulate chroma p a) chroma
                  (zip (_safe_array (transpose k <$> pitches)) amps)
            = foldl (fun chroma '(p, a) => accumulate chroma p a) chroma
                    (zip (_safe_array pitches) amps)).
  { intros amps chroma. apply foldl_accumulate_ext.
    unfold _safe_array. rewrite <- list_fmap_compose.
    apply Forall2_fmap, Forall_Forall2_diag, Forall_true.
    intros x c a. unfold compose. destruct x; try reflexivity.
    cbn [transpose nan_to_num]. apply accumulate_transpose. }
  destruct amplitudes as [amps |].
  - now rewrite Hfold.
  - cbv zeta. now rewrite Hlen, Hfold.
Qed.

(** *** Entries between 0 and 1 *)

(** X22: [calculate_chroma_vector] always returns 12 entries (also for no
    pitch at all); when the amplitudes paired with a pitch are not negative
    and their total is at most [2^1023], every entry is a finite float
    between 0 and 1. *)
Theorem chroma_vector_entries (pitches : list pyfloat)
    (amplitudes : option (list pyfloat)) :
  length (calculate_chroma_vector pitches amplitudes) = 12%nat
  /\ (Forall (fun a => 0 <= a) (paired_amplitudes pitches amplitudes) ->
      sum (paired_amplitudes pitches amplitudes) <= HALF_RANGE ->
      Forall (fun x => exists c, x = Fin c /\ 0 <= c <= 1)
             (calculate_chroma_vector pitches amplitudes)).
Proof.
  split; [apply chroma_vector_length |].
  intros Hn Hb. pose proof HALF_RANGE_lt.
  pose proof (sum_nonneg _ Hn) as H0.
  destruct (Qlt_le_dec 0 (sum (paired_amplitudes pitches amplitudes)))
    as [Hpos | Hzero].
  - destruct (chroma_vector_normalised pitches amplitudes Hn Hpos)
      as (cs & t & Hc & Hl & Hcn & Ht & Hsum & _); [lra |].
    rewrite Hc. rewrite <- list_fmap_compose.
    apply Forall_fmap, Forall_lookup. intros k c Hk. cbn [compose].
    exists (c / t). split; [reflexivity |].
    pose proof (elem_le_sum cs k c Hcn Hk).
    rewrite Forall_forall in Hcn.
    pose proof (Hcn c (list_elem_of_lookup_2 _ _ _ Hk)).
    split; [apply Qle_shift_div_l | apply Qle_shift_div_r]; lra.
  - destruct (chroma_accumulated pitches amplitudes Hn)
      as (cs & t & Hcs & Ht & Hl & Hcn & Hteq & Hsum & _); [lra |].
    unfold calculate_chroma_vector. fold (paired pitches amplitudes).
    rewrite Hcs, Ht. cbn [positive].
    destruct (Qlt_le_dec 0 t) as [Ht0 | Ht0]; [lra |].
    apply Forall_fmap, Forall_lookup. intros k c Hk.
    exists c. split; [reflexivity |].
    pose proof (elem_le_sum cs k c Hcn Hk).
    rewrite Forall_forall in Hcn.
    pose proof (Hcn c (list_elem_of_lookup_2 _ _ _ Hk)). lra.
Qed.

End chroma_more.

(** ** Validation of a dictionary *)

Section input_validation.
Context {U : Unicode}.
Import InputValidation.

(** X23: [validate_input_data] returns exactly when every required field is
    present with a value that is not [None], an empty list or a blank
    string; otherwise it raises InputError for the first field, in the
    order of [required_fields], that is not, and names it in the message. *)
Theorem validate_input_data_first_failure {A} (data : gmap pystr (pyvalue A))
    (required_fields : list pystr) :
  match validate_input_data data required_fields with
  | (Ok _, w) => w = [] /\ Forall (field_ok data) required_fields
  | (Raise e, w) =>
      w = []
      /\ exists before field after message,
           required_fields = before ++ field :: after
           /\ Forall (field_ok data) before
           /\ ~ field_ok data field
           /\ e = InputError_init message field
  end.
Proof.
  induction required_fields as [| field rest IH]; cbn [validate_input_data].
  - split; [reflexivity | constructor].
  - assert (Hbad : forall message,
              ~ field_ok data field ->
              [] = ([] : list record)
              /\ exists before field0 after message0,
                   field :: rest = before ++ field0 :: after
                   /\ Forall (field_ok data) before
                   /\ ~ field_ok data field0
                   /\ InputError_init message field = InputError_init message0 field0).
    { intros message Hn. split; [reflexivity |].
      exists [], field, rest, message. repeat split; [constructor | exact Hn]. }
    assert (Hgood : field_ok data field ->
              match validate_input_data data rest with
              | (Ok _, w) => w = [] /\ Forall (field_ok data) (field :: rest)
              | (Raise e, w) =>
                  w = []
                  /\ exists before field0 after message,
                       field :: rest = before ++ field0 :: after
                       /\ Forall (field_ok data) before
                       /\ ~ field_ok data field0
                       /\ e = InputError_init message field0
              end).
    { intros Hok. destruct (validate_input_data data rest) as [[[] | e] w].
      - destruct IH as [-> IH]. split; [reflexivity | now constructor].
      - destruct IH as (-> & before & f & after & msg & -> & Hb & Hf & ->).
        split; [reflexivity |].
        exists (field :: before), f, after, msg.
        repeat split; [now constructor | exact Hf]. }
    destruct (data !! field) as [value |] eqn:E.
    + destruct value as [| l | s | a].
      * apply Hbad. intros (v & Hv & Hn & _). congruence.
      * destruct l as [| x l].
        -- apply Hbad. intros (v & Hv & _ & Hn & _). congruence.
        -- apply Hgood. exists (PyList (x :: l)).
           repeat split; try discriminate. exact E.
      * unfold eqb. case_bool_decide as Hs.
        -- apply Hbad. intros (v & Hv & _ & _ & Hn).
           apply (Hn s); congruence.
        -- apply Hgood. exists (PyStr s).
           repeat split; try discriminate; [exact E |].
           intros s' [= <-]. exact Hs.
      * apply Hgood. exists (PyOther a).
        repeat split; try discriminate. exact E.
    + apply Hbad. intros (v & Hv & _). congruence.
Qed.

End input_validation.

(** ** The quarter-tone codes [+] and [-] *)

Section quarter_codes.
Local Open Scope Q_scope.

Lemma quarter_codes_checked :
  forallb (fun base => forallb (quarter_codes_differb base) octave_digits)
          chromatic_bases = true.
Proof. vm_compute. reflexivity. Qed.

(** X24: For the base spellings that [ESCALA_CROMATICA] knows, the two
    conversion paths read the codes [+] and [-] in opposite ways:
    [microtonal.note_to_midi] raises the note by 0.5 for [+] and lowers it
    for [-], [utils.notes] lowers it for [+] and raises it for [-], so the
    two results are one semitone apart. *)
Theorem quarter_codes_read_in_opposite_ways (base : pystr) (d : char) :
  base ∈ chromatic_bases -> d ∈ octave_digits ->
  exists v,
    via_microtonal (base ++ [d]) = Ok v
    /\ returns (via_microtonal (base ++ [PLUS; d])) (v + (1 # 2))
    /\ returns (via_notes (base ++ [PLUS; d])) (v - (1 # 2))
    /\ returns (via_microtonal (base ++ [MINUS; d])) (v - (1 # 2))
    /\ returns (via_notes (base ++ [MINUS; d])) (v + (1 # 2)).
Proof.
  intros Hb Hd.
  pose proof quarter_codes_checked as H. rewrite forallb_forall in H.
  specialize (H base). rewrite <- list_elem_of_In in H. specialize (H Hb).
  rewrite forallb_forall in H. specialize (H d).
  rewrite <- list_elem_of_In in H. specialize (H Hd).
  unfold quarter_codes_differb in H.
  destruct (via_microtonal (base ++ [d])) as [v |]; [| discriminate].
  rewrite !andb_true_iff in H. destruct H as (((H1 & H2) & H3) & H4).
  exists v. repeat split; try reflexivity; now apply returnsb_spec.
Qed.

Lemma quarter_codes_read_in_opposite_ways_witness :
  py "C" ∈ chromatic_bases /\ 52%N ∈ octave_digits
  /\ exists v,
       via_microtonal (py "C" ++ [52%N]) = Ok v
       /\ returns (via_microtonal (py "C" ++ [PLUS; 52%N])) (v + (1 # 2))
       /\ returns (via_notes (py "C" ++ [PLUS; 52%N])) (v - (1 # 2))
       /\ returns (via_microtonal (py "C" ++ [MINUS; 52%N])) (v - (1 # 2))
       /\ returns (via_notes (py "C" ++ [MINUS; 52%N])) (v + (1 # 2)).
Proof.
  assert (H1 : py "C" ∈ chromatic_bases)
    by (rewrite list_elem_of_In; vm_compute; repeat (first [left; reflexivity | right])).
  assert (H2 : 52%N ∈ octave_digits)
    by (rewrite list_elem_of_In; vm_compute; repeat (first [left; reflexivity | right])).
  split; [exact H1 |]. split; [exact H2 |].
  exact (quarter_codes_read_in_opposite_ways (py "C") 52%N H1 H2).
Defined.

End quarter_codes.

(** ** The cents suffix *)

Section cents.
Context {U : Unicode} {HU : UnicodeOk U}.
Import Microtonal.

(** X25: [microtonal.extract_cents] never raises; the cents it returns are
    from -99 to 99; when they are not 0, the base note it returns ends with
    a digit, and a string without the letter c is returned as it is. *)
Theorem extract_cents_total (nota : pystr) :
  exists base cents w,
    extract_cents nota = (Ok (base, cents), w)
    /\ (-99 <= cents <= 99)%Z
    /\ (cents <> 0%Z -> ends_with_digit base)
    /\ (LOWER_C ∉ nota -> base = nota /\ cents = 0%Z).
Proof.
  destruct (extract_cents_returns nota) as (b & c & w & He).
  exists b, c, w. split; [exact He |].
  destruct (Z.eq_dec c 0%Z) as [-> | Hc].
  - split; [lia |]. split; [congruence |].
    intros Hn. unfold extract_cents in He.
    replace (contains LOWER_C nota) with false in He
      by (symmetry; now apply bool_decide_eq_false).
    cbn [negb] in He. injection He as <- _. auto.
  - destruct (extract_cents_nonzero nota b c w He Hc) as [Hb Hr].
    split; [exact Hr |]. split; [auto |].
    intros Hn. unfold extract_cents in He.
    replace (contains LOWER_C nota) with false in He
      by (symmetry; now apply bool_decide_eq_false).
    cbn [negb] in He. injection He as <- <-. contradiction.
Qed.

End cents.

Lemma extract_cents_total_witness :
  UnicodeOk ascii_unicode
  /\ exists base cents w,
       @Microtonal.extract_cents ascii_unicode (py "C4+50c") = (Ok (base, cents), w)
       /\ (-99 <= cents <= 99)%Z
       /\ (cents <> 0%Z -> @ends_with_digit ascii_unicode base)
       /\ (LOWER_C ∉ py "C4+50c" -> base = py "C4+50c" /\ cents = 0%Z).
Proof.
  split; [exact ascii_unicode_ok |].
  exact (@extract_cents_total ascii_unicode ascii_unicode_ok (py "C4+50c")).
Defined.

(** ** The perceptual weight *)

Section weights.
Import Floats.
Import DensidadeIntervalarFloat.
#[local] Set Warnings "-inexact-float".
Local Open Scope float_scope.

(** X26: On binary64 values, NaN and the infinities included,
    [calcular_peso_perceptual_microtonal] is between 0.7200000000000001 (a
    low pair an octave or more apart) and 1.9500000000000002 (a high pair a
    semitone or less apart), and both values are taken; a fifth in the
    middle register has the weight 1. *)
Theorem peso_perceptual_range (midi1 midi2 delta_semitons : float) :
  (0.7200000000000001
   <=? calcular_peso_perceptual_microtonal midi1 midi2 delta_semitons) = true
  /\ (calcular_peso_perceptual_microtonal midi1 midi2 delta_semitons
      <=? 1.9500000000000002) = true
  /\ calcular_peso_perceptual_microtonal 40 41 12 = 0.7200000000000001
  /\ calcular_peso_perceptual_microtonal 90 91 1 = 1.9500000000000002
  /\ calcular_peso_perceptual_microtonal 60 67 7 = 1.
Proof.
  unfold calcular_peso_perceptual_microtonal.
  destruct (84 <? (midi1 + midi2) / 2);
    destruct (72 <? (midi1 + midi2) / 2);
    destruct ((midi1 + midi2) / 2 <? 48);
    destruct (delta_semitons <=? 1);
    destruct (delta_semitons <=? 2);
    destruct (delta_semitons <=? 4);
    destruct (12 <=? delta_semitons);
    repeat split; reflexivity.
Qed.

End weights.

(** ** The strings a pattern matches *)

Section enumeration.
Import Re.

Lemma words_complete (chars : list char) (w : pystr) :
  Forall (fun c => c ∈ chars) w -> w ∈ words chars (length w).
Proof.
  induction 1 as [| c w Hc _ IH]; cbn [length words].
  - apply list_elem_of_here.
  - apply list_elem_of_bind. exists c. split; [| exact Hc].
    apply list_elem_of_bind. exists w. split; [| exact IH].
    apply list_elem_of_here.
Qed.

Lemma enum_atom_complete (a : atom) (part : pystr) :
  bounded_class a -> fits a part -> part ∈ enum_atom a.
Proof.
  intros [Hhi Hcls] (Hlo & Hh & Hall). unfold enum_atom.
  destruct (hi a) as [h |]; [| congruence].
  specialize (Hh h eq_refl).
  apply list_elem_of_bind. exists (length part). split.
  - apply words_complete. eapply Forall_impl; [exact Hall |].
    intros c Hc. cbn beta in Hc. apply list_elem_of_In, filter_In.
    split; [apply list_elem_of_In, Hcls, Hc | exact Hc].
  - apply list_elem_of_In, in_seq. lia.
Qed.

Lemma enum_atoms_complete (p : list atom) (parts : list pystr) :
  Forall bounded_class p -> Forall2 fits p parts -> concat parts ∈ enum_atoms p.
Proof.
  intros Hb Hf. revert Hb.
  induction Hf as [| a part p parts Ha _ IH]; intros Hb; cbn [concat enum_atoms].
  - apply list_elem_of_here.
  - apply Forall_cons in Hb as [Hb1 Hb2].
    apply list_elem_of_bind. exists part. split; [| now apply enum_atom_complete].
    apply list_elem_of_bind. exists (concat parts). split; [| now apply IH].
    apply list_elem_of_here.
Qed.

Lemma fullmatch_enum (r : re) (s : pystr) :
  Forall bounded_class (List.flat_map atoms r) ->
  is_Some (fullmatch r s) -> s ∈ enum_atoms (List.flat_map atoms r).
Proof.
  intros Hb H. apply fullmatch_is_Some in H as [parts H].
  apply match_atoms_sound in H as [<- Hf].
  now apply enum_atoms_complete.
Qed.

(** [re.match] on a pattern closed by [$] accepts a match, or a match
    followed by a newline *)
Lemma match_dollar_enum (r : re) (s : pystr) :
  Forall bounded_class (List.flat_map atoms r) ->
  matches (match_dollar r s) = true ->
  exists s0, s0 ∈ enum_atoms (List.flat_map atoms r)
             /\ (s = s0 \/ s = s0 ++ [NEWLINE]).
Proof.
  intros Hb H. unfold match_dollar in H.
  destruct (fullmatch r s) as [g |] eqn:E.
  - exists s. split; [| now left].
    apply fullmatch_enum; [exact Hb | rewrite E; eauto].
  - destruct (last s) as [c |] eqn:El; [| discriminate].
    destruct (N.eqb_spec c NEWLINE) as [-> | Hne]; [| discriminate].
    destruct (exists_last (l := s)) as (s0 & c0 & ->).
    { intros ->. discriminate. }
    rewrite last_snoc in El. injection El as ->.
    rewrite removelast_last in H.
    exists s0. split; [| now right].
    apply fullmatch_enum; [exact Hb |].
    destruct (fullmatch r s0); [eauto | discriminate].
Qed.

Lemma ascii_in_alphabet (c : char) : (c < 128)%N -> c ∈ note_alphabet.
Proof.
  intros H. unfold note_alphabet. apply elem_of_app. left.
  replace c with (N.of_nat (N.to_nat c)) by lia.
  apply list_elem_of_fmap_2. apply list_elem_of_In, in_seq. lia.
Qed.

Lemma letter_in_alphabet (c : char) : cls_letter c = true -> c ∈ note_alphabet.
Proof.
  unfold cls_letter, in_range. rewrite orb_true_iff, !andb_true_iff, !N.leb_le.
  intros H. apply ascii_in_alphabet. lia.
Qed.

Lemma acc_in_alphabet (c : char) : cls_acc c = true -> c ∈ note_alphabet.
Proof.
  unfold cls_acc, HASH, LOWER_B. rewrite orb_true_iff, !N.eqb_eq.
  intros H. apply ascii_in_alphabet. lia.
Qed.

Lemma sign_in_alphabet (c : char) : cls_sign c = true -> c ∈ note_alphabet.
Proof.
  unfold cls_sign, PLUS, MINUS. rewrite orb_true_iff, !N.eqb_eq.
  intros H. apply ascii_in_alphabet. lia.
Qed.

Lemma arrow_in_alphabet (c : char) : cls_arrow c = true -> c ∈ note_alphabet.
Proof.
  unfold cls_arrow. rewrite orb_true_iff, !N.eqb_eq.
  intros [-> | ->]; unfold note_alphabet; apply elem_of_app; right.
  - apply list_elem_of_here.
  - apply list_elem_of_further, list_elem_of_here.
Qed.

Lemma digit_in_alphabet (c : char) :
  @is_digit ascii_unicode c = true -> c ∈ note_alphabet.
Proof.
  unfold is_digit. cbn [digit_value ascii_unicode]. unfold ascii_digit.
  destruct ((48 <=? c)%N && (c <=? 57)%N) eqn:E; [| discriminate].
  apply andb_true_iff in E as [_ E]. apply N.leb_le in E.
  intros _. apply ascii_in_alphabet. lia.
Qed.

Lemma lit_c_in_alphabet (c : char) : (c =? LOWER_C)%N = true -> c ∈ note_alphabet.
Proof.
  rewrite N.eqb_eq. intros ->. apply ascii_in_alphabet. reflexivity.
Qed.

End enumeration.

(** ** The notes [utils.notes] accepts *)

Section notes_valid.
Import Re.
Local Open Scope Q_scope.

Ltac bounded_atoms :=
  cbn [flat_map atoms cap raw app Notes._RE_STANDARD Notes._RE_QUARTER
       Notes._RE_ARROW Notes._RE_CENTS];
  repeat (constructor;
          [split; [discriminate |]; cbn [cls one opt rep lit];
           first [ exact letter_in_alphabet | exact acc_in_alphabet
                 | exact sign_in_alphabet | exact arrow_in_alphabet
                 | exact digit_in_alphabet | exact lit_c_in_alphabet ]
          |]);
  constructor.

Lemma notes_valid_enumerated (note : pystr) :
  @Notes.is_valid_note ascii_unicode note = true ->
  exists s0, s0 ∈ notes_valid_strings /\ (note = s0 \/ note = s0 ++ [NEWLINE]).
Proof.
  unfold Notes.is_valid_note, notes_valid_strings, notes_patterns.
  rewrite !orb_true_iff. intros [[[H | H] | H] | H];
    (apply match_dollar_enum in H as (s0 & Hs0 & Hn); [| bounded_atoms]);
    exists s0; (split; [| exact Hn]); apply list_elem_of_bind.
  - exists (@Notes._RE_STANDARD ascii_unicode). split; [exact Hs0 |].
    apply list_elem_of_here.
  - exists (@Notes._RE_QUARTER ascii_unicode). split; [exact Hs0 |].
    apply list_elem_of_further, list_elem_of_here.
  - exists (@Notes._RE_ARROW ascii_unicode). split; [exact Hs0 |].
    do 2 apply list_elem_of_further. apply list_elem_of_here.
  - exists (@Notes._RE_CENTS ascii_unicode). split; [exact Hs0 |].
    do 3 apply list_elem_of_further. apply list_elem_of_here.
Qed.

(** *** A final newline is stripped *)

Lemma lstrip_snoc_newline (s : pystr) :
  (@lstrip ascii_unicode (s ++ [NEWLINE]) = [] /\ @lstrip ascii_unicode s = [])
  \/ (@lstrip ascii_unicode (s ++ [NEWLINE]) = @lstrip ascii_unicode s ++ [NEWLINE]
      /\ @lstrip ascii_unicode s <> []).
Proof.
  induction s as [| c s IH]; [left; split; reflexivity |].
  cbn [app lstrip]. destruct (isspace c); [exact IH |].
  right. split; [reflexivity | discriminate].
Qed.

Lemma strip_snoc_newline (s : pystr) :
  @strip ascii_unicode (s ++ [NEWLINE]) = @strip ascii_unicode s.
Proof.
  unfold strip. destruct (lstrip_snoc_newline s) as [[-> ->] | [-> _]];
    [reflexivity |].
  rewrite reverse_snoc. reflexivity.
Qed.

Lemma replace_snoc (x : char) (new : pystr) (s : pystr) (c : char) :
  c <> x -> replace x new (s ++ [c]) = replace x new s ++ [c].
Proof.
  intros Hne. unfold replace. rewrite flat_map_app. cbn [flat_map].
  apply N.eqb_neq in Hne. now rewrite Hne, app_nil_r.
Qed.

Lemma notes_note_to_midi_newline (s : pystr) :
  @Notes.note_to_midi ascii_unicode (s ++ [NEWLINE])
  = @Notes.note_to_midi ascii_unicode s.
Proof.
  unfold Notes.note_to_midi, Notes.normalize_note_string.
  rewrite replace_snoc by discriminate. now rewrite strip_snoc_newline.
Qed.

Lemma notes_valid_checked :
  forallb (fun note =>
             within (1051 # 100) (13249 # 100)
                    (fst (@Notes.note_to_midi ascii_unicode note)))
          notes_valid_strings = true.
Proof. vm_compute. reflexivity. Qed.

(** X27: On the database of the note alphabet, [utils.notes.note_to_midi]
    never raises for a string that [utils.notes.is_valid_note] accepts, and
    its value is from 10.51 to 132.49. *)
Theorem notes_note_to_midi_valid (note : pystr) :
  @Notes.is_valid_note ascii_unicode note = true ->
  exists v, fst (@Notes.note_to_midi ascii_unicode note) = Ok v
            /\ 1051 # 100 <= v <= 13249 # 100.
Proof.
  intros H. apply notes_valid_enumerated in H as (s0 & H & Hn).
  pose proof notes_valid_checked as Hc. rewrite forallb_forall in Hc.
  specialize (Hc s0). rewrite <- list_elem_of_In in Hc. specialize (Hc H).
  assert (Hsame : @Notes.note_to_midi ascii_unicode note
                  = @Notes.note_to_midi ascii_unicode s0).
  { destruct Hn as [-> | ->]; [reflexivity | apply notes_note_to_midi_newline]. }
  rewrite Hsame. unfold within in Hc.
  destruct (fst (Notes.note_to_midi s0)) as [v |]; [| discriminate].
  apply andb_true_iff in Hc as [H1 H2]. apply Qle_bool_iff in H1, H2. eauto.
Qed.

Lemma notes_note_to_midi_valid_witness :
  @Notes.is_valid_note ascii_unicode (py "Eb4+50c") = true
  /\ exists v, fst (@Notes.note_to_midi ascii_unicode (py "Eb4+50c")) = Ok v
               /\ 1051 # 100 <= v <= 13249 # 100.
Proof.
  assert (H : @Notes.is_valid_note ascii_unicode (py "Eb4+50c") = true)
    by (vm_compute; reflexivity).
  split; [exact H |].
  exact (notes_note_to_midi_valid (py "Eb4+50c") H).
Defined.

End notes_valid.

(** ** Note names of [utils.notes] *)

Section notes_names.
Import NotesNames.
Local Open Scope Q_scope.

Lemma NOTE_BASE_MIDI_items_map :
  list_to_map NOTE_BASE_MIDI_items = Notes.NOTE_BASE_MIDI.
Proof. reflexivity. Qed.

Lemma notes_names_checked :
  forallb (fun n => forallb (notes_name_round_trips n) notes_cents_numbers)
          notes_pitch_numbers = true.
Proof. vm_compute. reflexivity. Qed.

(** X28: From MIDI 12 to 131 and for cents from -49 to 49, the name that
    [utils.notes.midi_to_note_name] gives the pitch is read back by the
    [utils.notes] path as that pitch. *)
Theorem notes_midi_to_note_name_round_trip (n c : Z) :
  (12 <= n <= 131)%Z -> (-49 <= c <= 49)%Z ->
  returns (via_notes (midi_to_note_name (inject_Z n + inject_Z c / 100)))
          (inject_Z n + inject_Z c / 100).
Proof.
  intros Hn Hc.
  assert (Hn' : n ∈ notes_pitch_numbers) by (apply elem_of_Z_seq; simpl; lia).
  assert (Hc' : c ∈ notes_cents_numbers).
  { unfold notes_cents_numbers.
    replace c with (Z.of_nat (Z.to_nat (c + 49)) - 49)%Z by lia.
    apply (list_elem_of_fmap_2 (fun k => Z.of_nat k - 49)%Z).
    apply list_elem_of_In, in_seq. lia. }
  pose proof (forallb_elem _ _ c (forallb_elem _ _ n notes_names_checked Hn') Hc')
    as H.
  now apply returnsb_spec.
Qed.

Lemma notes_midi_to_note_name_round_trip_witness :
  (12 <= 61 <= 131)%Z /\ (-49 <= -25 <= 49)%Z
  /\ returns (via_notes (midi_to_note_name (inject_Z 61 + inject_Z (-25) / 100)))
             (inject_Z 61 + inject_Z (-25) / 100).
Proof.
  assert (H1 : (12 <= 61 <= 131)%Z) by lia.
  assert (H2 : (-49 <= -25 <= 49)%Z) by lia.
  split; [exact H1 |]. split; [exact H2 |].
  exact (notes_midi_to_note_name_round_trip 61 (-25) H1 H2).
Defined.

(** the names use the last spelling of each value in [NOTE_BASE_MIDI] *)
Lemma notes_midi_to_note_name_spellings :
  midi_to_note_name 60 = py "B#4" /\ midi_to_note_name 61 = py "Db4"
  /\ midi_to_note_name 71 = py "Cb4".
Proof. repeat split; vm_compute; reflexivity. Qed.

End notes_names.

(** ** The arrows in utils/serialize_utils.py *)

Section serialize_arrows.
Local Open Scope Q_scope.

Lemma returnsb_returns (r : result Q) (q : Q) : returnsb r q = true -> returns r q.
Proof.
  destruct r as [x |]; simpl; [| discriminate]. apply Qeq_bool_eq.
Qed.

Lemma serialize_conventionb_sound (base : pystr) (d : char) :
  serialize_conventionb base d = true -> serialize_convention base d.
Proof.
  unfold serialize_conventionb, serialize_convention.
  destruct (via_microtonal (base ++ [d])) as [v |]; [| discriminate].
  intros H. repeat (apply andb_prop in H; destruct H as [H ?]).
  exists v. repeat split; try reflexivity; apply returnsb_returns; assumption.
Qed.

(** X29: the arrows are read in opposite ways by
    [utils/serialize_utils.note_to_midi] and [microtonal.note_to_midi] *)
Theorem serialize_utils_arrows_are_the_codes (base : pystr) (d : char) :
  In base ascii_chromatic_bases -> In d octave_digits ->
  serialize_convention base d.
Proof.
  intros Hb Hd. apply serialize_conventionb_sound.
  assert (H : forallb (fun b => forallb (serialize_conventionb b) octave_digits)
                ascii_chromatic_bases = true) by (vm_compute; reflexivity).
  rewrite forallb_forall in H. specialize (H base Hb).
  rewrite forallb_forall in H. exact (H d Hd).
Qed.

Lemma serialize_utils_arrows_are_the_codes_witness :
  In (py "Bb") ascii_chromatic_bases /\ In 51%N octave_digits
  /\ serialize_convention (py "Bb") 51%N.
Proof.
  assert (Hb : In (py "Bb") ascii_chromatic_bases).
  { vm_compute. repeat (first [left; reflexivity | right]). }
  assert (Hd : In 51%N octave_digits).
  { vm_compute. repeat (first [left; reflexivity | right]). }
  split; [exact Hb |]. split; [exact Hd |].
  exact (serialize_utils_arrows_are_the_codes (py "Bb") 51%N Hb Hd).
Defined.

End serialize_arrows.

(** ** The harmonic ratio *)

Section harmonic_ratio.
Import SpectralAnalysis SpectralAnalysisRatio.
Local Open Scope Q_scope.

Lemma mask_index_Ok {A} (a : list A) (mask : list bool) :
  length a = length mask ->
  mask_index a mask = Ok (fst <$> List.filter snd (zip a mask)).
Proof.
  intros H. unfold mask_index. rewrite H, Nat.eqb_refl. reflexivity.
Qed.

Lemma masked_cons {A} (x : A) (a : list A) (b : bool) (mask : list bool) :
  fst <$> List.filter snd (zip (x :: a) (b :: mask))
  = if b then x :: (fst <$> List.filter snd (zip a mask))
    else fst <$> List.filter snd (zip a mask).
Proof. destruct b; reflexivity. Qed.

Lemma masked_nonneg (a : list Q) (mask : list bool) :
  Forall (fun x => 0 <= x) a ->
  Forall (fun x => 0 <= x) (fst <$> List.filter snd (zip a mask)).
Proof.
  intros Ha. revert mask. induction Ha as [| x a Hx Ha IH]; intros mask;
    [constructor |].
  destruct mask as [| b mask]; [constructor |].
  rewrite masked_cons. destruct b; [constructor; [exact Hx |] |]; apply IH.
Qed.

Lemma sum_masked_le (a : list Q) (mask : list bool) :
  Forall (fun x => 0 <= x) a ->
  sum (fst <$> List.filter snd (zip a mask)) <= sum a.
Proof.
  intros Ha. revert mask. induction Ha as [| x a Hx Ha IH]; intros mask.
  - cbn. lra.
  - pose proof (sum_nonneg a Ha). destruct mask as [| b mask].
    + rewrite sum_cons. cbn - [sum]. rewrite sum_nil. lra.
    + rewrite masked_cons. specialize (IH mask).
      destruct b; rewrite ?sum_cons; lra.
Qed.

(** an entry the mask keeps is part of the sum *)
Lemma sum_masked_ge (a : list Q) (mask : list bool) (k : nat) (x : Q) :
  Forall (fun x => 0 <= x) a ->
  a !! k = Some x -> mask !! k = Some true ->
  x <= sum (fst <$> List.filter snd (zip a mask)).
Proof.
  intros Ha. revert mask k. induction Ha as [| y a Hy Ha IH]; intros mask k Hk Hm.
  - rewrite lookup_nil in Hk. discriminate.
  - destruct mask as [| b mask]; [rewrite lookup_nil in Hm; discriminate |].
    rewrite masked_cons.
    pose proof (sum_nonneg _ (masked_nonneg a mask Ha)).
    destruct k as [| k]; simpl in Hk, Hm.
    + injection Hk as <-. injection Hm as ->. rewrite sum_cons. lra.
    + specialize (IH mask k Hk Hm). destruct b; rewrite ?sum_cons; lra.
Qed.

Lemma masked_by_valid {A} (a : list A) (l : list Q) :
  length a = length l ->
  fst <$> List.filter snd
    (zip a ((fun p => negb (isnan (Fin p) || isinf (Fin p))) <$> l)) = a.
Proof.
  revert l. induction a as [| x a IH]; intros [| y l] H; try discriminate;
    [reflexivity |]. simpl. f_equal. apply IH. simpl in H. lia.
Qed.

Lemma sum_ones {A} (l : list A) :
  sum ((fun _ => 1) <$> l) == inject_Z (Z.of_nat (length l)).
Proof.
  induction l as [| x l IH]; [reflexivity |].
  rewrite fmap_cons, sum_cons, IH. cbn [length].
  rewrite Nat2Z.inj_succ, <- Z.add_1_l, inject_Z_plus. reflexivity.
Qed.

Lemma array_min_elem (l : list Q) :
  l <> [] -> exists k, l !! k = Some (array_min l).
Proof.
  destruct l as [| x l]; [congruence |]. intros _. unfold array_min.
  revert x. induction l as [| y l IH]; intros x.
  - now exists 0%nat.
  - cbn [foldl]. destruct (IH (if Qlt_le_dec y x then y else x)) as [[| k] Hk].
    + cbn in Hk. rewrite <- Hk.
      destruct (Qlt_le_dec y x); [now exists 1%nat | now exists 0%nat].
    + now exists (S (S k)).
Qed.

(** the lowest pitch is at distance 0 from itself: it counts as harmonic *)
Lemma unison_is_harmonic (m : Q) : isclose0 (mod12 (fsub (Fin m) (Fin m))) = true.
Proof.
  pose proof OVERFLOW_pos.
  unfold fsub. cbn [fopp fadd]. rewrite to_float_Fin by lra.
  cbn [mod12 isclose0]. apply Qle_bool_iff.
  assert (Hf : Qfloor ((m + - m) / 12) = 0%Z).
  { rewrite (Qfloor_comp ((m + - m) / 12) 0); [reflexivity | field]. }
  rewrite Hf.
  assert (Hz : m + - m - 12 * inject_Z 0 == 0) by ring.
  rewrite (Qabs_wd _ _ Hz). vm_compute. discriminate.
Qed.

(** X30: with the default amplitudes and at most [2^53] pitches,
    [calculate_harmonic_ratio] returns a finite value between 0 and 1,
    whatever the pitches (NaN and the infinities included) and the
    fundamental; with the default fundamental, the lowest pitch, the value
    is at least 1 over the number of pitches. *)
Theorem calculate_harmonic_ratio_range (pitches : list pyfloat)
    (fundamental : option pyfloat) :
  pitches <> [] ->
  (Z.of_nat (length pitches) <= 2 ^ 53)%Z ->
  exists r,
    calculate_harmonic_ratio pitches None fundamental = Ok (Fin r)
    /\ 0 <= r <= 1
    /\ (fundamental = None ->
        1 / inject_Z (Z.of_nat (length pitches)) <= r).
Proof.
  intros Hne Hlen. unfold calculate_harmonic_ratio.
  destruct pitches as [| p0 ps] eqn:Hp; [congruence |].
  rewrite <- Hp in *. clear Hp p0 ps.
  set (P := _safe_array pitches).
  assert (HP : length P = length pitches) by (unfold P, _safe_array; apply length_fmap).
  set (n := inject_Z (Z.of_nat (length pitches))) in *.
  assert (Hn1 : 1 <= n).
  { unfold n. change 1 with (inject_Z 1). rewrite <- Zle_Qle.
    destruct pitches; [congruence | cbn [length]; lia]. }
  assert (Hn2 : n < OVERFLOW).
  { apply Qle_lt_trans with (inject_Z (2 ^ 53)).
    - unfold n. now rewrite <- Zle_Qle.
    - vm_compute. reflexivity. }
  set (ones := (fun _ : Q => 1) <$> P).
  assert (Hones : Forall (fun x => 0 <= x) ones).
  { unfold ones. apply Forall_fmap, Forall_true. intros ?. cbn. lra. }
  assert (Hsum1 : sum ones == n).
  { unfold ones. rewrite sum_ones, HP. reflexivity. }
  rewrite (mask_index_Ok P) by (now rewrite length_fmap).
  rewrite (masked_by_valid P P eq_refl). cbn [mbind result_bind].
  rewrite (mask_index_Ok ones) by (unfold ones; now rewrite !length_fmap).
  rewrite (masked_by_valid ones P) by (unfold ones; now rewrite length_fmap).
  cbn [mbind result_bind].
  destruct (Nat.eqb_spec (length P) 0) as [H0 | _].
  { destruct pitches; [congruence | rewrite HP in H0; discriminate]. }
  set (f := match fundamental with
            | Some f => f
            | None => Fin (array_min P)
            end).
  set (hm := (fun i => isclose0 (mod12 i)) <$> ((fun p => fsub (Fin p) f) <$> P)).
  rewrite (mask_index_Ok ones hm)
    by (unfold ones, hm; now rewrite !length_fmap).
  cbn [mbind result_bind].
  set (harm := fst <$> List.filter snd (zip ones hm)).
  pose proof (masked_nonneg ones hm Hones) as Hhn. fold harm in Hhn.
  pose proof (sum_masked_le ones hm Hones) as Hhle. fold harm in Hhle.
  pose proof (sum_nonneg harm Hhn) as Hh0.
  destruct (np_sum_Fin harm Hhn) as (h & Hh & Hheq); [lra |].
  destruct (np_sum_Fin ones Hones) as (t & Ht & Hteq); [lra |].
  rewrite Hh, Ht. cbn [positive].
  destruct (Qlt_le_dec 0 t) as [Ht0 | Ht0]; [| lra].
  rewrite fdiv_Fin by lra.
  exists (h / t). split; [reflexivity |].
  split.
  { split; [apply Qle_shift_div_l | apply Qle_shift_div_r]; lra. }
  intros ->.
  assert (Hone : 1 <= sum harm).
  { destruct (array_min_elem P) as [k Hk].
    { intros HPnil. rewrite HPnil in HP. destruct pitches; [congruence | discriminate]. }
    apply (sum_masked_ge ones hm k 1 Hones).
    - unfold ones. rewrite list_lookup_fmap, Hk. reflexivity.
    - unfold hm. rewrite !list_lookup_fmap, Hk. cbn [fmap option_fmap option_map].
      unfold f. now rewrite unison_is_harmonic. }
  apply Qle_shift_div_l; [lra |].
  assert (1 / n * t == 1) as -> by (rewrite Hteq, Hsum1; field; lra).
  lra.
Qed.

Lemma calculate_harmonic_ratio_range_witness :
  [Fin 60; PosInf; Fin 67; NaN] <> []
  /\ (Z.of_nat (length [Fin 60; PosInf; Fin 67; NaN]) <= 2 ^ 53)%Z
  /\ exists r,
       calculate_harmonic_ratio [Fin 60; PosInf; Fin 67; NaN] None None
       = Ok (Fin r)
       /\ 0 <= r <= 1
       /\ (@None pyfloat = None ->
           1 / inject_Z (Z.of_nat (length [Fin 60; PosInf; Fin 67; NaN])) <= r).
Proof.
  assert (H1 : [Fin 60; PosInf; Fin 67; NaN] <> []) by discriminate.
  assert (H2 : (Z.of_nat (length [Fin 60; PosInf; Fin 67; NaN]) <= 2 ^ 53)%Z)
    by (vm_compute; discriminate).
  split; [exact H1 |]. split; [exact H2 |].
  exact (calculate_harmonic_ratio_range [Fin 60; PosInf; Fin 67; NaN] None H1 H2).
Defined.

End harmonic_ratio.
